(** * claude-telegram-bot: session and process orchestration

    A shallow embedding of the bot's session/workspace stores
    (sessions.js, repos.js), its key derivation and in-flight lock
    (index.js) and its CLI wrapper (claude.js), with the properties the
    specification states about them.

    Conventions.
    - A JavaScript string is the list of its UTF-16 code units
      ([jsstring]); [lit] embeds an ASCII literal of the source.
    - A JavaScript object used as a dictionary is a [gmap] keyed by
      property name; a [Set] of strings is a [gset].  The keys are
      session names and printed chat ids, never the name of a member of
      [Object.prototype].
    - Module-level mutable variables are fields of explicit state records
      that every operation takes and returns.
    - Values that come from outside the program (the clock, the random
      source, the file system, the child process, the event loop) are
      inputs of the operation that consumes them. *)

From Stdlib Require Import ZArith NArith List String Ascii Bool Lia.
From Stdlib Require Import DecimalString DecimalZ DecimalPos.
From stdpp Require Import base gmap sets list.
Import ListNotations.

Local Open Scope N_scope.

(* ===================================================================== *)
(** ** JavaScript strings and identifiers                                 *)
(* ===================================================================== *)

(** UTF-16 code units of a JavaScript string. *)
Abbreviation jsstring := (list N).

(** An ASCII literal of the source as code units. *)
Definition lit (s : string) : jsstring :=
  map N_of_ascii (list_ascii_of_string s).

(** JavaScript truthiness of a string: only the empty string is falsy. *)
Definition truthy (s : jsstring) : bool :=
  match s with [] => false | _ :: _ => true end.

(** [a || b] on strings. *)
Definition js_or (a b : jsstring) : jsstring :=
  if truthy a then a else b.

(** [o || d] where [o] may be [undefined]. *)
Definition opt_or (o : option jsstring) (d : jsstring) : jsstring :=
  match o with Some a => js_or a d | None => d end.

(** The identifiers the handlers read from a Telegram update
    ([ctx.from?.id], [ctx.chat?.id]): an integer, a string, or
    [undefined] when the optional chain stops short.  Telegram ids are
    integers well inside the range where [Number.prototype.toString]
    prints plain decimal digits. *)
Inductive JsId : Type :=
  | IdNum (z : Z)
  | IdStr (s : jsstring)
  | IdUndefined.

(** [String(v)], also what a template literal [`${v}`] inserts. *)
Definition js_String (v : JsId) : jsstring :=
  match v with
  | IdNum z => lit (NilZero.string_of_int (Z.to_int z))
  | IdStr s => s
  | IdUndefined => lit "undefined"
  end.

(* ===================================================================== *)
(** ** crypto.createHash('md5')                                           *)
(* ===================================================================== *)

Module Md5.

(** [hash.update(str)] feeds the UTF-8 encoding of the string; a lone
    surrogate is encoded as U+FFFD. *)
Definition isHighSurrogate (c : N) : bool := (0xD800 <=? c) && (c <=? 0xDBFF).
Definition isLowSurrogate (c : N) : bool := (0xDC00 <=? c) && (c <=? 0xDFFF).

Definition replacement : list N := [0xEF; 0xBF; 0xBD].

Definition enc2 (c : N) : list N :=
  [N.lor 0xC0 (N.shiftr c 6); N.lor 0x80 (N.land c 0x3F)].

Definition enc3 (c : N) : list N :=
  [N.lor 0xE0 (N.shiftr c 12);
   N.lor 0x80 (N.land (N.shiftr c 6) 0x3F);
   N.lor 0x80 (N.land c 0x3F)].

Definition enc4 (hi lo : N) : list N :=
  let cp := 0x10000 + (hi - 0xD800) * 0x400 + (lo - 0xDC00) in
  [N.lor 0xF0 (N.shiftr cp 18);
   N.lor 0x80 (N.land (N.shiftr cp 12) 0x3F);
   N.lor 0x80 (N.land (N.shiftr cp 6) 0x3F);
   N.lor 0x80 (N.land cp 0x3F)].

Fixpoint utf8 (s : jsstring) : list N :=
  match s with
  | [] => []
  | c :: r =>
      if c <? 0x80 then c :: utf8 r
      else if c <? 0x800 then enc2 c ++ utf8 r
      else if isHighSurrogate c then
        match r with
        | d :: r' =>
            if isLowSurrogate d then enc4 c d ++ utf8 r'
            else replacement ++ utf8 r
        | [] => replacement
        end
      else if isLowSurrogate c then replacement ++ utf8 r
      else enc3 c ++ utf8 r
  end.

(** 32-bit words with wrap-around. *)
Definition mask32 : N := 0xFFFFFFFF.
Definition add32 (x y : N) : N := (x + y) mod 2 ^ 32.
Definition not32 (x : N) : N := N.lxor (N.land x mask32) mask32.
Definition rotl32 (x n : N) : N :=
  N.land (N.lor (N.shiftl x n) (N.shiftr x (32 - n))) mask32.

Definition K : list N :=
  [0xd76aa478; 0xe8c7b756; 0x242070db; 0xc1bdceee;
   0xf57c0faf; 0x4787c62a; 0xa8304613; 0xfd469501;
   0x698098d8; 0x8b44f7af; 0xffff5bb1; 0x895cd7be;
   0x6b901122; 0xfd987193; 0xa679438e; 0x49b40821;
   0xf61e2562; 0xc040b340; 0x265e5a51; 0xe9b6c7aa;
   0xd62f105d; 0x02441453; 0xd8a1e681; 0xe7d3fbc8;
   0x21e1cde6; 0xc33707d6; 0xf4d50d87; 0x455a14ed;
   0xa9e3e905; 0xfcefa3f8; 0x676f02d9; 0x8d2a4c8a;
   0xfffa3942; 0x8771f681; 0x6d9d6122; 0xfde5380c;
   0xa4beea44; 0x4bdecfa9; 0xf6bb4b60; 0xbebfbc70;
   0x289b7ec6; 0xeaa127fa; 0xd4ef3085; 0x04881d05;
   0xd9d4d039; 0xe6db99e5; 0x1fa27cf8; 0xc4ac5665;
   0xf4292244; 0x432aff97; 0xab9423a7; 0xfc93a039;
   0x655b59c3; 0x8f0ccc92; 0xffeff47d; 0x85845dd1;
   0x6fa87e4f; 0xfe2ce6e0; 0xa3014314; 0x4e0811a1;
   0xf7537e82; 0xbd3af235; 0x2ad7d2bb; 0xeb86d391].

Definition shifts : list N :=
  [7; 12; 17; 22; 7; 12; 17; 22; 7; 12; 17; 22; 7; 12; 17; 22;
   5; 9; 14; 20; 5; 9; 14; 20; 5; 9; 14; 20; 5; 9; 14; 20;
   4; 11; 16; 23; 4; 11; 16; 23; 4; 11; 16; 23; 4; 11; 16; 23;
   6; 10; 15; 21; 6; 10; 15; 21; 6; 10; 15; 21; 6; 10; 15; 21].

(** Little-endian bytes of a number, [n] of them. *)
Fixpoint le_bytes (n : nat) (x : N) : list N :=
  match n with
  | O => []
  | S n' => x mod 256 :: le_bytes n' (x / 256)
  end.

Fixpoint le_word (bs : list N) : N :=
  match bs with
  | [] => 0
  | b :: r => b + 256 * le_word r
  end.

(** Padding: a 1 bit, zeros up to 56 mod 64, the bit length on 64 bits. *)
Definition pad (msg : list N) : list N :=
  let len := N.of_nat (length msg) in
  let zeros := (119 - len mod 64) mod 64 in
  msg ++ [0x80] ++ repeat 0 (N.to_nat zeros)
      ++ le_bytes 8 ((8 * len) mod 2 ^ 64).

(** Consecutive groups of [k] elements, [n] of them. *)
Fixpoint groups {A} (k n : nat) (l : list A) : list (list A) :=
  match n with
  | O => []
  | S n' => firstn k l :: groups k n' (skipn k l)
  end.

Definition words (block : list N) : list N :=
  map le_word (groups 4 16 block).

Record regs := Regs { rA : N; rB : N; rC : N; rD : N }.

Definition init : regs :=
  Regs 0x67452301 0xefcdab89 0x98badcfe 0x10325476.

Definition round (M : list N) (r : regs) (i : nat) : regs :=
  let '(Regs a b c d) := r in
  let iN := N.of_nat i in
  let '(f, g) :=
    if iN <? 16 then (N.lor (N.land b c) (N.land (not32 b) d), iN)
    else if iN <? 32 then
      (N.lor (N.land d b) (N.land (not32 d) c), (5 * iN + 1) mod 16)
    else if iN <? 48 then (N.lxor b (N.lxor c d), (3 * iN + 5) mod 16)
    else (N.lxor c (N.lor b (not32 d)), (7 * iN) mod 16) in
  let f' := add32 (add32 (add32 f a) (nth i K 0)) (nth (N.to_nat g) M 0) in
  Regs d (add32 b (rotl32 f' (nth i shifts 0))) b c.

Definition compress (h : regs) (block : list N) : regs :=
  let r := fold_left (round (words block)) (seq 0 64) h in
  Regs (add32 (rA h) (rA r)) (add32 (rB h) (rB r))
       (add32 (rC h) (rC r)) (add32 (rD h) (rD r)).

Definition digest (msg : list N) : list N :=
  let p := pad msg in
  let h := fold_left compress (groups 64 (length p / 64) p) init in
  le_bytes 4 (rA h) ++ le_bytes 4 (rB h)
    ++ le_bytes 4 (rC h) ++ le_bytes 4 (rD h).

(** [.digest('hex')]: two lower-case hexadecimal digits per byte. *)
Definition hexdigit (n : N) : N :=
  if n <? 10 then 48 + n else 87 + n.

Definition hexbyte (b : N) : list N :=
  [hexdigit ((b / 16) mod 16); hexdigit (b mod 16)].

Definition hex (bs : list N) : jsstring := concat (map hexbyte bs).

Definition md5_hex (s : jsstring) : jsstring := hex (digest (utf8 s)).

End Md5.

(** A lower-case hexadecimal digit, as a code unit. *)
Definition isHexDigit (c : N) : Prop :=
  (48 <= c <= 57) \/ (97 <= c <= 102).

(** [str.substring(0, n)]. *)
Definition substring0 (n : nat) (s : jsstring) : jsstring := firstn n s.

(* ===================================================================== *)
(** ** config.js                                                          *)
(* ===================================================================== *)

(** The fields of [config] the orchestration code reads. *)
Record Config := {
  anthropicApiKey : option jsstring;   (* process.env.ANTHROPIC_API_KEY *)
  allowedUsers : list (option Z);      (* parseInt results, None for NaN *)
  workingDirectory : jsstring;
  claudeModel : jsstring;
  sessionPrefix : jsstring;
}.

(** [process.env]: a dictionary from variable names to string values. *)
Abbreviation environ := (gmap jsstring jsstring).

(** The [config] object, built once from the environment and the current
    directory; the parsed ALLOWED_USERS list is taken as given. *)
Definition config (env : environ) (cwd : jsstring)
    (allowed : list (option Z)) : Config := {|
  anthropicApiKey := env !! lit "ANTHROPIC_API_KEY";
  allowedUsers := allowed;
  workingDirectory := opt_or (env !! lit "WORKING_DIRECTORY") cwd;
  claudeModel := opt_or (env !! lit "CLAUDE_MODEL") [];
  sessionPrefix := opt_or (env !! lit "SESSION_PREFIX") (lit "telegram");
|}.

(** What a store operation takes from outside: the text of
    [new Date().toISOString()] and whether [writeFileSync] goes through
    (its failure is caught and logged by the save functions). *)
Record Outside := {
  now : jsstring;
  writable : bool;
}.

(** A thrown [Error] carries its message. *)
Inductive Completion (A : Type) : Type :=
  | Return (a : A)
  | Throw (message : jsstring).
Arguments Return {A} a.
Arguments Throw {A} message.

(* ===================================================================== *)
(** ** repos.js                                                           *)
(* ===================================================================== *)

Module Repos.

Record Mapping := { path : jsstring; setAt : jsstring }.

(** [repoMappings] (the in-memory cache) and the content of
    data/repos.json ([None] while the file does not exist). *)
Record State := {
  repoMappings : gmap jsstring Mapping;
  reposFile : option (gmap jsstring Mapping);
}.

(** The file system as [fs.statSync] sees it: for each path either the
    message of the error it throws or the answer of
    [stats.isDirectory()]. *)
Definition FileSystem := jsstring -> jsstring + bool.

(** [statSync(path)]; the empty path never resolves (ENOENT). *)
Definition statSync (fs : FileSystem) (p : jsstring) : jsstring + bool :=
  match p with
  | [] => inl (lit "ENOENT: no such file or directory, stat ''")
  | _ :: _ => fs p
  end.

Definition saveRepoMappings (o : Outside) (st : State) : State :=
  if writable o
  then {| repoMappings := repoMappings st;
          reposFile := Some (repoMappings st) |}
  else st.

(** The validation [try] block of [setRepoForChat]: [Some message] when
    it throws. *)
Definition validate (fs : FileSystem) (repoPath : jsstring)
  : option jsstring :=
  match statSync fs repoPath with
  | inl message => Some message
  | inr isDirectory =>
      if negb isDirectory then Some (lit "Path is not a directory")
      else None
  end.

Definition setRepoForChat (fs : FileSystem) (o : Outside)
    (chatId : JsId) (repoPath : jsstring) (st : State)
  : Completion bool * State :=
  match validate fs repoPath with
  | Some message =>
      (Throw (lit "Invalid path: " ++ repoPath ++ lit " - " ++ message),
       st)
  | None =>
      let st1 := {|
        repoMappings :=
          <[js_String chatId := {| path := repoPath; setAt := now o |}]>
            (repoMappings st);
        reposFile := reposFile st |} in
      (Return true, saveRepoMappings o st1)
  end.

Definition getRepoForChat (st : State) (chatId : JsId)
    (defaultPath : jsstring) : jsstring :=
  opt_or (path <$> repoMappings st !! js_String chatId) defaultPath.

Definition removeRepoForChat (o : Outside) (chatId : JsId) (st : State)
  : State :=
  saveRepoMappings o
    {| repoMappings := delete (js_String chatId) (repoMappings st);
       reposFile := reposFile st |}.

Definition getRepoInfo (st : State) (chatId : JsId) : option Mapping :=
  repoMappings st !! js_String chatId.

Definition hashRepoPath (repoPath : jsstring) : jsstring :=
  substring0 8 (Md5.md5_hex repoPath).

End Repos.

(* ===================================================================== *)
(** ** sessions.js                                                        *)
(* ===================================================================== *)

Module Sessions.

Record Info := {
  uuid : jsstring;
  createdAt : jsstring;
  previousUUID : option jsstring;
}.

(** [sessionMappings], the content of data/sessions.json, and the
    number of values drawn so far from [crypto.randomUUID]. *)
Record State := {
  sessionMappings : gmap jsstring Info;
  sessionsFile : option (gmap jsstring Info);
  draws : nat;
}.

Definition saveSessionMappings (o : Outside) (st : State) : State :=
  if writable o
  then {| sessionMappings := sessionMappings st;
          sessionsFile := Some (sessionMappings st);
          draws := draws st |}
  else st.

Section WithRandom.

(** [randomUUID i] is the value of the [i]-th call of
    [crypto.randomUUID()] in this process. *)
Variable randomUUID : nat -> jsstring.

Definition getSessionUUID (o : Outside) (logicalName : jsstring)
    (st : State) : jsstring * State :=
  match sessionMappings st !! logicalName with
  | Some info => (uuid info, st)
  | None =>
      let u := randomUUID (draws st) in
      let st1 := {|
        sessionMappings :=
          <[logicalName := {| uuid := u; createdAt := now o;
                              previousUUID := None |}]>
            (sessionMappings st);
        sessionsFile := sessionsFile st;
        draws := S (draws st) |} in
      (u, saveSessionMappings o st1)
  end.

Definition resetSession (o : Outside) (logicalName : jsstring)
    (st : State) : jsstring * State :=
  let u := randomUUID (draws st) in
  let st1 := {|
    sessionMappings :=
      <[logicalName :=
          {| uuid := u; createdAt := now o;
             previousUUID :=
               uuid <$> sessionMappings st !! logicalName |}]>
        (sessionMappings st);
    sessionsFile := sessionsFile st;
    draws := S (draws st) |} in
  (u, saveSessionMappings o st1).

(** No handle in the store is a value still to be drawn. *)
Definition unseen (st : State) : Prop :=
  forall k info i,
    sessionMappings st !! k = Some info -> (draws st <= i)%nat ->
    uuid info <> randomUUID i.

Definition getSessionInfo (logicalName : jsstring) (st : State)
  : option Info :=
  sessionMappings st !! logicalName.

(** A call of the module from the rest of the program. *)
Inductive Call : Type :=
  | CallGet (o : Outside) (logicalName : jsstring)
  | CallReset (o : Outside) (logicalName : jsstring).

Definition callName (c : Call) : jsstring :=
  match c with CallGet _ k | CallReset _ k => k end.

Definition perform (c : Call) (st : State) : jsstring * State :=
  match c with
  | CallGet o k => getSessionUUID o k st
  | CallReset o k => resetSession o k st
  end.

(** Runs the calls in order; also returns, oldest first, which
    handle each call returned for which logical name. *)
Fixpoint performAll (cs : list Call) (st : State)
  : list (jsstring * jsstring) * State :=
  match cs with
  | [] => ([], st)
  | c :: cs' =>
      let '(h, st1) := perform c st in
      let '(issued, st2) := performAll cs' st1 in
      ((callName c, h) :: issued, st2)
  end.

End WithRandom.

End Sessions.

(* ===================================================================== *)
(** ** index.js: session ids                                              *)
(* ===================================================================== *)

Record Chat := { chat_id : JsId; chat_type : jsstring }.

(** The parts of a grammY context the handlers read. *)
Record Context := {
  from : option JsId;       (* ctx.from, by its id *)
  chat : option Chat;       (* ctx.chat *)
}.

(** [ctx.from?.id], [ctx.chat?.id], [ctx.chat?.type]. *)
Definition from_id (ctx : Context) : JsId :=
  match from ctx with Some i => i | None => IdUndefined end.
Definition chatId_of (ctx : Context) : JsId :=
  match chat ctx with Some c => chat_id c | None => IdUndefined end.
Definition chatType_of (ctx : Context) : option jsstring :=
  chat_type <$> chat ctx.

Definition getSessionId (cfg : Config) (repos : Repos.State) (ctx : Context)
  : jsstring :=
  let userId := from_id ctx in
  let chatId := chatId_of ctx in
  let repoPath := Repos.getRepoForChat repos chatId (workingDirectory cfg) in
  let repoHash := Repos.hashRepoPath repoPath in
  if decide (chatType_of ctx = Some (lit "private"))
  then sessionPrefix cfg ++ lit "-" ++ js_String userId ++ lit "-" ++ repoHash
  else sessionPrefix cfg ++ lit "-group-" ++ js_String chatId
         ++ lit "-" ++ repoHash.

(* ===================================================================== *)
(** ** String.prototype.replace with a global regular expression          *)
(* ===================================================================== *)

Module Regex.

(** The regular expressions of claude.js are sequences of these atoms:
    a character class once, a character class repeated greedily at
    least [min] times ([c*] is [Many c 0], [c{3,}] is [Many c 3]), and
    the assertions [^] and [$] under the [m] flag. *)
Inductive atom : Type :=
  | One (c : N -> bool)
  | Many (c : N -> bool) (min : nat)
  | Bol
  | Eol.

Definition regex := list atom.

Definition isLineTerminator (c : N) : bool :=
  (c =? 0x0A) || (c =? 0x0D) || (c =? 0x2028) || (c =? 0x2029).

(** [.] without the [s] flag. *)
Definition dot (c : N) : bool := negb (isLineTerminator c).

Definition code (x : N) (c : N) : bool := c =? x.
Definition between (lo hi : N) (c : N) : bool := (lo <=? c) && (c <=? hi).

Definition atLineStart (prev : option N) : bool :=
  match prev with None => true | Some p => isLineTerminator p end.

Definition atLineEnd (s : jsstring) : bool :=
  match s with [] => true | x :: _ => isLineTerminator x end.

(** The greedy loop of [c{min,}]: [n] code units of the class have
    been taken; one more is taken when that lets the rest of the
    expression ([next]) match, otherwise the loop stops here provided
    [min] are there. *)
Fixpoint many (c : N -> bool) (min : nat)
    (next : option N -> jsstring -> option nat)
    (n : nat) (prev : option N) (s : jsstring) : option nat :=
  let stop := if (min <=? n)%nat then next prev s else None in
  match s with
  | x :: s' =>
      if c x then
        match many c min next (S n) (Some x) s' with
        | Some k => Some (S k)
        | None => stop
        end
      else stop
  | [] => stop
  end.

(** Backtracking match of [re] at the head of [s], where [prev] is the
    code unit just before; the number of code units consumed. *)
Fixpoint matchHere (re : regex) : option N -> jsstring -> option nat :=
  match re with
  | [] => fun _ _ => Some O
  | One c :: re' => fun _ s =>
      match s with
      | x :: s' => if c x then S <$> matchHere re' (Some x) s' else None
      | [] => None
      end
  | Bol :: re' => fun prev s =>
      if atLineStart prev then matchHere re' prev s else None
  | Eol :: re' => fun prev s =>
      if atLineEnd s then matchHere re' prev s else None
  | Many c min :: re' => many c min (matchHere re') O
  end.

(** The code unit before the position reached after [l]. *)
Definition after (prev : option N) (l : jsstring) : option N :=
  fold_left (fun _ x => Some x) l prev.

(** [s.replace(/re/g, by)], scanning from the left; [skip] code units
    of the current match are still to be dropped.  An empty match
    inserts [by] and moves on by one code unit. *)
Fixpoint replaceFrom (re : regex) (by_ : jsstring) (skip : nat)
    (prev : option N) (s : jsstring) : jsstring :=
  match s with
  | [] =>
      match skip, matchHere re prev [] with
      | O, Some _ => by_
      | _, _ => []
      end
  | x :: s' =>
      match skip with
      | S k => replaceFrom re by_ k (Some x) s'
      | O =>
          match matchHere re prev s with
          | Some (S k) => by_ ++ replaceFrom re by_ k (Some x) s'
          | Some O => by_ ++ x :: replaceFrom re by_ O (Some x) s'
          | None => x :: replaceFrom re by_ O (Some x) s'
          end
      end
  end.

Definition replaceAll (re : regex) (by_ : jsstring) (s : jsstring)
  : jsstring :=
  replaceFrom re by_ O None s.

End Regex.

(** White space and line terminators, as [String.prototype.trim] strips
    them. *)
Definition isWhiteSpace (c : N) : bool :=
  (c =? 0x09) || (c =? 0x0A) || (c =? 0x0B) || (c =? 0x0C) || (c =? 0x0D)
  || (c =? 0x20) || (c =? 0xA0) || (c =? 0x1680)
  || ((0x2000 <=? c) && (c <=? 0x200A))
  || (c =? 0x2028) || (c =? 0x2029) || (c =? 0x202F) || (c =? 0x205F)
  || (c =? 0x3000) || (c =? 0xFEFF).

Fixpoint trimStart (s : jsstring) : jsstring :=
  match s with
  | [] => []
  | c :: r => if isWhiteSpace c then trimStart r else s
  end.

Definition trimEnd (s : jsstring) : jsstring := rev (trimStart (rev s)).

Definition trim (s : jsstring) : jsstring := trimEnd (trimStart s).

(* ===================================================================== *)
(** ** claude.js                                                          *)
(* ===================================================================== *)

(** The revision modelled is the one that runs [claude -c -p "..."]
    through a shell, falls back to the standard output in its failure
    message and kills with SIGKILL.  The cleaning function, the timer
    and the error listener are the same in all revisions; the revision
    that passes [--session-id] builds the same environment for the
    child. *)
Module Claude.
Import Regex.

Definition ESC : N := 0x1B.
Definition CR : N := 0x0D.
Definition LF : N := 0x0A.

(** [[0-9;]] and [[a-zA-Z]]. *)
Definition isParam (c : N) : bool := between 0x30 0x39 c || code 0x3B c.
Definition isFinal (c : N) : bool :=
  between 0x61 0x7A c || between 0x41 0x5A c.

(** [/\x1B\[[0-9;]*[a-zA-Z]/g] *)
Definition ansiRe : regex :=
  [One (code ESC); One (code 0x5B); Many isParam 0; One isFinal].

(** [/\r/g] *)
Definition crRe : regex := [One (code CR)].

(** The ten Braille glyphs of the character class in the third
    replacement. *)
Definition spinnerGlyphs : list N :=
  [0x280B; 0x2819; 0x2839; 0x2838; 0x283C;
   0x2834; 0x2826; 0x2827; 0x2807; 0x280F].

Definition isSpinner (c : N) : bool := existsb (N.eqb c) spinnerGlyphs.

(** [/^[...].*$/gm] *)
Definition spinnerRe : regex := [Bol; One isSpinner; Many dot 0; Eol].

(** [/\n{3,}/g] *)
Definition blankRe : regex := [Many (code LF) 3].

Definition stripAnsi (s : jsstring) : jsstring := replaceAll ansiRe [] s.
Definition dropCR (s : jsstring) : jsstring := replaceAll crRe [] s.
Definition stripSpinner (s : jsstring) : jsstring :=
  replaceAll spinnerRe [] s.
Definition collapseBlank (s : jsstring) : jsstring :=
  replaceAll blankRe [LF; LF] s.

Definition cleanClaudeResponse (response : jsstring) : jsstring :=
  trim (collapseBlank (stripSpinner (dropCR (stripAnsi response)))).

(** The escaping of the query for the double-quoted shell argument. *)
Definition escapeQuery (query : jsstring) : jsstring :=
  replaceAll [One (code 0x60)] [0x5C; 0x60]
    (replaceAll [One (code 0x24)] [0x5C; 0x24]
       (replaceAll [One (code 0x22)] [0x5C; 0x22]
          (replaceAll [One (code 0x5C)] [0x5C; 0x5C] query))).

(** What [spawn] is called with. *)
Record Spawn := {
  cmd : jsstring;
  cwd : jsstring;
  env : environ;
  shell : bool;
}.

(** The environment built for the child. *)
Definition spawnEnv (cfg : Config) (processEnv : environ) : environ :=
  match anthropicApiKey cfg with
  | Some key =>
      if truthy key then <[lit "ANTHROPIC_API_KEY" := key]> processEnv
      else processEnv
  | None => processEnv
  end.

Definition command (cfg : Config) (query : jsstring) : jsstring :=
  let cmd0 :=
    lit "claude -c -p " ++ [0x22] ++ escapeQuery query ++ [0x22]
      ++ lit " --dangerously-skip-permissions" in
  if truthy (claudeModel cfg)
  then cmd0 ++ lit " --model " ++ claudeModel cfg
  else cmd0.

Inductive Settled : Type :=
  | Pending
  | Resolved (value : jsstring)
  | Rejected (message : jsstring).

(** [resolve] and [reject] only act on a pending promise. *)
Definition settle (p new : Settled) : Settled :=
  match p with Pending => new | _ => p end.

(** One call of [executeClaudeCode]: the spawn request, the two
    accumulators, the promise, the pending timer (its delay in
    milliseconds, [None] once it has fired or been cleared) and the
    signals sent with [claude.kill]. *)
Record Run := {
  spawned : Spawn;
  stdout : jsstring;
  stderr : jsstring;
  promise : Settled;
  timeout : option N;
  kills : list jsstring;
}.

Definition timeoutMs : N := 5 * 60 * 1000.

(** The synchronous body of the promise executor. *)
Definition executeClaudeCode (cfg : Config) (processEnv : environ)
    (sessionId query : jsstring) (workingDirectoryOption : option jsstring)
  : Run := {|
  spawned := {|
    cmd := command cfg query;
    cwd := opt_or workingDirectoryOption (workingDirectory cfg);
    env := spawnEnv cfg processEnv;
    shell := true |};
  stdout := [];
  stderr := [];
  promise := Pending;
  timeout := Some timeoutMs;
  kills := [];
|}.

(** What the child process emits. [Close None] is a child ended by a
    signal ([code] is [null]). *)
Inductive ChildEvent : Type :=
  | StdoutData (chunk : jsstring)
  | StderrData (chunk : jsstring)
  | Close (code : option Z)
  | Error (message : jsstring).

Definition withPromise (r : Run) (p : Settled) : Run :=
  {| spawned := spawned r; stdout := stdout r; stderr := stderr r;
     promise := p; timeout := timeout r; kills := kills r |}.

(** The listeners registered on the child. *)
Definition dispatch (r : Run) (e : ChildEvent) : Run :=
  match e with
  | StdoutData chunk =>
      {| spawned := spawned r; stdout := stdout r ++ chunk;
         stderr := stderr r; promise := promise r;
         timeout := timeout r; kills := kills r |}
  | StderrData chunk =>
      {| spawned := spawned r; stdout := stdout r;
         stderr := stderr r ++ chunk; promise := promise r;
         timeout := timeout r; kills := kills r |}
  | Close code =>
      let p :=
        if decide (code = Some 0%Z)
        then settle (promise r) (Resolved (cleanClaudeResponse (stdout r)))
        else settle (promise r)
               (Rejected
                  (lit "Claude Code failed: "
                     ++ js_or (stderr r)
                          (js_or (stdout r) (lit "Unknown error")))) in
      {| spawned := spawned r; stdout := stdout r; stderr := stderr r;
         promise := p; timeout := None; kills := kills r |}
  | Error message =>
      withPromise r
        (settle (promise r)
           (Rejected (lit "Failed to start Claude Code: " ++ message)))
  end.

(** The callback of [setTimeout]. *)
Definition onTimeout (r : Run) : Run :=
  {| spawned := spawned r; stdout := stdout r; stderr := stderr r;
     promise :=
       settle (promise r)
         (Rejected (lit "Claude Code timed out after 5 minutes"));
     timeout := None;
     kills := kills r ++ [lit "SIGKILL"] |}.

(** The timer fires once its delay has elapsed, unless cleared. *)
Definition expire (t : N) (r : Run) : Run :=
  match timeout r with
  | Some delay => if delay <=? t then onTimeout r else r
  | None => r
  end.

(** The state of the call [horizon] milliseconds after it started,
    given the child's events in delivery order with the time of each.
    An event is delivered before the timer when it comes strictly
    before the deadline. *)
Fixpoint runUntil (horizon : N) (sched : list (N * ChildEvent)) (r : Run)
  : Run :=
  match sched with
  | [] => expire horizon r
  | (t, e) :: rest =>
      if horizon <? t then expire horizon r
      else runUntil horizon rest (dispatch (expire t r) e)
  end.

(** The rejections by the message they carry. *)
Definition ExternalProcessError (diagnostic : jsstring) : Settled :=
  Rejected (lit "Claude Code failed: " ++ diagnostic).
Definition SpawnError (reason : jsstring) : Settled :=
  Rejected (lit "Failed to start Claude Code: " ++ reason).
Definition TimeoutError : Settled :=
  Rejected (lit "Claude Code timed out after 5 minutes").

End Claude.

(* ===================================================================== *)
(** ** index.js: the message handlers and the in-flight lock              *)
(* ===================================================================== *)

Module Bot.

Definition isUserAllowed (cfg : Config) (userId : JsId) : bool :=
  match allowedUsers cfg with
  | [] => true
  | l =>
      match userId with
      | IdNum z => bool_decide (Some z ∈ l)
      | _ => false
      end
  end.

(** [const lockKey = `${chatId}`]. *)
Definition lockKey (chatId : JsId) : jsstring := js_String chatId.

(** The gate at the head of both message handlers:
    [if (processingUsers.has(lockKey)) { reply busy; return; }
     processingUsers.add(lockKey);]
    with no [await] on the path that adds.  [true] when the handler
    goes on to invoke the CLI. *)
Definition tryAcquire (chatId : JsId) (processingUsers : gset jsstring)
  : bool * gset jsstring :=
  if decide (lockKey chatId ∈ processingUsers)
  then (false, processingUsers)
  else (true, {[lockKey chatId]} ∪ processingUsers).

(** [processingUsers.delete(lockKey)] of the [finally] block. *)
Definition release (chatId : JsId) (processingUsers : gset jsstring)
  : gset jsstring :=
  processingUsers ∖ {[lockKey chatId]}.

(** How the text handler leaves its synchronous head. *)
Inductive Entry : Type :=
  | Ignored                   (* a command: text starts with "/" *)
  | Refused                   (* user not allowed *)
  | Busy                      (* lock held: reply and return *)
  | Started (sessionId workingDir : jsstring).

Definition startsWithSlash (text : jsstring) : bool :=
  match text with c :: _ => c =? 0x2F | [] => false end.

Definition onText_enter (cfg : Config) (repos : Repos.State)
    (ctx : Context) (text : jsstring) (processingUsers : gset jsstring)
  : Entry * gset jsstring :=
  if startsWithSlash text then (Ignored, processingUsers)
  else if negb (isUserAllowed cfg (from_id ctx))
  then (Refused, processingUsers)
  else
    let '(ok, locked) := tryAcquire (chatId_of ctx) processingUsers in
    if ok
    then (Started (getSessionId cfg repos ctx)
            (Repos.getRepoForChat repos (chatId_of ctx)
               (workingDirectory cfg)),
          locked)
    else (Busy, processingUsers).

(** What the handler does once the awaited call has settled. *)
Inductive Effect : Type :=
  | SendResponse (text : jsstring)
  | Reply (text : jsstring)
  | StopTyping
  | Delete (key : jsstring).

Definition errorReply (message : jsstring) : jsstring :=
  [0x274C] ++ lit " Fehler: " ++ message.

(** The [catch] block; [replyFailure] is the error of [ctx.reply] when
    it throws. *)
Definition catchBlock (message : jsstring) (replyFailure : option jsstring)
  : list Effect * Completion unit :=
  ([Reply (errorReply message)],
   match replyFailure with
   | None => Return tt
   | Some e => Throw e
   end).

(** The [try] block from the point where [await executeClaudeCode]
    resumes; [sendFailure] is the error of [sendResponse] when it
    throws. *)
Definition tryBlock (awaited : Completion jsstring)
    (sendFailure replyFailure : option jsstring)
  : list Effect * Completion unit :=
  match awaited with
  | Return response =>
      match sendFailure with
      | None => ([SendResponse response], Return tt)
      | Some e =>
          let '(effects, c) := catchBlock e replyFailure in
          (SendResponse response :: effects, c)
      end
  | Throw message => catchBlock message replyFailure
  end.

(** [try]/[catch] followed by the [finally] block. *)
Definition onText_settle (chatId : JsId) (awaited : Completion jsstring)
    (sendFailure replyFailure : option jsstring)
    (processingUsers : gset jsstring)
  : list Effect * Completion unit * gset jsstring :=
  let '(effects, c) := tryBlock awaited sendFailure replyFailure in
  (effects ++ [StopTyping; Delete (lockKey chatId)], c,
   release chatId processingUsers).

(** What [await] hands back for a settled promise. *)
Definition awaited (p : Claude.Settled) : option (Completion jsstring) :=
  match p with
  | Claude.Pending => None
  | Claude.Resolved v => Some (Return v)
  | Claude.Rejected m => Some (Throw m)
  end.

(** The event loop as far as the lock is concerned: the lock set and
    the handlers suspended at [await executeClaudeCode], by lock key. *)
Record Loop := {
  processingUsers : gset jsstring;
  suspended : list jsstring;
}.

Definition idle : Loop := {| processingUsers := ∅; suspended := [] |}.

Inductive Tick : Type :=
  | Message (chatId : JsId)   (* a message reaches the gate *)
  | Settle (chatId : JsId).   (* a suspended handler finishes *)

Fixpoint removeOne (k : jsstring) (l : list jsstring) : list jsstring :=
  match l with
  | [] => []
  | x :: r => if decide (x = k) then r else x :: removeOne k r
  end.

Definition tick (l : Loop) (t : Tick) : Loop :=
  match t with
  | Message c =>
      let '(ok, locked) := tryAcquire c (processingUsers l) in
      if ok
      then {| processingUsers := locked;
              suspended := lockKey c :: suspended l |}
      else l
  | Settle c =>
      if decide (lockKey c ∈ suspended l)
      then {| processingUsers := release c (processingUsers l);
              suspended := removeOne (lockKey c) (suspended l) |}
      else l
  end.

Definition running (l : Loop) (c : JsId) : nat :=
  length (filter (λ k, k = lockKey c) (suspended l)).

(** The lock set and the suspended handlers agree, and no lock key has
    two suspended handlers. *)
Definition consistent (l : Loop) : Prop :=
  NoDup (suspended l)
  /\ forall k, k ∈ suspended l <-> k ∈ processingUsers l.

End Bot.

(** The first revision of claude.js differs from the one above in
    two respects: it sets ANTHROPIC_API_KEY from [config] whether
    or not it is defined ([spawn] leaves out a variable whose value is
    [undefined]), and on failure it reports the standard error only. *)
Module Legacy.

Definition spawnEnv (cfg : Config) (processEnv : environ) : environ :=
  match anthropicApiKey cfg with
  | Some key => <[lit "ANTHROPIC_API_KEY" := key]> processEnv
  | None => delete (lit "ANTHROPIC_API_KEY") processEnv
  end.

Definition failure (stderr : jsstring) : Claude.Settled :=
  Claude.Rejected
    (lit "Claude Code failed: " ++ js_or stderr (lit "Unknown error")).

End Legacy.

(* ===================================================================== *)
(** ** Vocabulary of the statements                                       *)
(* ===================================================================== *)

(** The workspace a chat resolves to, as [getSessionId] computes it. *)
Definition resolved (cfg : Config) (repos : Repos.State) (ctx : Context)
  : jsstring :=
  Repos.getRepoForChat repos (chatId_of ctx) (workingDirectory cfg).

(** Everything of the session id that precedes the fingerprint. *)
Definition keyHead (cfg : Config) (ctx : Context) : jsstring :=
  if decide (chatType_of ctx = Some (lit "private"))
  then sessionPrefix cfg ++ lit "-" ++ js_String (from_id ctx) ++ lit "-"
  else sessionPrefix cfg ++ lit "-group-" ++ js_String (chatId_of ctx)
         ++ lit "-".

(** The error [setRepoForChat] throws, by its message. *)
Definition InvalidPathError (repoPath reason : jsstring) : Completion bool :=
  Throw (lit "Invalid path: " ++ repoPath ++ lit " - " ++ reason).

(** Sample data. *)
Definition defaultConfig : Config := config ∅ (lit "/repo") [].

Definition noon : Outside :=
  {| now := lit "2026-01-01T12:00:00.000Z"; writable := true |}.

Definition anyDirectory : Repos.FileSystem := fun _ => inr true.
Definition onlyFiles : Repos.FileSystem := fun _ => inr false.

Definition noRepos : Repos.State :=
  {| Repos.repoMappings := ∅; Repos.reposFile := None |}.

Definition reposWith (c : JsId) (p : jsstring) : Repos.State :=
  {| Repos.repoMappings :=
       {[ js_String c := {| Repos.path := p; Repos.setAt := [] |} ]};
     Repos.reposFile := None |}.

Definition chat42 : Context :=
  {| from := Some (IdNum 42);
     chat := Some {| chat_id := IdNum 42; chat_type := lit "private" |} |}.

Definition group7 : Chat :=
  {| chat_id := IdNum (-1001234567890); chat_type := lit "supergroup" |}.

(** Two distinct directories whose MD5 digests share their first eight
    hexadecimal digits. *)
Definition collidingA : jsstring := lit "/srv/repos/app84256".
Definition collidingB : jsstring := lit "/srv/repos/app84378".

(** A random source that never repeats, and an empty session store. *)
Definition countingUUID (n : nat) : jsstring :=
  js_String (IdNum (Z.of_nat n)).

Definition noSessions : Sessions.State :=
  {| Sessions.sessionMappings := ∅; Sessions.sessionsFile := None;
     Sessions.draws := O |}.

(** The output events among the child's events, and what the two
    accumulators hold after them. *)
Definition isData (e : Claude.ChildEvent) : bool :=
  match e with
  | Claude.StdoutData _ | Claude.StderrData _ => true
  | _ => false
  end.

Fixpoint stdoutOf (es : list Claude.ChildEvent) : jsstring :=
  match es with
  | [] => []
  | Claude.StdoutData chunk :: r => chunk ++ stdoutOf r
  | _ :: r => stdoutOf r
  end.

Fixpoint stderrOf (es : list Claude.ChildEvent) : jsstring :=
  match es with
  | [] => []
  | Claude.StderrData chunk :: r => chunk ++ stderrOf r
  | _ :: r => stderrOf r
  end.

(** How many times a handler run removes [key] from the lock set. *)
Definition isDelete (key : jsstring) (e : Bot.Effect) : bool :=
  match e with
  | Bot.Delete k => bool_decide (k = key)
  | _ => false
  end.

Definition deletions (key : jsstring) (effects : list Bot.Effect) : nat :=
  length (List.filter (isDelete key) effects).

(** The number of line feeds a string starts with. *)
Fixpoint lfRun (s : jsstring) : nat :=
  match s with
  | c :: r => if c =? Claude.LF then S (lfRun r) else O
  | [] => O
  end.



(** No stretch of the string has three line feeds in a row: every
    suffix starts with at most two. *)
Definition lfBounded (s : jsstring) : Prop :=
  forall a b, s = a ++ b -> (lfRun b <= 2)%nat.

(** What a run of [n] line feeds becomes. *)
Definition collapsedRun (n : nat) : jsstring :=
  if (3 <=? n)%nat then [Claude.LF; Claude.LF] else repeat Claude.LF n.

(* ===================================================================== *)
(** ** index.js: outgoing messages                                        *)
(* ===================================================================== *)

Module Messages.

(** [s.lastIndexOf(c, from)] for a search string of one code unit: the
    last position not after [from] that holds [c], or -1.  The scan
    keeps the position [pos] of the head of [s]. *)
Fixpoint lastIndexScan (c : N) (s : jsstring) (pos from found : Z) : Z :=
  match s with
  | [] => found
  | x :: r =>
      if (from <? pos)%Z then found
      else lastIndexScan c r (pos + 1) from (if x =? c then pos else found)
  end.

Definition lastIndexOf (c : N) (s : jsstring) (from : Z) : Z :=
  lastIndexScan c s 0 from (-1).

(** [splitIndex === -1 || splitIndex < maxLength / 2]. *)
Definition unusable (splitIndex : Z) (maxLength : nat) : bool :=
  (splitIndex =? -1)%Z || (2 * splitIndex <? Z.of_nat maxLength)%Z.

(** Where one round of the loop cuts: at the last line feed of the
    window, else at its last space, else at [maxLength]. *)
Definition splitIndex (remaining : jsstring) (maxLength : nat) : Z :=
  let atNewline := lastIndexOf 0x0A remaining (Z.of_nat maxLength) in
  let atSpace :=
    if unusable atNewline maxLength
    then lastIndexOf 0x20 remaining (Z.of_nat maxLength)
    else atNewline in
  if unusable atSpace maxLength then Z.of_nat maxLength else atSpace.

(** The [while] loop of [splitMessage]; [None] when [fuel] rounds do not
    finish it.  The parts are those pushed from here on. *)
Fixpoint splitLoop (fuel maxLength : nat) (remaining : jsstring)
  : option (list jsstring) :=
  match fuel with
  | O => None
  | S fuel' =>
      match remaining with
      | [] => Some []
      | _ :: _ =>
          if (length remaining <=? maxLength)%nat then Some [remaining]
          else
            let i := Z.to_nat (splitIndex remaining maxLength) in
            cons (take i remaining)
              <$> splitLoop fuel' maxLength (trim (drop i remaining))
      end
  end.

Definition splitMessage (fuel : nat) (text : jsstring) (maxLength : nat)
  : option (list jsstring) :=
  if (length text <=? maxLength)%nat then Some [text]
  else splitLoop fuel maxLength text.

(** One call of [ctx.reply]: the text, whether it asks for Markdown,
    and the error it throws, if any. *)
Record Attempt := {
  sent : jsstring;
  markdown : bool;
  failure : option jsstring;
}.

(** Telegram as [ctx.reply] sees it: the outcome of the [n]-th call. *)
Definition Telegram := nat -> jsstring -> bool -> option jsstring.

(** The [for] loop of [sendResponse], [n] calls of [ctx.reply] having
    been made before. *)
Fixpoint sendParts (reply : Telegram) (n : nat) (parts : list jsstring)
  : list Attempt * Completion unit :=
  match parts with
  | [] => ([], Return tt)
  | part :: rest =>
      match reply n part true with
      | None =>
          let '(log, c) := sendParts reply (S n) rest in
          ({| sent := part; markdown := true; failure := None |} :: log, c)
      | Some e =>
          let first := {| sent := part; markdown := true; failure := Some e |} in
          match reply (S n) part false with
          | None =>
              let '(log, c) := sendParts reply (S (S n)) rest in
              (first :: {| sent := part; markdown := false; failure := None |}
                 :: log, c)
          | Some e' =>
              ([first;
                {| sent := part; markdown := false; failure := Some e' |}],
               Throw e')
          end
      end
  end.

(** [sendResponse]: [splitMessage] with its default limit, then the
    loop; [None] when [fuel] rounds do not finish the splitting. *)
Definition sendResponse (fuel : nat) (reply : Telegram) (text : jsstring)
  : option (list Attempt * Completion unit) :=
  sendParts reply O <$> splitMessage fuel text 4000.

(** The messages that reached the chat. *)
Definition delivered (log : list Attempt) : list jsstring :=
  sent <$> List.filter (fun a => bool_decide (failure a = None)) log.

End Messages.

(* ===================================================================== *)
(** ** index.js: the commands that change a store                         *)
(* ===================================================================== *)

Module Commands.

(** [s.split(sep)] for a separator of one code unit. *)
Fixpoint split (sep : N) (s : jsstring) : list jsstring :=
  match s with
  | [] => [[]]
  | c :: r =>
      if c =? sep then [] :: split sep r
      else
        match split sep r with
        | w :: ws => (c :: w) :: ws
        | [] => [[c]]
        end
  end.

(** [parts.join(sep)]. *)
Fixpoint join (sep : N) (parts : list jsstring) : jsstring :=
  match parts with
  | [] => []
  | [w] => w
  | w :: ws => w ++ sep :: join sep ws
  end.

(** [text.split(' ').slice(1).join(' ').trim()]. *)
Definition commandArgs (text : jsstring) : jsstring :=
  trim (join 0x20 (drop 1 (split 0x20 text))).

Inductive SetrepoOutcome : Type :=
  | SetrepoRefused                    (* user not allowed *)
  | SetrepoUsage                      (* no argument: the usage text *)
  | SetrepoDone (repoPath : jsstring)
  | SetrepoFailed (message : jsstring).

(** [await ctx.reply(...)] for the reply named; [Some e] when it throws
    an error with message [e]. *)
Definition SetrepoChannel := SetrepoOutcome -> option jsstring.

(** A reply outside any [try]: the handler's promise rejects when it
    throws. *)
Definition sendSetrepo (reply : SetrepoChannel) (r : SetrepoOutcome)
  : list SetrepoOutcome * Completion unit :=
  ([r], match reply r with Some e => Throw e | None => Return tt end).

(** The /setrepo handler: the replies it attempts, in order, how the
    handler completes, and the workspace store it leaves.  The success
    reply is inside the [try] block, so when it throws the [catch]
    block sends the failure text with that error's message, after
    [setRepoForChat] has already changed the store. *)
Definition onSetrepo (cfg : Config) (fs : Repos.FileSystem) (o : Outside)
    (reply : SetrepoChannel) (ctx : Context) (text : jsstring)
    (repos : Repos.State)
  : list SetrepoOutcome * Completion unit * Repos.State :=
  if negb (Bot.isUserAllowed cfg (from_id ctx))
  then (sendSetrepo reply SetrepoRefused, repos)
  else
    let args := commandArgs text in
    if negb (truthy args) then (sendSetrepo reply SetrepoUsage, repos)
    else
      match Repos.setRepoForChat fs o (chatId_of ctx) args repos with
      | (Return _, repos') =>
          match reply (SetrepoDone args) with
          | None => ([SetrepoDone args], Return tt, repos')
          | Some e =>
              let '(sent, c) := sendSetrepo reply (SetrepoFailed e) in
              (SetrepoDone args :: sent, c, repos')
          end
      | (Throw message, repos') =>
          (sendSetrepo reply (SetrepoFailed message), repos')
      end.

(** The /clearrepo handler; [None] when it returns without a reply. *)
Definition onClearrepo (cfg : Config) (o : Outside) (ctx : Context)
    (repos : Repos.State) : option jsstring * Repos.State :=
  if negb (Bot.isUserAllowed cfg (from_id ctx)) then (None, repos)
  else (Some (workingDirectory cfg),
        Repos.removeRepoForChat o (chatId_of ctx) repos).

(** The /reset handler: the session name and the new handle it reports
    ([newUUID.substring(0, 8)] is what the reply shows). *)
Definition onReset (randomUUID : nat -> jsstring) (cfg : Config)
    (o : Outside) (ctx : Context) (repos : Repos.State)
    (sessions : Sessions.State)
  : option (jsstring * jsstring) * Sessions.State :=
  if negb (Bot.isUserAllowed cfg (from_id ctx)) then (None, sessions)
  else
    let sessionName := getSessionId cfg repos ctx in
    let '(newUUID, sessions') :=
      Sessions.resetSession randomUUID o sessionName sessions in
    (Some (sessionName, substring0 8 newUUID), sessions').

End Commands.

(** [createSessionId] of claude.js. *)
Definition createSessionId (cfg : Config) (userId : JsId) : jsstring :=
  sessionPrefix cfg ++ lit "-" ++ js_String userId.

(* ===================================================================== *)
(** ** whisper.js                                                         *)
(* ===================================================================== *)

Module Whisper.

(** What the pipeline gets from outside: the temporary path
    [downloadVoiceFile] returns or the error it throws, the text
    [transcribeAudio] returns or its error, and the content of the first
    choice of the chat completion ([None] when the optional chain gives
    [undefined]) or the error of the request.  Whether [unlinkSync]
    goes through is not part of it: its error is caught and dropped. *)
Record Outside := {
  download : Completion jsstring;
  transcription : Completion jsstring;
  completion : Completion (option jsstring);
}.

Inductive Effect : Type :=
  | Transcribe (audioPath : jsstring)
  | ChatCompletion (transcript : jsstring)
  | Unlink (tempPath : jsstring).

Definition refineTranscript (refineTranscripts : bool) (w : Outside)
    (transcript : jsstring) : list Effect * Completion jsstring :=
  if negb refineTranscripts then ([], Return transcript)
  else
    ([ChatCompletion transcript],
     match completion w with
     | Return content => Return (opt_or content transcript)
     | Throw e => Throw e
     end).

(** The [try] block of [processVoiceMessage] once the download has
    returned [tempPath]. *)
Definition transcribeAndRefine (refineTranscripts : bool) (w : Outside)
    (tempPath : jsstring)
  : list Effect * Completion (jsstring * jsstring) :=
  match transcription w with
  | Throw e => ([Transcribe tempPath], Throw e)
  | Return rawTranscript =>
      let '(effects, refined) :=
        refineTranscript refineTranscripts w rawTranscript in
      (Transcribe tempPath :: effects,
       match refined with
       | Return refinedTranscript => Return (rawTranscript, refinedTranscript)
       | Throw e => Throw e
       end)
  end.

(** [processVoiceMessage]: the pair (raw, refined) or the error, after
    the [finally] block, whose own failure is swallowed. *)
Definition processVoiceMessage (refineTranscripts : bool) (w : Outside)
  : list Effect * Completion (jsstring * jsstring) :=
  match download w with
  | Throw e => ([], Throw e)
  | Return tempPath =>
      let '(effects, result) :=
        transcribeAndRefine refineTranscripts w tempPath in
      (effects ++ (if truthy tempPath then [Unlink tempPath] else []),
       result)
  end.

End Whisper.

(** The code units of a string that are not white space, in order. *)
Definition inked (s : jsstring) : jsstring :=
  List.filter (fun c => negb (isWhiteSpace c)) s.

(** How a POSIX shell reads the inside of a double-quoted word: a
    backslash before a backslash, a double quote, a dollar sign or a
    backquote gives that character; a backslash before a line feed is a
    line continuation; any other backslash stands for itself.  [None]
    when the text does not stay one literal word: a bare double quote
    closes the quotes, a bare dollar sign or backquote starts an
    expansion, a backslash at the end escapes the closing quote. *)
Definition isShellSpecial (c : N) : bool :=
  (c =? 0x5C) || (c =? 0x22) || (c =? 0x24) || (c =? 0x60).

Fixpoint dequote (s : jsstring) : option jsstring :=
  match s with
  | [] => Some []
  | c :: r =>
      if c =? 0x5C then
        match r with
        | [] => None
        | d :: r' =>
            if isShellSpecial d then cons d <$> dequote r'
            else if d =? 0x0A then dequote r'
            else (fun t => c :: d :: t) <$> dequote r'
        end
      else if isShellSpecial c then None
      else cons c <$> dequote r
  end.

(** One character of the query as [escapeQuery] writes it. *)
Definition escapeUnit (c : N) : jsstring :=
  if isShellSpecial c then [0x5C; c] else [c].

(** No two session names of the store share a handle. *)
Definition distinctHandles (st : Sessions.State) : Prop :=
  forall k1 k2 i1 i2,
    Sessions.sessionMappings st !! k1 = Some i1 ->
    Sessions.sessionMappings st !! k2 = Some i2 ->
    Sessions.uuid i1 = Sessions.uuid i2 -> k1 = k2.

(** The file holds what the memory holds. *)
Definition reposSynced (st : Repos.State) : Prop :=
  Repos.reposFile st = Some (Repos.repoMappings st).

(** A context with an integer sender and an integer chat. *)
Definition telegramContext (user chatId : Z) (type : jsstring) : Context :=
  {| from := Some (IdNum user);
     chat := Some {| chat_id := IdNum chatId; chat_type := type |} |}.


(** Whether a [close] event is delivered before the timer of the call
    fires: events are delivered in order until the first one that comes
    at or after the deadline. *)
Fixpoint closedBefore (deadline : N) (sched : list (N * Claude.ChildEvent))
  : bool :=
  match sched with
  | [] => false
  | (t, e) :: rest =>
      if t <? deadline then
        match e with
        | Claude.Close _ => true
        | _ => closedBefore deadline rest
        end
      else false
  end.

(* ===================================================================== *)
(** ** config.js: the list of allowed users                               *)
(* ===================================================================== *)

(** The value of a code unit as a digit in the given radix. *)
Definition digitValue (radix : Z) (c : N) : option Z :=
  let v :=
    if Regex.between 0x30 0x39 c then Some (Z.of_N c - 0x30)%Z
    else if Regex.between 0x61 0x7A c then Some (Z.of_N c - 0x61 + 10)%Z
    else if Regex.between 0x41 0x5A c then Some (Z.of_N c - 0x41 + 10)%Z
    else None in
  match v with
  | Some d => if (d <? radix)%Z then Some d else None
  | None => None
  end.

(** The value of the longest prefix of digits, [None] when the first
    code unit is not a digit. *)
Fixpoint digits (radix : Z) (s : jsstring) (acc : option Z) : option Z :=
  match s with
  | c :: r =>
      match digitValue radix c with
      | Some d =>
          digits radix r
            (Some (radix * match acc with Some a => a | None => 0 end + d)%Z)
      | None => acc
      end
  | [] => acc
  end.

Definition hexPrefixed (s : jsstring) : bool :=
  match s with
  | z :: x :: _ => (z =? 0x30) && ((x =? 0x78) || (x =? 0x58))
  | _ => false
  end.

(** A Number as [parseInt] returns one: NaN, an infinity, or an
    integer (the two zeros are not told apart: [includes] compares with
    SameValueZero). *)
Inductive JsNumber : Type :=
  | NaN
  | Infinite (negative : bool)
  | Finite (z : Z).

(** The Number nearest to a natural number, ties to the even
    significand; [None] is Infinity.  Below 2^53 every integer is a
    Number; above, a Number has 53 significant bits. *)
Definition toDouble (n : N) : option N :=
  if n <? 2 ^ 53 then Some n
  else
    let e := N.log2 n - 52 in
    let q := N.shiftr n e in
    let r := n - N.shiftl q e in
    let half := 2 ^ (e - 1) in
    let q' := if (half <? r) || ((r =? half) && N.odd q) then q + 1 else q in
    let v := N.shiftl q' e in
    if 2 ^ 1024 <=? v then None else Some v.

(** [parseInt(s)] without a radix: leading white space is skipped, then
    a sign, then the prefix 0x or 0X chooses radix 16, and the longest
    prefix of digits is read and rounded to a Number. *)
Definition parseInt (s : jsstring) : JsNumber :=
  let s1 := trimStart s in
  let negative := match s1 with c :: _ => c =? 0x2D | [] => false end in
  let s2 :=
    match s1 with
    | c :: r => if (c =? 0x2D) || (c =? 0x2B) then r else s1
    | [] => []
    end in
  let magnitude :=
    if hexPrefixed s2 then digits 16 (drop 2 s2) None
    else digits 10 s2 None in
  match magnitude with
  | None => NaN
  | Some v =>
      match toDouble (Z.to_N v) with
      | None => Infinite negative
      | Some n => Finite (if negative then - Z.of_N n else Z.of_N n)
      end
  end.

(** An entry of [config.allowedUsers] as [includes] sees it: no id
    equals NaN or an infinity. *)
Definition allowedEntry (x : JsNumber) : option Z :=
  match x with Finite z => Some z | _ => None end.

(** [process.env.ALLOWED_USERS
       ? process.env.ALLOWED_USERS.split(',').map(id => parseInt(id.trim()))
       : []] *)
Definition parseAllowedUsers (env : environ) : list (option Z) :=
  match env !! lit "ALLOWED_USERS" with
  | Some v =>
      if truthy v
      then map (fun id => allowedEntry (parseInt (trim id)))
             (Commands.split 0x2C v)
      else []
  | None => []
  end.

(** The value of a decimal numeral read from the left, after [acc]. *)
Fixpoint numeralValue (d : Decimal.uint) (acc : Z) : Z :=
  match d with
  | Decimal.Nil => acc
  | Decimal.D0 l => numeralValue l (10 * acc + 0)
  | Decimal.D1 l => numeralValue l (10 * acc + 1)
  | Decimal.D2 l => numeralValue l (10 * acc + 2)
  | Decimal.D3 l => numeralValue l (10 * acc + 3)
  | Decimal.D4 l => numeralValue l (10 * acc + 4)
  | Decimal.D5 l => numeralValue l (10 * acc + 5)
  | Decimal.D6 l => numeralValue l (10 * acc + 6)
  | Decimal.D7 l => numeralValue l (10 * acc + 7)
  | Decimal.D8 l => numeralValue l (10 * acc + 8)
  | Decimal.D9 l => numeralValue l (10 * acc + 9)
  end%Z.

(* ===================================================================== *)
(** ** repos.js and sessions.js: loading the stores at start-up           *)
(* ===================================================================== *)

Module Startup.

(** A new process: the module-level caches are empty objects again,
    the files are what the last process left, and
    [crypto.randomUUID] has not been called. *)
Definition restartRepos (st : Repos.State) : Repos.State :=
  {| Repos.repoMappings := ∅; Repos.reposFile := Repos.reposFile st |}.

Definition restartSessions (st : Sessions.State) : Sessions.State :=
  {| Sessions.sessionMappings := ∅;
     Sessions.sessionsFile := Sessions.sessionsFile st;
     Sessions.draws := O |}.

(** [loadRepoMappings]: nothing is assigned while the file does not
    exist; [readFails] is whether [readFileSync] or [JSON.parse]
    throws, which the [catch] block answers with an empty cache. *)
Definition loadRepoMappings (readFails : bool) (st : Repos.State)
  : Repos.State :=
  match Repos.reposFile st with
  | Some saved =>
      {| Repos.repoMappings := if readFails then ∅ else saved;
         Repos.reposFile := Repos.reposFile st |}
  | None => st
  end.

(** [loadSessionMappings], likewise. *)
Definition loadSessionMappings (readFails : bool) (st : Sessions.State)
  : Sessions.State :=
  match Sessions.sessionsFile st with
  | Some saved =>
      {| Sessions.sessionMappings := if readFails then ∅ else saved;
         Sessions.sessionsFile := Sessions.sessionsFile st;
         Sessions.draws := Sessions.draws st |}
  | None => st
  end.

End Startup.

(** What the store holds is what a new process would load. *)
Definition reposPersisted (st : Repos.State) : Prop :=
  Repos.repoMappings (Startup.loadRepoMappings false (Startup.restartRepos st))
  = Repos.repoMappings st.

Definition sessionsPersisted (st : Sessions.State) : Prop :=
  Sessions.sessionMappings
    (Startup.loadSessionMappings false (Startup.restartSessions st))
  = Sessions.sessionMappings st.

Definition callOutside (c : Sessions.Call) : Outside :=
  match c with Sessions.CallGet o _ | Sessions.CallReset o _ => o end.

(* ===================================================================== *)
(** ** The decimal-string form of an integer                              *)
(* ===================================================================== *)

(** The digits of [n] in base ten, most significant first, put before
    [acc]: the last digit is [n mod 10], the digits before it are those
    of [n / 10].  [fuel] bounds the number of digits. *)
Fixpoint decimalDigits (fuel : nat) (n : N) (acc : jsstring) : jsstring :=
  match fuel with
  | O => acc
  | S fuel' =>
      let acc' := (0x30 + n mod 10) :: acc in
      if n / 10 =? 0 then acc' else decimalDigits fuel' (n / 10) acc'
  end.

(** The decimal-string form of an integer, as the statements about the
    keys of the stores name it: a minus sign for a negative number, then
    the digits of its absolute value in base ten, without leading zeros.
    It is written from arithmetic alone, to be compared with what
    [js_String] prints. *)
Definition decimalStringForm (z : Z) : jsstring :=
  let n := Z.abs_N z in
  (if (z <? 0)%Z then [0x2D] else [])
    ++ decimalDigits (S (N.to_nat (N.log2 n))) n [].

(** The numeral a string of decimal digits spells. *)
Fixpoint numeralOf (s : jsstring) : Decimal.uint :=
  match s with
  | [] => Decimal.Nil
  | c :: r =>
      let l := numeralOf r in
      if c =? 0x30 then Decimal.D0 l else if c =? 0x31 then Decimal.D1 l
      else if c =? 0x32 then Decimal.D2 l else if c =? 0x33 then Decimal.D3 l
      else if c =? 0x34 then Decimal.D4 l else if c =? 0x35 then Decimal.D5 l
      else if c =? 0x36 then Decimal.D6 l else if c =? 0x37 then Decimal.D7 l
      else if c =? 0x38 then Decimal.D8 l else if c =? 0x39 then Decimal.D9 l
      else Decimal.Nil
  end.

(* ===================================================================== *)
(** ** A command that is not there                                        *)
(* ===================================================================== *)

(** What the child process emits at time [t] when there is no claude
    binary to run.  Asked for a shell, [spawn] starts the shell, which
    writes its complaint to the standard error and exits with status
    127; asked for the binary itself, [spawn] emits an error event. *)
Definition shellNotFound : jsstring :=
  lit "/bin/sh: 1: claude: not found" ++ [Claude.LF].

Definition missingBinary (viaShell : bool) (t : N)
  : list (N * Claude.ChildEvent) :=
  if viaShell
  then [(t, Claude.StderrData shellNotFound); (t, Claude.Close (Some 127%Z))]
  else [(t, Claude.Error (lit "spawn claude ENOENT"))].

(* ===================================================================== *)
(** * Properties                                                          *)
(* ===================================================================== *)

(** ** MD5 test vectors (RFC 1321) and the fingerprint of /repo *)

Example md5_empty : Md5.md5_hex [] = lit "d41d8cd98f00b204e9800998ecf8427e".
Proof. vm_compute. reflexivity. Qed.

Example md5_abc :
  Md5.md5_hex (lit "abc") = lit "900150983cd24fb0d6963f7d28e17f72".
Proof. vm_compute. reflexivity. Qed.

Example md5_eighty_digits :
  Md5.md5_hex
    (lit "12345678901234567890123456789012345678901234567890123456789012345678901234567890")
  = lit "57edf4a22be3c955ac49da2e2107b67a".
Proof. vm_compute. reflexivity. Qed.

Example md5_repo :
  Md5.md5_hex (lit "/repo") = lit "6530f9eb448d96e7552a3c3a29b6cd2b".
Proof. vm_compute. reflexivity. Qed.

(** ** Strings and identifiers *)

Lemma lit_inj (a b : string) : lit a = lit b -> a = b.
Proof.
  unfold lit. intros H.
  rewrite <- (string_of_list_ascii_of_string a),
          <- (string_of_list_ascii_of_string b).
  f_equal.
  revert H. generalize (list_ascii_of_string a) (list_ascii_of_string b).
  induction l as [|x l IH]; intros [|y l'] H; simpl in H; try discriminate.
  - reflexivity.
  - injection H as Hxy Hl. f_equal; [|by apply IH].
    by rewrite <- (ascii_N_embedding x), <- (ascii_N_embedding y), Hxy.
Qed.

Lemma to_int_wellformed (z : Z) :
  Z.to_int z <> Decimal.Pos Decimal.Nil /\ Z.to_int z <> Decimal.Neg Decimal.Nil.
Proof.
  destruct z as [|p|p]; simpl; split; try discriminate;
    intros H; injection H as H; by apply Unsigned.to_uint_nonnil in H.
Qed.

(** Two integers print to the same decimal string only when equal. *)
Lemma js_String_num_inj (a b : Z) :
  js_String (IdNum a) = js_String (IdNum b) -> a = b.
Proof.
  simpl. intros H%lit_inj.
  apply (f_equal NilZero.int_of_string) in H.
  destruct (to_int_wellformed a) as [Ha1 Ha2].
  destruct (to_int_wellformed b) as [Hb1 Hb2].
  rewrite !NilZero.isi in H by assumption.
  injection H as H.
  by rewrite <- (DecimalZ.of_to a), <- (DecimalZ.of_to b), H.
Qed.

Lemma js_String_idempotent (c : JsId) :
  js_String (IdStr (js_String c)) = js_String c.
Proof. reflexivity. Qed.

Lemma opt_or_truthy (o : option jsstring) (a d : jsstring) :
  o = Some a -> a <> [] -> opt_or o d = a.
Proof. intros -> Ha. destruct a; [done|reflexivity]. Qed.

(** ** The workspace fingerprint *)

Lemma hexdigit_range (n : N) : n < 16 -> isHexDigit (Md5.hexdigit n).
Proof.
  intros Hn. unfold isHexDigit, Md5.hexdigit.
  destruct (N.ltb_spec n 10); lia.
Qed.

Lemma hex_length (bs : list N) : length (Md5.hex bs) = (2 * length bs)%nat.
Proof.
  unfold Md5.hex. induction bs as [|b bs IH]; simpl in *; [done|].
  rewrite IH. lia.
Qed.

Lemma hex_digits (bs : list N) : Forall isHexDigit (Md5.hex bs).
Proof.
  unfold Md5.hex. induction bs as [|b bs IH]; simpl; [constructor|].
  constructor; [|constructor; [|exact IH]];
    apply hexdigit_range; apply N.mod_lt; discriminate.
Qed.

Lemma digest_length (msg : list N) : length (Md5.digest msg) = 16%nat.
Proof. unfold Md5.digest. rewrite !length_app. reflexivity. Qed.

Lemma hashRepoPath_length (p : jsstring) :
  length (Repos.hashRepoPath p) = 8%nat.
Proof.
  unfold Repos.hashRepoPath, substring0, Md5.md5_hex.
  rewrite length_take, hex_length, digest_length. reflexivity.
Qed.

Lemma hashRepoPath_digits (p : jsstring) :
  Forall isHexDigit (Repos.hashRepoPath p).
Proof.
  unfold Repos.hashRepoPath, substring0.
  apply Forall_take, hex_digits.
Qed.

(** ** Session ids *)

Lemma getSessionId_split (cfg : Config) (repos : Repos.State) (ctx : Context) :
  getSessionId cfg repos ctx
  = keyHead cfg ctx ++ Repos.hashRepoPath (resolved cfg repos ctx).
Proof.
  unfold getSessionId, keyHead, resolved.
  case_decide; by rewrite <- !app_assoc.
Qed.

Lemma getSessionId_eq_iff (cfg : Config) (r1 r2 : Repos.State) (ctx : Context) :
  getSessionId cfg r1 ctx = getSessionId cfg r2 ctx
  <-> Repos.hashRepoPath (resolved cfg r1 ctx)
      = Repos.hashRepoPath (resolved cfg r2 ctx).
Proof.
  rewrite !getSessionId_split. split.
  - apply app_inv_head.
  - by intros ->.
Qed.

Lemma save_repoMappings (o : Outside) (st : Repos.State) :
  Repos.repoMappings (Repos.saveRepoMappings o st) = Repos.repoMappings st.
Proof. unfold Repos.saveRepoMappings. by destruct (writable o). Qed.

(** A successful [setRepoForChat]: the path passed validation and the
    entry of the chat now holds it. *)
Lemma setRepoForChat_ok fs o c p st st' :
  Repos.setRepoForChat fs o c p st = (Return true, st') ->
  Repos.validate fs p = None
  /\ Repos.repoMappings st'
     = <[js_String c := {| Repos.path := p; Repos.setAt := now o |}]>
         (Repos.repoMappings st).
Proof.
  unfold Repos.setRepoForChat.
  destruct (Repos.validate fs p); [discriminate|].
  intros [= <-]. by rewrite save_repoMappings.
Qed.

Lemma validate_nonempty fs p : Repos.validate fs p = None -> p <> [].
Proof. by destruct p. Qed.

Lemma getRepoForChat_after_set fs o c p st st' d :
  Repos.setRepoForChat fs o c p st = (Return true, st') ->
  Repos.getRepoForChat st' c d = p.
Proof.
  intros [Hv Hm]%setRepoForChat_ok.
  unfold Repos.getRepoForChat. rewrite Hm, lookup_insert_eq. simpl.
  apply validate_nonempty in Hv. by destruct p.
Qed.

Lemma getRepoForChat_after_remove o c st d :
  Repos.getRepoForChat (Repos.removeRepoForChat o c st) c d = d.
Proof.
  unfold Repos.getRepoForChat, Repos.removeRepoForChat.
  by rewrite save_repoMappings; simpl; rewrite lookup_delete_eq.
Qed.

Lemma getRepoForChat_unset c st d :
  Repos.repoMappings st !! js_String c = None ->
  Repos.getRepoForChat st c d = d.
Proof. unfold Repos.getRepoForChat. by intros ->. Qed.

Lemma resolved_reposWith cfg ctx p :
  p <> [] -> resolved cfg (reposWith (chatId_of ctx) p) ctx = p.
Proof.
  intros Hp. unfold resolved, Repos.getRepoForChat, reposWith. simpl.
  rewrite lookup_singleton_eq. simpl. by destruct p.
Qed.

(** C1, as stated, fails: chat 42 is moved from one directory to a
    different one, and its session id stays the same, because both
    directories have the fingerprint fcac6606. *)
Lemma C1_fingerprint_collision :
  let before :=
    (Repos.setRepoForChat anyDirectory noon (IdNum 42) collidingA noRepos).2 in
  let moved :=
    (Repos.setRepoForChat anyDirectory noon (IdNum 42) collidingB before).2 in
  resolved defaultConfig before chat42 = collidingA
  /\ resolved defaultConfig moved chat42 = collidingB
  /\ collidingA <> collidingB
  /\ getSessionId defaultConfig before chat42
     = getSessionId defaultConfig moved chat42.
Proof.
  intros before moved.
  assert (Ha : resolved defaultConfig before chat42 = collidingA).
  { apply (getRepoForChat_after_set anyDirectory noon (IdNum 42) collidingA
             noRepos before). reflexivity. }
  assert (Hb : resolved defaultConfig moved chat42 = collidingB).
  { apply (getRepoForChat_after_set anyDirectory noon (IdNum 42) collidingB
             before moved). reflexivity. }
  split; [exact Ha|]. split; [exact Hb|]. split; [discriminate|].
  apply getSessionId_eq_iff. rewrite Ha, Hb. vm_compute. reflexivity.
Qed.

(** C1 (amended): the session id depends on the stores only through the
    workspace the chat resolves to, so deriving it again from the same
    workspace gives the same id; two workspaces with different
    fingerprints give different ids; and setting the workspace back to an
    earlier directory, or clearing a mapping set on top of the default,
    gives the earlier id again. *)
Theorem C1_session_key_of_workspace (cfg : Config) (ctx : Context) :
  (forall r1 r2 : Repos.State,
      resolved cfg r1 ctx = resolved cfg r2 ctx ->
      getSessionId cfg r1 ctx = getSessionId cfg r2 ctx)
  /\ (forall r1 r2 : Repos.State,
      Repos.hashRepoPath (resolved cfg r1 ctx)
        <> Repos.hashRepoPath (resolved cfg r2 ctx) ->
      getSessionId cfg r1 ctx <> getSessionId cfg r2 ctx)
  /\ (forall fs o1 o2 o3 p1 p2 (r r1 r2 r3 : Repos.State),
      Repos.setRepoForChat fs o1 (chatId_of ctx) p1 r = (Return true, r1) ->
      Repos.setRepoForChat fs o2 (chatId_of ctx) p2 r1 = (Return true, r2) ->
      Repos.setRepoForChat fs o3 (chatId_of ctx) p1 r2 = (Return true, r3) ->
      getSessionId cfg r3 ctx = getSessionId cfg r1 ctx)
  /\ (forall fs o1 o2 p2 (r r1 : Repos.State),
      Repos.repoMappings r !! js_String (chatId_of ctx) = None ->
      Repos.setRepoForChat fs o1 (chatId_of ctx) p2 r = (Return true, r1) ->
      getSessionId cfg (Repos.removeRepoForChat o2 (chatId_of ctx) r1) ctx
      = getSessionId cfg r ctx).
Proof.
  repeat split.
  - intros r1 r2 H. apply getSessionId_eq_iff. by rewrite H.
  - intros r1 r2 H E. by apply getSessionId_eq_iff in E.
  - intros fs o1 o2 o3 p1 p2 r r1 r2 r3 H1 _ H3.
    apply getSessionId_eq_iff. unfold resolved.
    by rewrite (getRepoForChat_after_set _ _ _ _ _ _ _ H1),
               (getRepoForChat_after_set _ _ _ _ _ _ _ H3).
  - intros fs o1 o2 p2 r r1 Hnone _.
    apply getSessionId_eq_iff. unfold resolved.
    by rewrite getRepoForChat_after_remove, getRepoForChat_unset.
Qed.

Lemma C1_session_key_of_workspace_witness :
  let r1 := (Repos.setRepoForChat anyDirectory noon (IdNum 42) (lit "/repo") noRepos).2 in
  let r2 := (Repos.setRepoForChat anyDirectory noon (IdNum 42) (lit "/other") r1).2 in
  let r3 := (Repos.setRepoForChat anyDirectory noon (IdNum 42) (lit "/repo") r2).2 in
  getSessionId defaultConfig (reposWith (IdNum 42) (lit "/repo")) chat42
  = getSessionId defaultConfig noRepos chat42
  /\ getSessionId defaultConfig r3 chat42 = getSessionId defaultConfig r1 chat42
  /\ getSessionId defaultConfig r2 chat42 <> getSessionId defaultConfig r1 chat42
  /\ getSessionId defaultConfig (Repos.removeRepoForChat noon (IdNum 42) r1) chat42
     = getSessionId defaultConfig noRepos chat42.
Proof.
  intros r1 r2 r3.
  destruct (C1_session_key_of_workspace defaultConfig chat42)
    as (Hsame & Hdiff & Hback & Hclear).
  split; [|split; [|split]].
  - apply Hsame. transitivity (lit "/repo").
    + apply (resolved_reposWith defaultConfig chat42). discriminate.
    + unfold resolved, Repos.getRepoForChat. simpl.
      rewrite lookup_empty. reflexivity.
  - apply (Hback anyDirectory noon noon noon (lit "/repo") (lit "/other")
             noRepos r1 r2 r3); reflexivity.
  - apply Hdiff. unfold resolved.
    rewrite (getRepoForChat_after_set anyDirectory noon (IdNum 42)
               (lit "/other") r1 r2) by reflexivity.
    rewrite (getRepoForChat_after_set anyDirectory noon (IdNum 42)
               (lit "/repo") noRepos r1) by reflexivity.
    vm_compute. discriminate.
  - apply (Hclear anyDirectory noon noon (lit "/repo") noRepos r1);
      reflexivity.
Defined.

(** C2: the session id of a private chat is
    prefix-conversationId-fingerprint and that of any other chat (a
    group) is prefix-group-conversationId-fingerprint, where the
    fingerprint is the first eight hexadecimal digits, in lower case, of
    the MD5 digest of the resolved workspace path: it has a fixed
    length, is the same for the same path, and is the digest of that
    path and of nothing else.  In a private chat the id inserted is that
    of the sender, and the sender of a private chat is the chat.  The
    digest is the MD5 of RFC 1321 (its test vectors for the empty string
    and for abc come out).  Chat 42 with no workspace set, the default
    prefix and default workspace /repo gets telegram-42-6530f9eb,
    6530f9eb being the fingerprint of /repo; with the workspace /other
    set it gets telegram-42-24769c55. *)
Theorem C2_session_key_form (cfg : Config) (repos : Repos.State)
    (ctx : Context) (c : Chat) :
  chat ctx = Some c ->
  let workspace :=
    Repos.getRepoForChat repos (chat_id c) (workingDirectory cfg) in
  let fp := Repos.hashRepoPath workspace in
  fp = firstn 8 (Md5.md5_hex workspace)
  /\ length fp = 8%nat
  /\ Forall isHexDigit fp
  /\ (chat_type c = lit "private" ->
      getSessionId cfg repos ctx
      = sessionPrefix cfg ++ lit "-" ++ js_String (from_id ctx) ++ lit "-" ++ fp)
  /\ (chat_type c = lit "private" -> from ctx = Some (chat_id c) ->
      getSessionId cfg repos ctx
      = sessionPrefix cfg ++ lit "-" ++ js_String (chat_id c) ++ lit "-" ++ fp)
  /\ (chat_type c <> lit "private" ->
      getSessionId cfg repos ctx
      = sessionPrefix cfg ++ lit "-group-" ++ js_String (chat_id c)
          ++ lit "-" ++ fp)
  /\ Md5.md5_hex [] = lit "d41d8cd98f00b204e9800998ecf8427e"
  /\ Md5.md5_hex (lit "abc") = lit "900150983cd24fb0d6963f7d28e17f72"
  /\ Repos.hashRepoPath (lit "/repo") = lit "6530f9eb"
  /\ Repos.hashRepoPath (lit "/other") = lit "24769c55"
  /\ getSessionId defaultConfig noRepos chat42 = lit "telegram-42-6530f9eb"
  /\ getSessionId defaultConfig (reposWith (IdNum 42) (lit "/other")) chat42
     = lit "telegram-42-24769c55".
Proof.
  intros Hc workspace fp.
  split; [reflexivity|].
  split; [apply hashRepoPath_length|].
  split; [apply hashRepoPath_digits|].
  split.
  { intros Ht. unfold getSessionId, chatType_of, chatId_of.
    rewrite Hc. simpl. rewrite Ht. by rewrite decide_True. }
  split.
  { intros Ht Hf. unfold getSessionId, chatType_of, chatId_of, from_id.
    rewrite Hc, Hf. simpl. rewrite Ht. by rewrite decide_True. }
  split.
  { intros Ht. unfold getSessionId, chatType_of, chatId_of.
    rewrite Hc. simpl. rewrite decide_False; [done|congruence]. }
  repeat (split; [vm_compute; reflexivity|]).
  vm_compute. reflexivity.
Qed.

Lemma C2_session_key_form_witness :
  getSessionId defaultConfig (reposWith (IdNum 42) (lit "/other")) chat42
  = lit "telegram" ++ lit "-" ++ lit "42" ++ lit "-"
      ++ firstn 8 (Md5.md5_hex (lit "/other"))
  /\ getSessionId defaultConfig noRepos {| from := Some (IdNum 7); chat := Some group7 |}
     = lit "telegram" ++ lit "-group-" ++ lit "-1001234567890" ++ lit "-"
         ++ firstn 8 (Md5.md5_hex (lit "/repo")).
Proof.
  split.
  - destruct (C2_session_key_form defaultConfig
                (reposWith (IdNum 42) (lit "/other")) chat42
                {| chat_id := IdNum 42; chat_type := lit "private" |} eq_refl)
      as (Hfp & _ & _ & Hprivate & _).
    rewrite (Hprivate eq_refl), Hfp. reflexivity.
  - destruct (C2_session_key_form defaultConfig noRepos
                {| from := Some (IdNum 7); chat := Some group7 |} group7
                eq_refl)
      as (Hfp & _ & _ & _ & _ & Hgroup & _).
    rewrite Hgroup, Hfp; [reflexivity|]. vm_compute. discriminate.
Defined.

(** ** The session store *)

Section SessionStore.
Import Sessions.

Variable randomUUID : nat -> jsstring.

(** [crypto.randomUUID] never returns the same value twice. *)
Hypothesis randomUUID_fresh :
  forall i j, randomUUID i = randomUUID j -> i = j.

Local Abbreviation unseen := (Sessions.unseen randomUUID).

Lemma save_sessionMappings o st :
  sessionMappings (saveSessionMappings o st) = sessionMappings st.
Proof. unfold saveSessionMappings. by destruct (writable o). Qed.

Lemma save_draws o st : draws (saveSessionMappings o st) = draws st.
Proof. unfold saveSessionMappings. by destruct (writable o). Qed.

Lemma getSessionUUID_present o k st info :
  sessionMappings st !! k = Some info ->
  getSessionUUID randomUUID o k st = (uuid info, st).
Proof. unfold getSessionUUID. by intros ->. Qed.

Lemma getSessionUUID_absent o k st :
  sessionMappings st !! k = None ->
  exists info,
    sessionMappings (getSessionUUID randomUUID o k st).2 !! k = Some info
    /\ uuid info = (getSessionUUID randomUUID o k st).1.
Proof.
  unfold getSessionUUID. intros ->. simpl.
  eexists. rewrite save_sessionMappings. simpl.
  rewrite lookup_insert_eq. split; reflexivity.
Qed.

Lemma resetSession_lookup o k st :
  sessionMappings (resetSession randomUUID o k st).2 !! k
  = Some {| uuid := randomUUID (draws st); createdAt := now o;
            previousUUID := uuid <$> sessionMappings st !! k |}.
Proof.
  unfold resetSession. simpl.
  by rewrite save_sessionMappings; simpl; rewrite lookup_insert_eq.
Qed.

Lemma perform_draws c st : (draws st <= draws (perform randomUUID c st).2)%nat.
Proof.
  destruct c as [o k|o k]; simpl.
  - unfold getSessionUUID. destruct (sessionMappings st !! k); simpl;
      [lia|]. rewrite save_draws. simpl. lia.
  - unfold resetSession. simpl. rewrite save_draws. simpl. lia.
Qed.

Lemma insert_unseen st k info :
  unseen st ->
  uuid info = randomUUID (draws st) ->
  forall k' info' i,
    <[k := info]> (sessionMappings st) !! k' = Some info' ->
    (S (draws st) <= i)%nat -> uuid info' <> randomUUID i.
Proof.
  intros Hst Hu k' info' i Hl Hi.
  destruct (decide (k = k')) as [->|Hne].
  - rewrite lookup_insert_eq in Hl. injection Hl as <-.
    rewrite Hu. intros E%randomUUID_fresh. lia.
  - rewrite lookup_insert_ne in Hl by done.
    apply (Hst k' info' i Hl). lia.
Qed.

Lemma perform_unseen c st : unseen st -> unseen (perform randomUUID c st).2.
Proof.
  intros Hst. destruct c as [o k|o k]; simpl.
  - unfold getSessionUUID. destruct (sessionMappings st !! k) eqn:E;
      [exact Hst|]. simpl.
    intros k' info' i. rewrite save_sessionMappings, save_draws. simpl.
    by apply insert_unseen.
  - unfold resetSession. simpl.
    intros k' info' i. rewrite save_sessionMappings, save_draws. simpl.
    by apply insert_unseen.
Qed.

(** A handle a call returns is not a value drawn later. *)
Lemma perform_returns_drawn c st i :
  unseen st ->
  (draws (perform randomUUID c st).2 <= i)%nat ->
  (perform randomUUID c st).1 <> randomUUID i.
Proof.
  intros Hst. destruct c as [o k|o k]; simpl.
  - unfold getSessionUUID. destruct (sessionMappings st !! k) eqn:E; simpl.
    + intros Hi. by apply (Hst k i0 i).
    + rewrite save_draws. simpl. intros Hi E'%randomUUID_fresh. lia.
  - unfold resetSession. simpl. rewrite save_draws. simpl.
    intros Hi E'%randomUUID_fresh. lia.
Qed.

Lemma performAll_unseen cs st :
  unseen st ->
  unseen (performAll randomUUID cs st).2
  /\ forall k h i,
      (k, h) ∈ (performAll randomUUID cs st).1 ->
      (draws (performAll randomUUID cs st).2 <= i)%nat ->
      h <> randomUUID i.
Proof.
  revert st. induction cs as [|c cs IH]; intros st Hst; simpl.
  - split; [exact Hst|]. intros k h i Hin. by apply elem_of_nil in Hin.
  - pose proof (perform_unseen c st Hst) as Hst1.
    pose proof (perform_returns_drawn c st) as Hret.
    destruct (perform randomUUID c st) as [h1 st1] eqn:Ep. simpl in *.
    destruct (IH st1 Hst1) as [IH1 IH2].
    assert (Hmono : (draws st1 <= draws (performAll randomUUID cs st1).2)%nat).
    { clear. revert st1. induction cs as [|c' cs IHc]; intros st1; simpl;
        [lia|].
      pose proof (perform_draws c' st1) as Hd.
      destruct (perform randomUUID c' st1) as [h' st'] eqn:E'. simpl in *.
      specialize (IHc st').
      destruct (performAll randomUUID cs st') as [is' st2]. simpl in *. lia. }
    destruct (performAll randomUUID cs st1) as [issued st2]. simpl in *.
    split; [exact IH1|].
    intros k h i [[= -> ->]|Hin]%elem_of_cons Hi.
    + apply Hret; [exact Hst|lia].
    + by apply (IH2 k h i).
Qed.

(** C3: [getSessionUUID] called twice for one logical name returns the
    same handle both times and the second call changes nothing;
    [resetSession], after any history of calls, returns a handle that
    differs from the current one and from every handle returned for
    that name before, becomes the handle [getSessionUUID] returns, and
    records the handle it replaces, if any, as [previousUUID].  The
    random source is taken never to repeat a value, nor to produce one
    the store already held when the history started. *)
Theorem C3_session_store (calls : list Call) (st0 : State)
    (o o' : Outside) (k : jsstring) :
  unseen st0 ->
  let st := (performAll randomUUID calls st0).2 in
  let issued := (performAll randomUUID calls st0).1 in
  let first := getSessionUUID randomUUID o k st in
  let second := getSessionUUID randomUUID o' k first.2 in
  let fresh := resetSession randomUUID o k st in
  (second.1 = first.1 /\ second.2 = first.2)
  /\ (forall info, sessionMappings st !! k = Some info ->
        fresh.1 <> uuid info)
  /\ (forall h, (k, h) ∈ issued -> fresh.1 <> h)
  /\ (getSessionUUID randomUUID o' k fresh.2).1 = fresh.1
  /\ sessionMappings fresh.2 !! k
     = Some {| uuid := fresh.1; createdAt := now o;
               previousUUID := uuid <$> sessionMappings st !! k |}.
Proof.
  intros H0 st issued first second fresh.
  destruct (performAll_unseen calls st0 H0) as [Hst Hissued].
  fold st in Hst, Hissued. fold issued in Hissued.
  split; [|split; [|split; [|split]]].
  - subst second first.
    destruct (sessionMappings st !! k) as [info|] eqn:E.
    + rewrite (getSessionUUID_present o k st info E). simpl.
      by rewrite (getSessionUUID_present o' k st info E).
    + destruct (getSessionUUID_absent o k st E) as (info & Hl & Hu).
      by rewrite (getSessionUUID_present o' k _ info Hl), Hu.
  - intros info Hinfo E. apply (Hst k info (draws st) Hinfo); [lia|].
    symmetry. exact E.
  - intros h Hin E. apply (Hissued k h (draws st) Hin); [lia|].
    symmetry. exact E.
  - erewrite getSessionUUID_present; [|apply resetSession_lookup]. done.
  - apply resetSession_lookup.
Qed.

End SessionStore.

(** ** The in-flight lock *)

Section Gate.
Import Bot.

Lemma tryAcquire_free (c : JsId) (pu : gset jsstring) :
  lockKey c ∉ pu -> tryAcquire c pu = (true, {[lockKey c]} ∪ pu).
Proof. intros H. unfold tryAcquire. by rewrite decide_False. Qed.

Lemma tryAcquire_held (c : JsId) (pu : gset jsstring) :
  lockKey c ∈ pu -> tryAcquire c pu = (false, pu).
Proof. intros H. unfold tryAcquire. by rewrite decide_True. Qed.

Lemma removeOne_NoDup k (l : list jsstring) :
  NoDup l -> NoDup (removeOne k l) /\ forall x, x ∈ removeOne k l <-> x ∈ l /\ x <> k.
Proof.
  induction 1 as [|y l Hy Hl IH]; simpl.
  - split; [constructor|]. intros x. rewrite elem_of_nil. tauto.
  - destruct IH as [IH1 IH2]. case_decide as E.
    + subst y. split; [exact Hl|]. intros x. rewrite elem_of_cons.
      split; [intros Hx; split; [by right|by intros ->]|].
      intros [[->|Hx] Hne]; done.
    + split.
      * constructor; [|exact IH1]. rewrite IH2. tauto.
      * intros x. rewrite !elem_of_cons, IH2.
        split; [intros [->|[Hx Hne]]; tauto|tauto].
Qed.

Lemma tick_consistent (l : Loop) (t : Tick) : consistent l -> consistent (tick l t).
Proof.
  intros [Hnd Hiff]. destruct t as [c|c]; simpl.
  - unfold tryAcquire. case_decide as E; [by split|].
    split; simpl.
    + constructor; [by rewrite Hiff|exact Hnd].
    + intros k. rewrite elem_of_cons, elem_of_union, elem_of_singleton, Hiff.
      done.
  - case_decide as E; [|by split].
    destruct (removeOne_NoDup (lockKey c) _ Hnd) as [H1 H2].
    split; simpl; [exact H1|].
    intros k. unfold release.
    rewrite H2, elem_of_difference, elem_of_singleton, Hiff. done.
Qed.

Lemma ticks_consistent (ts : list Tick) (l : Loop) :
  consistent l -> consistent (fold_left tick ts l).
Proof.
  revert l. induction ts as [|t ts IH]; intros l Hl; simpl; [done|].
  by apply IH, tick_consistent.
Qed.

Lemma idle_consistent : consistent idle.
Proof. split; [constructor|]. intros k. simpl. by rewrite elem_of_nil, elem_of_empty. Qed.

Lemma NoDup_filter_eq_length (k : jsstring) (l : list jsstring) :
  NoDup l ->
  length (filter (λ x, x = k) l) = if decide (k ∈ l) then 1%nat else 0%nat.
Proof.
  induction 1 as [|y l Hy Hl IH]; [done|].
  destruct (decide (y = k)) as [->|E].
  - rewrite filter_cons_True by done. simpl.
    rewrite IH, decide_False by done.
    rewrite decide_True by (apply elem_of_cons; by left). done.
  - rewrite filter_cons_False by done. rewrite IH.
    destruct (decide (k ∈ l)) as [Hin|Hin].
    + rewrite decide_True by (apply elem_of_cons; by right). done.
    + rewrite decide_False; [done|].
      rewrite elem_of_cons. intros [->|?]; done.
Qed.

(** C4: a free conversation is let in and a second request for it is
    turned away at once, changing nothing (no queue); after the
    release it is let in again; two conversations with different
    integer ids are let in independently of each other; and after any
    sequence of arrivals and completions a conversation has at most
    one handler running, exactly when its key is in the lock set. *)
Theorem C4_one_slot_per_conversation (c : JsId) (a b : Z)
    (pu : gset jsstring) (ts : list Tick) :
  lockKey c ∉ pu ->
  a <> b ->
  lockKey (IdNum a) ∉ pu ->
  lockKey (IdNum b) ∉ pu ->
  let held := (tryAcquire c pu).2 in
  (tryAcquire c pu).1 = true
  /\ tryAcquire c held = (false, held)
  /\ (forall l, processingUsers l = held -> tick l (Message c) = l)
  /\ (tryAcquire c (release c held)).1 = true
  /\ (tryAcquire (IdNum b) (tryAcquire (IdNum a) pu).2).1 = true
  /\ (tryAcquire (IdNum a) (tryAcquire (IdNum b) pu).2).1 = true
  /\ (running (fold_left tick ts idle) c <= 1)%nat
  /\ (running (fold_left tick ts idle) c = 1%nat
      <-> lockKey c ∈ processingUsers (fold_left tick ts idle)).
Proof.
  intros Hc Hab Ha Hb held.
  assert (Hkeys : lockKey (IdNum a) <> lockKey (IdNum b)).
  { intros E. by apply js_String_num_inj in E. }
  assert (Hheld : lockKey c ∈ held).
  { subst held. rewrite (tryAcquire_free c pu Hc). simpl.
    apply elem_of_union. left. by apply elem_of_singleton. }
  split; [|split; [|split; [|split; [|split; [|split; [|split]]]]]].
  - by rewrite (tryAcquire_free c pu Hc).
  - by apply tryAcquire_held.
  - intros l Hl. simpl. rewrite Hl, (tryAcquire_held c held Hheld). done.
  - rewrite tryAcquire_free; [done|]. unfold release.
    rewrite elem_of_difference, elem_of_singleton. tauto.
  - rewrite (tryAcquire_free _ pu Ha).
    rewrite tryAcquire_free; [done|]. cbn [snd].
    rewrite elem_of_union, elem_of_singleton.
    intros [E|E]; [by apply Hkeys|by apply Hb].
  - rewrite (tryAcquire_free _ pu Hb).
    rewrite tryAcquire_free; [done|]. cbn [snd].
    rewrite elem_of_union, elem_of_singleton.
    intros [E|E]; [by apply Hkeys|by apply Ha].
  - destruct (ticks_consistent ts idle idle_consistent) as [Hnd _].
    unfold running. rewrite (NoDup_filter_eq_length _ _ Hnd).
    case_decide; lia.
  - destruct (ticks_consistent ts idle idle_consistent) as [Hnd Hiff].
    unfold running. rewrite (NoDup_filter_eq_length _ _ Hnd), <- Hiff.
    case_decide; split; try done; lia.
Qed.

End Gate.

(** ** The workspace store *)

(** C7: when [statSync] throws for the path, or the path is not a
    directory, [setRepoForChat] throws the invalid-path error and leaves
    the in-memory mappings and the file as they were, so the mapping of
    the chat, if any, is still what it was. *)
Theorem C7_set_rejects_invalid_path (fs : Repos.FileSystem) (o : Outside)
    (c : JsId) (p : jsstring) (st : Repos.State) :
  (exists message, Repos.statSync fs p = inl message)
  \/ Repos.statSync fs p = inr false ->
  exists reason,
    Repos.setRepoForChat fs o c p st = (InvalidPathError p reason, st)
    /\ (Repos.statSync fs p = inl reason
        \/ (Repos.statSync fs p = inr false
            /\ reason = lit "Path is not a directory"))
    /\ Repos.getRepoInfo (Repos.setRepoForChat fs o c p st).2 c
       = Repos.getRepoInfo st c.
Proof.
  unfold Repos.setRepoForChat, Repos.validate, InvalidPathError.
  intros [[message H]|H]; rewrite H; simpl.
  - exists message. by split; [|split; [left|]].
  - exists (lit "Path is not a directory"). by split; [|split; [right|]].
Qed.

Lemma validate_directory fs p :
  Repos.statSync fs p = inr true -> Repos.validate fs p = None.
Proof. unfold Repos.validate. by intros ->. Qed.

Lemma setRepoForChat_directory fs o c p st :
  Repos.statSync fs p = inr true ->
  Repos.setRepoForChat fs o c p st
  = (Return true,
     Repos.saveRepoMappings o
       {| Repos.repoMappings :=
            <[js_String c := {| Repos.path := p; Repos.setAt := now o |}]>
              (Repos.repoMappings st);
          Repos.reposFile := Repos.reposFile st |}).
Proof.
  intros H. unfold Repos.setRepoForChat. by rewrite (validate_directory _ _ H).
Qed.

(** ** The environment of the child process *)

(** C9: with a credential configured (a non-empty ANTHROPIC_API_KEY in
    [config]) the child gets the parent's environment with that variable
    set to the configured value and every other variable as the parent
    has it; with none configured it gets the parent's environment as it
    is. *)
Theorem C9_child_environment (cfg : Config) (processEnv : environ)
    (sessionId query : jsstring) (wd : option jsstring) :
  let child :=
    Claude.env (Claude.spawned
                  (Claude.executeClaudeCode cfg processEnv sessionId query wd)) in
  (forall key, anthropicApiKey cfg = Some key -> key <> [] ->
     child = <[lit "ANTHROPIC_API_KEY" := key]> processEnv
     /\ child !! lit "ANTHROPIC_API_KEY" = Some key
     /\ forall v, v <> lit "ANTHROPIC_API_KEY" -> child !! v = processEnv !! v)
  /\ (anthropicApiKey cfg = None \/ anthropicApiKey cfg = Some [] ->
      child = processEnv).
Proof.
  simpl. unfold Claude.spawnEnv. split.
  - intros key -> Hkey. destruct key as [|k key]; [done|]. simpl.
    split; [done|]. split; [apply lookup_insert_eq|].
    intros v Hv. by apply lookup_insert_ne.
  - by intros [->| ->].
Qed.

(** ** One call of the CLI *)

Section Invocation.
Import Claude.

Lemma dispatch_data (r : Run) (es : list ChildEvent) :
  Forall (λ e, isData e = true) es ->
  let r' := fold_left dispatch es r in
  stdout r' = stdout r ++ stdoutOf es
  /\ stderr r' = stderr r ++ stderrOf es
  /\ promise r' = promise r
  /\ timeout r' = timeout r
  /\ kills r' = kills r.
Proof.
  intros H. revert r. induction H as [|e es He _ IH]; intros r; simpl.
  - by rewrite !app_nil_r.
  - destruct e as [chunk|chunk| |]; try discriminate;
      destruct (IH (dispatch r (StdoutData chunk))) as (A1 & B1 & C1 & D1 & E1);
      destruct (IH (dispatch r (StderrData chunk))) as (A2 & B2 & C2 & D2 & E2);
      simpl in *; rewrite <- ?app_assoc in *; done.
Qed.

Lemma expire_early (t : N) (r : Run) :
  timeout r = Some timeoutMs -> t < timeoutMs -> expire t r = r.
Proof.
  intros Ht Hlt. unfold expire. rewrite Ht.
  destruct (N.leb_spec timeoutMs t); [lia|done].
Qed.

Lemma expire_cleared (t : N) (r : Run) : timeout r = None -> expire t r = r.
Proof. unfold expire. by intros ->. Qed.

Lemma dispatch_data_timeout (r : Run) (e : ChildEvent) :
  isData e = true -> timeout (dispatch r e) = timeout r.
Proof. by destruct e. Qed.

(** Output that arrives before the deadline is accumulated and nothing
    else happens. *)
Lemma runUntil_data_prefix (h : N) (pre rest : list (N * ChildEvent))
    (r : Run) :
  Forall (λ te, isData te.2 = true /\ te.1 < timeoutMs /\ te.1 <= h) pre ->
  timeout r = Some timeoutMs ->
  runUntil h (pre ++ rest) r
  = runUntil h rest (fold_left dispatch (map snd pre) r).
Proof.
  intros H. revert r. induction H as [|[t e] pre (Hd & Ht & Hh) _ IH];
    intros r Hr; simpl in *; [done|].
  destruct (N.ltb_spec h t); [lia|].
  rewrite (expire_early t r Hr Ht). apply IH.
  by rewrite dispatch_data_timeout.
Qed.

Lemma settle_settled (p new : Settled) : p <> Pending -> settle p new = p.
Proof. by destruct p. Qed.

Lemma dispatch_settled (r : Run) (e : ChildEvent) :
  promise r <> Pending -> promise (dispatch r e) = promise r.
Proof.
  intros H. destruct e; simpl; try done.
  - by case_decide; apply settle_settled.
  - by apply settle_settled.
Qed.

Lemma expire_settled (t : N) (r : Run) :
  promise r <> Pending -> promise (expire t r) = promise r.
Proof.
  intros H. unfold expire. destruct (timeout r); [|done].
  destruct (_ <=? _); [|done]. by apply settle_settled.
Qed.

(** A settled promise stays as it is. *)
Lemma runUntil_settled (h : N) (sched : list (N * ChildEvent)) (r : Run) :
  promise r <> Pending -> promise (runUntil h sched r) = promise r.
Proof.
  revert r. induction sched as [|[t e] sched IH]; intros r Hr; simpl.
  - by apply expire_settled.
  - destruct (h <? t); [by apply expire_settled|].
    rewrite IH.
    + by rewrite dispatch_settled, expire_settled by
        (rewrite ?expire_settled; done).
    + by rewrite dispatch_settled, expire_settled by
        (rewrite ?expire_settled; done).
Qed.

Lemma dispatch_cleared (r : Run) (e : ChildEvent) :
  timeout r = None ->
  timeout (dispatch r e) = None /\ kills (dispatch r e) = kills r.
Proof. by destruct e. Qed.

(** Once the timer is cleared nothing is killed any more. *)
Lemma runUntil_cleared (h : N) (sched : list (N * ChildEvent)) (r : Run) :
  timeout r = None ->
  timeout (runUntil h sched r) = None
  /\ kills (runUntil h sched r) = kills r.
Proof.
  revert r. induction sched as [|[t e] sched IH]; intros r Hr; simpl.
  - by rewrite expire_cleared.
  - destruct (h <? t); [by rewrite expire_cleared|].
    rewrite (expire_cleared t r Hr).
    destruct (dispatch_cleared r e Hr) as [H1 H2].
    destruct (IH _ H1) as [H3 H4]. by rewrite H3, H4, H2.
Qed.

Variables (cfg : Config) (processEnv : environ).
Variables (sessionId query : jsstring) (wd : option jsstring).

Let r0 : Run := executeClaudeCode cfg processEnv sessionId query wd.

(** The state when the first event that is not output is about to be
    delivered, before the deadline. *)
Lemma runUntil_output_then (h t : N) (pre rest : list (N * ChildEvent))
    (e : ChildEvent) :
  Forall (λ te, isData te.2 = true /\ te.1 <= t) pre ->
  t < timeoutMs -> t <= h ->
  exists r,
    runUntil h (pre ++ (t, e) :: rest) r0 = runUntil h rest (dispatch r e)
    /\ stdout r = stdoutOf (map snd pre)
    /\ stderr r = stderrOf (map snd pre)
    /\ promise r = Pending
    /\ timeout r = Some timeoutMs
    /\ kills r = [].
Proof.
  intros Hpre Ht Hh.
  exists (fold_left dispatch (map snd pre) r0).
  assert (Hdata : Forall (λ e, isData e = true) (map snd pre)).
  { apply Forall_fmap. eapply Forall_impl; [exact Hpre|]. by intros ? []. }
  destruct (dispatch_data r0 _ Hdata) as (A & B & C & D & E).
  split; [|done].
  rewrite runUntil_data_prefix; [|
    eapply Forall_impl; [exact Hpre|]; intros ? []; repeat split;
      [done|lia|lia] | done].
  simpl. destruct (N.ltb_spec h t); [lia|].
  by rewrite expire_early.
Qed.

(** C5: when the child closes before the deadline, exit code 0
    resolves the call with the sanitised standard output; any other
    code (or none) rejects it with the failure message carrying the
    standard error, or the standard output when the standard error is
    empty, or `Unknown error' when both are; and an error event of the
    child process, which is how [spawn] reports that it could not
    start the process it was asked for, rejects it with the
    failed-to-start message.  Later events do not change the outcome.
    The process asked for is a shell, so a claude binary that is not
    there is not such a failure to start: the shell reports it with
    exit status 127 and the call is rejected with the failure message
    carrying the shell's complaint. *)
Theorem C5_outcome_classification (pre rest : list (N * ChildEvent))
    (t h : N) (code : option Z) (message : jsstring) :
  Forall (λ te, isData te.2 = true /\ te.1 <= t) pre ->
  t < timeoutMs -> t <= h ->
  let out := stdoutOf (map snd pre) in
  let err := stderrOf (map snd pre) in
  let closed := promise (runUntil h (pre ++ (t, Close code) :: rest) r0) in
  let failed := promise (runUntil h (pre ++ (t, Error message) :: rest) r0) in
  (code = Some 0%Z -> closed = Resolved (cleanClaudeResponse out))
  /\ (code <> Some 0%Z ->
      exists diagnostic,
        closed = ExternalProcessError diagnostic
        /\ (err <> [] -> diagnostic = err)
        /\ (err = [] -> out <> [] -> diagnostic = out)
        /\ (err = [] -> out = [] -> diagnostic = lit "Unknown error"))
  /\ failed = SpawnError message
  /\ shell (spawned r0) = true
  /\ promise (runUntil h (missingBinary (shell (spawned r0)) t ++ rest) r0)
     = ExternalProcessError shellNotFound.
Proof.
  intros Hpre Ht Hh out err closed failed.
  split; [|split; [|split; [|split]]].
  - intros ->. subst closed.
    destruct (runUntil_output_then h t pre rest (Close (Some 0%Z)) Hpre Ht Hh)
      as (r & -> & A & B & C & D & E).
    rewrite runUntil_settled; simpl; rewrite C, A; done.
  - intros Hcode. subst closed.
    destruct (runUntil_output_then h t pre rest (Close code) Hpre Ht Hh)
      as (r & -> & A & B & C & D & E).
    exists (js_or err (js_or out (lit "Unknown error"))).
    split; [|split; [|split]].
    + rewrite runUntil_settled; simpl; rewrite decide_False by done;
        rewrite C, A, B; done.
    + by destruct err.
    + intros ->. by destruct out.
    + by intros -> ->.
  - subst failed.
    destruct (runUntil_output_then h t pre rest (Error message) Hpre Ht Hh)
      as (r & -> & A & B & C & D & E).
    rewrite runUntil_settled; simpl; rewrite C; done.
  - reflexivity.
  - change (missingBinary (shell (spawned r0)) t ++ rest)
      with ([(t, StderrData shellNotFound)]
              ++ (t, Close (Some 127%Z)) :: rest).
    destruct (runUntil_output_then h t [(t, StderrData shellNotFound)]
                rest (Close (Some 127%Z))) as (r & -> & A & B & C & D & E);
      [repeat constructor; simpl; lia|done|done|].
    rewrite runUntil_settled; simpl; rewrite C, B; done.
Qed.

(** While only output arrives the call stays pending until the
    deadline and is timed out from the deadline on. *)
Lemma runUntil_only_output (h : N) (sched : list (N * ChildEvent)) (r : Run) :
  Forall (λ te, isData te.2 = true) sched ->
  (timeout r = Some timeoutMs /\ promise r = Pending /\ kills r = [])
  \/ (timeout r = None /\ promise r = TimeoutError
      /\ kills r = [lit "SIGKILL"] /\ timeoutMs <= h) ->
  let r' := runUntil h sched r in
  (h < timeoutMs ->
     timeout r' = Some timeoutMs /\ promise r' = Pending /\ kills r' = [])
  /\ (timeoutMs <= h ->
     timeout r' = None /\ promise r' = TimeoutError
     /\ kills r' = [lit "SIGKILL"]).
Proof.
  assert (Hexp : forall t x,
    (timeout x = Some timeoutMs /\ promise x = Pending /\ kills x = []) ->
    (t < timeoutMs -> expire t x = x)
    /\ (timeoutMs <= t ->
        timeout (expire t x) = None /\ promise (expire t x) = TimeoutError
        /\ kills (expire t x) = [lit "SIGKILL"])).
  { intros t x (A & B & C). split.
    - by apply expire_early.
    - intros Hle. unfold expire. rewrite A.
      destruct (N.leb_spec timeoutMs t); [|lia].
      simpl. by rewrite B, C. }
  intros H. revert r.
  induction H as [|[t e] sched He _ IH]; intros r Hr; simpl.
  - destruct Hr as [Hr|(A & B & C & D)].
    + destruct (Hexp h r Hr) as [H1 H2]. split.
      * intros Hlt. by rewrite H1.
      * exact H2.
    + rewrite expire_cleared by done. split; [lia|done].
  - destruct (N.ltb_spec h t) as [Hcut|Hcut].
    + destruct Hr as [Hr|(A & B & C & D)].
      * destruct (Hexp h r Hr) as [H1 H2]. split.
        -- intros Hlt. by rewrite H1.
        -- exact H2.
      * rewrite expire_cleared by done. split; [lia|done].
    + apply IH. simpl in He.
      destruct Hr as [Hr|(A & B & C & D)].
      * destruct (Hexp t r Hr) as [H1 H2].
        destruct (N.lt_ge_cases t timeoutMs) as [Hlt|Hge].
        -- left. rewrite H1 by done. destruct Hr as (A & B & C).
           by destruct e.
        -- right. destruct (H2 Hge) as (A & B & C).
           destruct e; try discriminate; simpl; rewrite ?A, ?B, ?C;
             (split; [done|split; [done|split; [done|lia]]]).
      * right. rewrite expire_cleared by done.
        by destruct e.
Qed.

Lemma dispatch_armed (r : Run) (e : ChildEvent) :
  timeout r = Some timeoutMs \/ timeout r = None ->
  (timeout (dispatch r e) = Some timeoutMs \/ timeout (dispatch r e) = None)
  /\ kills (dispatch r e) = kills r.
Proof. destruct e; simpl; tauto. Qed.

(** Nothing is killed before the deadline, whatever the child does. *)
Lemma runUntil_before_deadline (h : N) (sched : list (N * ChildEvent))
    (r : Run) :
  h < timeoutMs ->
  timeout r = Some timeoutMs \/ timeout r = None ->
  kills (runUntil h sched r) = kills r.
Proof.
  intros Hh. revert r.
  assert (Hexp : forall t x, t <= h ->
    timeout x = Some timeoutMs \/ timeout x = None -> expire t x = x).
  { intros t x Hle [A|A]; [apply expire_early; [done|lia]|].
    by apply expire_cleared. }
  induction sched as [|[t e] sched IH]; intros r Hr; simpl.
  - by rewrite Hexp.
  - destruct (N.ltb_spec h t); [by rewrite Hexp|].
    rewrite (Hexp t r) by done.
    destruct (dispatch_armed r e Hr) as [H1 H2].
    by rewrite IH.
Qed.

Lemma failure_is_not_timeout (d : jsstring) :
  ExternalProcessError d <> TimeoutError.
Proof. unfold ExternalProcessError, TimeoutError. intros H. cbv in H. discriminate H. Qed.

Lemma tryBlock_no_delete (key : jsstring) (aw : Completion jsstring)
    (sf rf : option jsstring) :
  List.filter (isDelete key) (Bot.tryBlock aw sf rf).1 = [].
Proof. by destruct aw, sf, rf. Qed.

(** C8: the timer is set to five minutes.  A child that only ever
    produces output leaves the call pending, with nothing killed,
    until the deadline; from the deadline on the call is rejected with
    the time-out error, the timer is spent and the child has been sent
    SIGKILL exactly once.  When the child closes before the deadline
    the timer is cleared and nothing is ever killed.  Whatever the
    awaited call settled to, the handler removes the lock key exactly
    once and leaves a lock set without it; for the time-out it also
    replies with the time-out message. *)
Theorem C8_timeout_and_release (sched pre rest : list (N * ChildEvent))
    (t h : N) (code : option Z) (c : JsId) (aw : Completion jsstring)
    (sf rf : option jsstring) (pu : gset jsstring) :
  Forall (λ te, isData te.2 = true) sched ->
  Forall (λ te, isData te.2 = true /\ te.1 <= t) pre ->
  t < timeoutMs ->
  let never := runUntil h sched r0 in
  let normal := runUntil h (pre ++ (t, Close code) :: rest) r0 in
  let finished := Bot.onText_settle c aw sf rf pu in
  timeoutMs = 300000
  /\ (h < timeoutMs -> promise never = Pending /\ kills never = [])
  /\ (timeoutMs <= h ->
      promise never = TimeoutError /\ kills never = [lit "SIGKILL"]
      /\ timeout never = None)
  /\ kills normal = []
  /\ (t <= h ->
      timeout normal = None /\ promise normal <> Pending
      /\ promise normal <> TimeoutError)
  /\ Bot.awaited TimeoutError
     = Some (Throw (lit "Claude Code timed out after 5 minutes"))
  /\ deletions (Bot.lockKey c) finished.1.1 = 1%nat
  /\ (Bot.lockKey c ∉ snd finished)
  /\ (aw = Throw (lit "Claude Code timed out after 5 minutes") ->
      Bot.Reply
        (Bot.errorReply (lit "Claude Code timed out after 5 minutes"))
      ∈ finished.1.1).
Proof.
  intros Hsched Hpre Ht never normal finished.
  assert (Hstart : timeout r0 = Some timeoutMs /\ promise r0 = Pending
                   /\ kills r0 = []) by done.
  destruct (runUntil_only_output h sched r0 Hsched (or_introl Hstart))
    as [Hearly Hlate].
  split; [reflexivity|].
  split; [intros Hh; by destruct (Hearly Hh) as (_ & ? & ?)|].
  split; [intros Hh; by destruct (Hlate Hh) as (? & ? & ?)|].
  assert (Hnormal : t <= h ->
    timeout normal = None /\ kills normal = []
    /\ promise normal <> Pending /\ promise normal <> TimeoutError).
  { intros Hh. subst normal.
    destruct (runUntil_output_then h t pre rest (Close code) Hpre Ht Hh)
      as (r & -> & A & B & C & D & E).
    destruct (runUntil_cleared h rest (dispatch r (Close code)))
      as [H1 H2]; [done|].
    rewrite H1, H2. split; [done|]. split; [done|].
    assert (Hp : promise (dispatch r (Close code)) <> Pending
                 /\ promise (dispatch r (Close code)) <> TimeoutError).
    { simpl. rewrite C. case_decide; simpl; (split; [done|]); [done|].
      apply failure_is_not_timeout. }
    rewrite runUntil_settled by apply Hp. exact Hp. }
  split.
  { destruct (N.lt_ge_cases h t) as [Hlt|Hge].
    - subst normal. rewrite runUntil_before_deadline; [done|lia|by left].
    - by destruct (Hnormal Hge) as (_ & ? & _). }
  split; [intros Hh; by destruct (Hnormal Hh) as (? & _ & ? & ?)|].
  split; [reflexivity|].
  subst finished. unfold Bot.onText_settle.
  pose proof (tryBlock_no_delete (Bot.lockKey c) aw sf rf) as Hnone.
  destruct (Bot.tryBlock aw sf rf) as [effects completion] eqn:Etry.
  simpl in *.
  split; [|split].
  - unfold deletions. rewrite List.filter_app, Hnone. simpl.
    by rewrite bool_decide_true.
  - unfold Bot.release. rewrite elem_of_difference, elem_of_singleton. tauto.
  - intros ->. apply elem_of_app. left.
    destruct sf, rf; simpl in Etry; injection Etry as <- _;
      apply list_elem_of_here.
Qed.

End Invocation.

(** ** Replacement with a regular expression *)

Section Replace.
Import Regex.

Variables (re : regex) (by_ : jsstring).

Lemma replaceFrom_skip (l rest : jsstring) (prev : option N) :
  replaceFrom re by_ (length l) prev (l ++ rest)
  = replaceFrom re by_ O (after prev l) rest.
Proof.
  revert prev. induction l as [|x l IH]; intros prev; [done|].
  simpl. apply IH.
Qed.


(** Without [^] the code unit before the position plays no part. *)
Lemma replaceFrom_prev (s : jsstring) (skip : nat) (p p' : option N) :
  (forall q q' u, matchHere re q u = matchHere re q' u) ->
  replaceFrom re by_ skip p s = replaceFrom re by_ skip p' s.
Proof.
  intros H. revert skip p p'. induction s as [|y s IH]; intros skip p p'; simpl.
  - by rewrite (H p p').
  - destruct skip; [|done]. by rewrite (H p p').
Qed.

End Replace.

Lemma many_prev (c : N -> bool) (min : nat)
    (next : option N -> jsstring -> option nat) (s : jsstring) (n : nat)
    (p p' : option N) :
  (forall q q' u, next q u = next q' u) ->
  Regex.many c min next n p s = Regex.many c min next n p' s.
Proof.
  intros H. revert n p p'. induction s as [|x s IH]; intros n p p'; simpl.
  - by rewrite (H p p').
  - by rewrite (H p p').
Qed.

(** ** trim *)

Lemma trimStart_suffix (s : jsstring) : exists u, s = u ++ trimStart s.
Proof.
  induction s as [|c s [u IH]]; [by exists []|]. simpl.
  destruct (isWhiteSpace c).
  - exists (c :: u). by rewrite IH at 1.
  - by exists [].
Qed.


Lemma trimEnd_prefix (s : jsstring) : exists v, s = trimEnd s ++ v.
Proof.
  unfold trimEnd. destruct (trimStart_suffix (rev s)) as [u Hu].
  exists (rev u). rewrite <- rev_app_distr, <- Hu. by rewrite rev_involutive.
Qed.


(** [trim] keeps a stretch of its argument that neither starts nor ends
    with white space. *)
Lemma trim_infix (s : jsstring) : exists u v, s = u ++ trim s ++ v.
Proof.
  unfold trim. destruct (trimStart_suffix s) as [u Hu].
  destruct (trimEnd_prefix (trimStart s)) as [v Hv].
  exists u, v. by rewrite <- Hv.
Qed.



(** ** The four replacements of [cleanClaudeResponse] *)

Section Sanitiser.
Import Regex Claude.

(** *** Carriage returns *)



End Sanitiser.

Section Collapse.
Import Regex Claude.

(** *** Runs of line feeds *)

Lemma lfRun_repeat (n : nat) (s : jsstring) :
  lfRun (repeat LF n ++ s) = (n + lfRun s)%nat.
Proof. induction n as [|n IH]; [done|]. simpl. by rewrite IH. Qed.

Lemma lfRun_split (s : jsstring) :
  s = repeat LF (lfRun s) ++ drop (lfRun s) s
  /\ lfRun (drop (lfRun s) s) = O.
Proof.
  induction s as [|x s [IH1 IH2]]; [done|]. simpl.
  destruct (N.eqb_spec x LF) as [->|Hx]; simpl.
  - split; [by rewrite <- IH1|exact IH2].
  - split; [done|]. simpl. by rewrite (proj2 (N.eqb_neq x LF)).
Qed.

(** Induction over a string cut into runs of line feeds and the code
    units between them. *)
Lemma run_ind (P : jsstring -> Prop) :
  P [] ->
  (forall x s, x <> LF -> P s -> P (x :: s)) ->
  (forall n s, (1 <= n)%nat -> lfRun s = O -> P s -> P (repeat LF n ++ s)) ->
  forall s, P s.
Proof.
  intros Hnil Hcons Hrun s.
  remember (length s) as len eqn:Hlen. revert s Hlen.
  induction len as [len IH] using lt_wf_ind. intros s Hlen.
  destruct s as [|x s]; [exact Hnil|].
  destruct (N.eqb_spec x LF) as [->|Hx].
  - destruct (lfRun_split (LF :: s)) as [H1 H2].
    rewrite H1. apply Hrun; [simpl; lia|exact H2|].
    apply (IH (length (drop (lfRun (LF :: s)) (LF :: s)))); [|done].
    rewrite Hlen, length_drop. simpl. lia.
  - apply Hcons; [exact Hx|]. apply (IH (length s)); [|done].
    rewrite Hlen. simpl. lia.
Qed.

Lemma many_LF (s : jsstring) (n : nat) (p : option N) :
  many (code LF) 3 (matchHere []) n p s
  = if (3 <=? n + lfRun s)%nat then Some (lfRun s) else None.
Proof.
  revert n p. induction s as [|x s IH]; intros n p; cbn [many lfRun].
  - by rewrite Nat.add_0_r.
  - unfold code at 1. destruct (x =? LF).
    + rewrite IH, <- Nat.add_succ_comm.
      destruct (Nat.leb_spec 3 (S n + lfRun s)); [done|].
      destruct (Nat.leb_spec 3 n); [lia|done].
    + by rewrite Nat.add_0_r.
Qed.

Lemma matchHere_blank (p : option N) (s : jsstring) :
  matchHere blankRe p s
  = if (3 <=? lfRun s)%nat then Some (lfRun s) else None.
Proof. apply many_LF. Qed.

Lemma collapse_from (p : option N) (s : jsstring) :
  replaceFrom blankRe [LF; LF] O p s = collapseBlank s.
Proof.
  apply replaceFrom_prev. intros q q' u. by rewrite !matchHere_blank.
Qed.

Lemma collapse_nil : collapseBlank [] = [].
Proof. reflexivity. Qed.

Lemma collapse_cons (x : N) (s : jsstring) :
  x <> LF -> collapseBlank (x :: s) = x :: collapseBlank s.
Proof.
  intros Hx. unfold collapseBlank, replaceAll at 1.
  cbn [replaceFrom]. rewrite matchHere_blank. simpl.
  rewrite (proj2 (N.eqb_neq x LF) Hx). simpl.
  by rewrite collapse_from.
Qed.

(** A run of one or two line feeds is kept, a longer one becomes two
    line feeds: one blank line. *)
Lemma collapse_run (n : nat) (s : jsstring) :
  (1 <= n)%nat -> lfRun s = O ->
  collapseBlank (repeat LF n ++ s) = collapsedRun n ++ collapseBlank s.
Proof.
  intros Hn Hs. unfold collapsedRun.
  destruct n as [|n]; [lia|].
  unfold collapseBlank, replaceAll at 1. cbn [repeat app replaceFrom].
  rewrite matchHere_blank.
  change (LF :: repeat LF n ++ s) with (repeat LF (S n) ++ s).
  rewrite lfRun_repeat, Hs, Nat.add_0_r.
  destruct (Nat.leb_spec 3 (S n)) as [Hlong|Hshort].
  - rewrite <- (repeat_length LF n) at 1.
    rewrite replaceFrom_skip, collapse_from. done.
  - rewrite collapse_from. destruct n as [|[|n]]; [done| |lia].
    simpl. f_equal.
    unfold collapseBlank, replaceAll at 1. cbn [replaceFrom].
    rewrite matchHere_blank. simpl. rewrite Hs. simpl.
    by rewrite collapse_from.
Qed.

Lemma collapsedRun_short (n : nat) :
  exists m, collapsedRun n = repeat LF m /\ (m <= 2)%nat /\ (1 <= n -> 1 <= m)%nat.
Proof.
  unfold collapsedRun. destruct (Nat.leb_spec 3 n).
  - exists 2%nat. repeat split; lia.
  - exists n. repeat split; lia.
Qed.

Lemma lfBounded_cons (x : N) (s : jsstring) :
  x <> LF -> lfBounded s -> lfBounded (x :: s).
Proof.
  intros Hx Hs [|y a] b E; simpl in E.
  - subst b. simpl. rewrite (proj2 (N.eqb_neq x LF) Hx). lia.
  - injection E as _ E. by apply (Hs a b).
Qed.

Lemma lfBounded_run (m : nat) (s : jsstring) :
  (m <= 2)%nat -> lfRun s = O -> lfBounded s -> lfBounded (repeat LF m ++ s).
Proof.
  intros Hm H0 Hs. induction m as [|m IH]; [exact Hs|].
  intros [|y a] b E; simpl in E.
  - subst b. change (LF :: repeat LF m ++ s) with (repeat LF (S m) ++ s).
    rewrite lfRun_repeat, H0. lia.
  - injection E as _ E. apply (IH ltac:(lia) a b E).
Qed.

(** The result of the fourth replacement never has three line feeds in
    a row. *)
Lemma collapse_bounded (s : jsstring) :
  lfBounded (collapseBlank s) /\ (lfRun s = O -> lfRun (collapseBlank s) = O).
Proof.
  induction s as [|x s Hx [IH1 IH2]|n s Hn Hs [IH1 IH2]] using run_ind.
  - split; [|done]. intros a b E. symmetry in E.
    apply app_eq_nil in E as [_ ->]. simpl. lia.
  - rewrite (collapse_cons x s Hx). split.
    + by apply lfBounded_cons.
    + intros _. simpl. by rewrite (proj2 (N.eqb_neq x LF) Hx).
  - rewrite (collapse_run n s Hn Hs).
    destruct (collapsedRun_short n) as (m & -> & Hm & _). split.
    + apply lfBounded_run; [done|by apply IH2|done].
    + rewrite lfRun_repeat. destruct n; [lia|]. simpl. discriminate.
Qed.



End Collapse.

Section Spinner.
Import Regex Claude.

(** *** Spinner lines *)

Lemma spinner_is_dot (g : N) : isSpinner g = true -> dot g = true.
Proof.
  unfold isSpinner, spinnerGlyphs. simpl. rewrite !orb_true_iff.
  intros H. repeat (destruct H as [H|H]); try discriminate;
    apply N.eqb_eq in H; by subst g.
Qed.


Lemma after_dot (l : jsstring) (g : N) :
  dot g = true -> Forall (λ x, dot x = true) l ->
  atLineStart (after (Some g) l) = false.
Proof.
  intros Hg Hl. revert g Hg. induction Hl as [|x l Hx _ IH]; intros g Hg.
  - simpl. unfold dot in Hg. by destruct (isLineTerminator g).
  - simpl. by apply IH.
Qed.







(** *** Escape sequences *)





End Spinner.

Section Clean.
Import Regex Claude.













End Clean.

(** ** The first revision of the wrapper *)

(** With [config] built from the very environment the child inherits,
    both revisions hand the child the parent's environment. *)
Lemma spawnEnv_of_config (processEnv : environ) (cwd : jsstring)
    (allowed : list (option Z)) :
  Legacy.spawnEnv (config processEnv cwd allowed) processEnv = processEnv
  /\ Claude.spawnEnv (config processEnv cwd allowed) processEnv = processEnv.
Proof.
  unfold Legacy.spawnEnv, Claude.spawnEnv. simpl.
  destruct (processEnv !! lit "ANTHROPIC_API_KEY") as [key|] eqn:E.
  - rewrite (insert_id _ _ _ E). split; [done|]. by destruct (truthy key).
  - split; [|done]. by apply delete_id.
Qed.

(** On a failure with nothing on the standard error, the first revision
    reports `Unknown error' where the later one reports the standard
    output. *)
Lemma legacy_failure_without_stdout (out : jsstring) :
  out <> [] ->
  Legacy.failure [] = Claude.ExternalProcessError (lit "Unknown error")
  /\ Claude.ExternalProcessError (js_or [] (js_or out (lit "Unknown error")))
     = Claude.ExternalProcessError out.
Proof. intros H. split; [reflexivity|]. by destruct out. Qed.

(** ** Instances *)

Lemma countingUUID_fresh (i j : nat) :
  countingUUID i = countingUUID j -> i = j.
Proof. intros H%js_String_num_inj. lia. Qed.

Lemma noSessions_unseen : Sessions.unseen countingUUID noSessions.
Proof.
  unfold Sessions.unseen, noSessions. simpl. intros k info i H.
  by rewrite lookup_empty in H.
Qed.

Lemma C3_session_store_witness :
  let k := lit "telegram-42-6530f9eb" in
  let calls := [Sessions.CallGet noon k; Sessions.CallReset noon k] in
  Sessions.unseen countingUUID noSessions
  /\ forall h,
      (k, h) ∈ (Sessions.performAll countingUUID calls noSessions).1 ->
      (Sessions.resetSession countingUUID noon k
         (Sessions.performAll countingUUID calls noSessions).2).1 <> h.
Proof.
  intros k calls. split; [exact noSessions_unseen|].
  apply (C3_session_store countingUUID countingUUID_fresh calls noSessions
           noon noon k noSessions_unseen).
Defined.

Lemma C4_one_slot_per_conversation_witness :
  Bot.tryAcquire (IdNum 42) ∅ = (true, {[Bot.lockKey (IdNum 42)]} ∪ ∅)
  /\ Bot.tryAcquire (IdNum 42) (Bot.tryAcquire (IdNum 42) ∅).2
     = (false, (Bot.tryAcquire (IdNum 42) ∅).2)
  /\ (Bot.running
        (fold_left Bot.tick
           [Bot.Message (IdNum 42); Bot.Message (IdNum 42);
            Bot.Settle (IdNum 42); Bot.Message (IdNum 42)] Bot.idle)
        (IdNum 42) <= 1)%nat.
Proof.
  assert (H42 : Bot.lockKey (IdNum 42) ∉ (∅ : gset jsstring))
    by apply not_elem_of_empty.
  assert (H43 : Bot.lockKey (IdNum 43) ∉ (∅ : gset jsstring))
    by apply not_elem_of_empty.
  assert (Hne : (42 <> 43)%Z) by lia.
  destruct (C4_one_slot_per_conversation (IdNum 42) 42 43 ∅
              [Bot.Message (IdNum 42); Bot.Message (IdNum 42);
               Bot.Settle (IdNum 42); Bot.Message (IdNum 42)]
              H42 Hne H42 H43)
    as (_ & Hsecond & _ & _ & _ & _ & Hone & _).
  split; [by apply tryAcquire_free|]. split; [exact Hsecond|exact Hone].
Defined.

Lemma C5_outcome_classification_witness :
  let r0 := Claude.executeClaudeCode defaultConfig ∅ [] (lit "hi") None in
  let pre := [(10, Claude.StdoutData (lit "hello "));
              (15, Claude.StderrData (lit "oops"));
              (20, Claude.StdoutData (lit "world "))] in
  Claude.promise
    (Claude.runUntil 400000
       (pre ++ (25, Claude.Close (Some 0%Z)) :: [(30, Claude.Error [])]) r0)
  = Claude.Resolved (lit "hello world")
  /\ Claude.promise
       (Claude.runUntil 400000 (pre ++ [(25, Claude.Close (Some 1%Z))]) r0)
     = Claude.ExternalProcessError (lit "oops")
  /\ Claude.promise
       (Claude.runUntil 400000 (pre ++ [(25, Claude.Error (lit "ENOENT"))]) r0)
     = Claude.SpawnError (lit "ENOENT")
  /\ Claude.promise
       (Claude.runUntil 400000
          [(25, Claude.StderrData shellNotFound);
           (25, Claude.Close (Some 127%Z)); (30, Claude.Error [])] r0)
     = Claude.ExternalProcessError shellNotFound.
Proof.
  intros r0 pre.
  assert (Hpre : Forall (λ te, isData te.2 = true /\ te.1 <= 25) pre).
  { repeat constructor; simpl; lia. }
  assert (Ht : 25 < Claude.timeoutMs) by (vm_compute; reflexivity).
  assert (Hh : 25 <= 400000) by lia.
  destruct (C5_outcome_classification defaultConfig ∅ [] (lit "hi") None
              pre [(30, Claude.Error [])] 25 400000 (Some 0%Z)
              (lit "ENOENT") Hpre Ht Hh) as (Hok & _ & _).
  destruct (C5_outcome_classification defaultConfig ∅ [] (lit "hi") None
              pre [] 25 400000 (Some 0%Z)
              (lit "ENOENT") Hpre Ht Hh) as (_ & _ & Hspawn & _).
  destruct (C5_outcome_classification defaultConfig ∅ [] (lit "hi") None
              pre [(30, Claude.Error [])] 25 400000 (Some 0%Z)
              (lit "ENOENT") Hpre Ht Hh) as (_ & _ & _ & _ & Hmissing).
  destruct (C5_outcome_classification defaultConfig ∅ [] (lit "hi") None
              pre [] 25 400000 (Some 1%Z)
              (lit "ENOENT") Hpre Ht Hh) as (_ & Hfail & _).
  destruct Hfail as (diagnostic & Hclosed & Herr & _); [discriminate|].
  assert (Hd : diagnostic = lit "oops") by (apply Herr; discriminate).
  rewrite Hd in Hclosed.
  split; [exact (Hok eq_refl)|]. split; [exact Hclosed|].
  split; [exact Hspawn|exact Hmissing].
Defined.

(** The call asks [spawn] for a shell, so a claude binary that is not
    there is an exit with status 127 and so the failure of an external
    process, not a failure to start one. *)
Lemma C5_missing_binary_is_an_exit_status :
  let r0 := Claude.executeClaudeCode defaultConfig ∅ [] (lit "hi") None in
  let outcome :=
    Claude.promise
      (Claude.runUntil 1000
         (missingBinary (Claude.shell (Claude.spawned r0)) 10) r0) in
  Claude.shell (Claude.spawned r0) = true
  /\ outcome = Claude.ExternalProcessError shellNotFound
  /\ (forall reason, outcome <> Claude.SpawnError reason).
Proof.
  intros r0 outcome.
  split; [reflexivity|]. split; [vm_compute; reflexivity|].
  intros reason H. vm_compute in H. discriminate H.
Qed.

Lemma C7_set_rejects_invalid_path_witness :
  exists reason,
    Repos.setRepoForChat onlyFiles noon (IdNum 42) (lit "/etc/passwd")
      (reposWith (IdNum 42) (lit "/repo"))
    = (InvalidPathError (lit "/etc/passwd") reason,
       reposWith (IdNum 42) (lit "/repo"))
    /\ reason = lit "Path is not a directory".
Proof.
  destruct (C7_set_rejects_invalid_path onlyFiles noon (IdNum 42)
              (lit "/etc/passwd") (reposWith (IdNum 42) (lit "/repo")))
    as (reason & Hthrow & [Hstat|[_ Hreason]] & _).
  - right. reflexivity.
  - discriminate Hstat.
  - exists reason. by split.
Defined.

Lemma C8_timeout_and_release_witness :
  let r0 := Claude.executeClaudeCode defaultConfig ∅ [] (lit "hi") None in
  let never := Claude.runUntil 300000
                 [(1000, Claude.StdoutData (lit "thinking"))] r0 in
  Claude.promise never = Claude.TimeoutError
  /\ Claude.kills never = [lit "SIGKILL"]
  /\ Claude.promise
       (Claude.runUntil 299999
          [(1000, Claude.StdoutData (lit "thinking"))] r0) = Claude.Pending
  /\ Claude.kills
       (Claude.runUntil 400000
          [(2000, Claude.Close (Some 0%Z)); (3000, Claude.Error [])] r0) = []
  /\ deletions (Bot.lockKey (IdNum 42))
       (Bot.onText_settle (IdNum 42)
          (Throw (lit "Claude Code timed out after 5 minutes")) None None
          {[Bot.lockKey (IdNum 42)]}).1.1 = 1%nat.
Proof.
  intros r0 never.
  assert (Hs : Forall (λ te : N * Claude.ChildEvent, isData te.2 = true)
                 [(1000, Claude.StdoutData (lit "thinking"))])
    by (repeat constructor).
  assert (Hp : Forall (λ te : N * Claude.ChildEvent,
                         isData te.2 = true /\ te.1 <= 5) [])
    by constructor.
  assert (Ht : 5 < Claude.timeoutMs) by (vm_compute; reflexivity).
  destruct (C8_timeout_and_release defaultConfig ∅ [] (lit "hi") None
              [(1000, Claude.StdoutData (lit "thinking"))] [] [] 5 300000
              (Some 0%Z) (IdNum 42)
              (Throw (lit "Claude Code timed out after 5 minutes")) None None
              {[Bot.lockKey (IdNum 42)]} Hs Hp Ht)
    as (_ & _ & Hlate & _ & _ & _ & Hdel & _).
  destruct Hlate as (H1 & H2 & _); [vm_compute; discriminate|].
  assert (Ht2 : 2000 < Claude.timeoutMs) by (vm_compute; reflexivity).
  destruct (C8_timeout_and_release defaultConfig ∅ [] (lit "hi") None
              [(1000, Claude.StdoutData (lit "thinking"))] []
              [(3000, Claude.Error [])] 2000 299999
              (Some 0%Z) (IdNum 42) (Return []) None None ∅ Hs
              ltac:(constructor) Ht2)
    as (_ & Hearly & _ & _ & _).
  destruct Hearly as (H3 & _); [vm_compute; reflexivity|].
  destruct (C8_timeout_and_release defaultConfig ∅ [] (lit "hi") None
              [] [] [(3000, Claude.Error [])] 2000 400000
              (Some 0%Z) (IdNum 42) (Return []) None None ∅
              ltac:(constructor) ltac:(constructor) Ht2)
    as (_ & _ & _ & Hquiet & _).
  split; [exact H1|]. split; [exact H2|]. split; [exact H3|].
  split; [exact Hquiet|exact Hdel].
Defined.

Lemma C9_child_environment_witness :
  let cfg := config {[ lit "ANTHROPIC_API_KEY" := lit "sk-test" ]}
               (lit "/repo") [] in
  Claude.env (Claude.spawned
                (Claude.executeClaudeCode cfg ∅ [] (lit "hi") None))
  = <[lit "ANTHROPIC_API_KEY" := lit "sk-test"]> ∅
  /\ Claude.env (Claude.spawned
                   (Claude.executeClaudeCode defaultConfig
                      {[ lit "HOME" := lit "/root" ]} [] (lit "hi") None))
     = {[ lit "HOME" := lit "/root" ]}.
Proof.
  intros cfg. split.
  - apply (C9_child_environment cfg ∅ [] (lit "hi") None).
    + unfold cfg. simpl. apply lookup_singleton_eq.
    + discriminate.
  - apply (C9_child_environment defaultConfig
             {[ lit "HOME" := lit "/root" ]} [] (lit "hi") None).
    left. unfold defaultConfig. simpl. apply lookup_empty.
Defined.

(** * Further properties *)

(** ** Splitting a long message *)

Section Split.
Import Messages.

Lemma lastIndexScan_range (c : N) (s : jsstring) (pos from found : Z) :
  (-1 <= found <= from)%Z -> (0 <= pos)%Z ->
  (-1 <= lastIndexScan c s pos from found <= from)%Z.
Proof.
  revert pos found. induction s as [|x s IH]; intros pos found Hf Hp; simpl.
  - exact Hf.
  - destruct (Z.ltb_spec from pos); [exact Hf|].
    apply IH; [|lia]. destruct (x =? c); lia.
Qed.

Lemma lastIndexOf_range (c : N) (s : jsstring) (from : Z) :
  (0 <= from)%Z -> (-1 <= lastIndexOf c s from <= from)%Z.
Proof. intros H. apply lastIndexScan_range; lia. Qed.

Lemma usable_range (i : Z) (maxLength : nat) :
  unusable i maxLength = false -> (-1 <= i)%Z ->
  (0 <= i)%Z /\ ((1 <= maxLength)%nat -> (1 <= i)%Z).
Proof.
  unfold unusable. rewrite orb_false_iff, Z.eqb_neq, Z.ltb_ge. lia.
Qed.

(** The cut is inside the window, and after its first code unit when
    the window is not empty. *)
Lemma splitIndex_range (remaining : jsstring) (maxLength : nat) :
  (0 <= splitIndex remaining maxLength <= Z.of_nat maxLength)%Z
  /\ ((1 <= maxLength)%nat -> (1 <= splitIndex remaining maxLength)%Z).
Proof.
  unfold splitIndex.
  pose proof (lastIndexOf_range 0x0A remaining (Z.of_nat maxLength)
                ltac:(lia)) as Hn.
  pose proof (lastIndexOf_range 0x20 remaining (Z.of_nat maxLength)
                ltac:(lia)) as Hs.
  destruct (unusable (lastIndexOf 0x0A remaining (Z.of_nat maxLength))
              maxLength) eqn:E1.
  - destruct (unusable (lastIndexOf 0x20 remaining (Z.of_nat maxLength))
                maxLength) eqn:E2; [lia|].
    apply usable_range in E2; lia.
  - rewrite E1. apply usable_range in E1; lia.
Qed.

Lemma trim_length (s : jsstring) : (length (trim s) <= length s)%nat.
Proof.
  destruct (trim_infix s) as (u & v & E).
  rewrite E at 2. rewrite !length_app. lia.
Qed.

Lemma trimStart_inked (s : jsstring) : inked (trimStart s) = inked s.
Proof.
  induction s as [|c s IH]; [done|]. cbn [trimStart].
  destruct (isWhiteSpace c) eqn:E; [|done].
  rewrite IH. unfold inked. simpl. by rewrite E.
Qed.

Lemma inked_app (a b : jsstring) : inked (a ++ b) = inked a ++ inked b.
Proof. apply List.filter_app. Qed.

Lemma inked_rev (s : jsstring) : inked (rev s) = rev (inked s).
Proof.
  unfold inked. induction s as [|c s IH]; [done|]. simpl.
  rewrite List.filter_app, IH. simpl.
  destruct (negb (isWhiteSpace c)); simpl; [done|by rewrite app_nil_r].
Qed.

(** [trim] only drops white space. *)
Lemma trim_inked (s : jsstring) : inked (trim s) = inked s.
Proof.
  unfold trim, trimEnd.
  by rewrite inked_rev, trimStart_inked, inked_rev, rev_involutive,
    trimStart_inked.
Qed.

Lemma splitLoop_total (fuel maxLength : nat) (remaining : jsstring) :
  (1 <= maxLength)%nat -> (length remaining < fuel)%nat ->
  exists parts, splitLoop fuel maxLength remaining = Some parts.
Proof.
  intros Hm. revert remaining.
  induction fuel as [|fuel IH]; intros remaining Hf; [lia|].
  cbn [splitLoop]. destruct remaining as [|c r]; [by eexists|].
  destruct (Nat.leb_spec (length (c :: r)) maxLength); [by eexists|].
  destruct (splitIndex_range (c :: r) maxLength) as [[H0 H1] H2].
  specialize (H2 Hm).
  destruct (IH (trim (drop (Z.to_nat (splitIndex (c :: r) maxLength))
                        (c :: r)))) as [parts ->]; [|by eexists].
  pose proof (trim_length (drop (Z.to_nat (splitIndex (c :: r) maxLength))
                             (c :: r))) as Ht.
  rewrite length_drop in Ht. lia.
Qed.

Lemma splitLoop_more_fuel (fuel fuel' maxLength : nat)
    (remaining : jsstring) (parts : list jsstring) :
  splitLoop fuel maxLength remaining = Some parts -> (fuel <= fuel')%nat ->
  splitLoop fuel' maxLength remaining = Some parts.
Proof.
  revert fuel' remaining parts.
  induction fuel as [|fuel IH]; intros fuel' remaining parts H Hle;
    [discriminate|].
  destruct fuel' as [|fuel']; [lia|]. cbn [splitLoop] in *.
  destruct remaining as [|c r]; [done|].
  destruct (length (c :: r) <=? maxLength)%nat; [done|].
  destruct (splitLoop fuel maxLength _) as [rest|] eqn:E; [|discriminate].
  rewrite (IH fuel' _ rest E); [done|lia].
Qed.

Lemma splitLoop_parts (fuel maxLength : nat) (remaining : jsstring)
    (parts : list jsstring) :
  splitLoop fuel maxLength remaining = Some parts ->
  Forall (λ p, (length p <= maxLength)%nat) parts
  /\ ((1 <= maxLength)%nat -> Forall (λ p, p <> []) parts)
  /\ inked (concat parts) = inked remaining.
Proof.
  revert remaining parts.
  induction fuel as [|fuel IH]; intros remaining parts H; [discriminate|].
  cbn [splitLoop] in H. destruct remaining as [|c r].
  { injection H as <-. by repeat split. }
  destruct (Nat.leb_spec (length (c :: r)) maxLength) as [Hshort|Hlong].
  { injection H as <-. split; [by repeat constructor|].
    split; [by repeat constructor|]. simpl. by rewrite app_nil_r. }
  destruct (splitIndex_range (c :: r) maxLength) as [[H0 H1] H2].
  set (i := Z.to_nat (splitIndex (c :: r) maxLength)) in *.
  destruct (splitLoop fuel maxLength (trim (drop i (c :: r))))
    as [rest|] eqn:E; [|discriminate].
  injection H as <-. destruct (IH _ _ E) as (IHa & IHb & IHc).
  split; [|split].
  - constructor; [|exact IHa]. rewrite length_take. lia.
  - intros Hm. constructor; [|by apply IHb].
    intros Hnil. apply (f_equal length) in Hnil.
    rewrite length_take in Hnil. simpl in Hnil.
    specialize (H2 Hm). simpl in Hlong. lia.
  - cbn [concat]. rewrite inked_app, IHc, trim_inked, <- inked_app.
    by rewrite take_drop.
Qed.

(** X1: with a positive limit [splitMessage] finishes, every part is
    within the limit, no part of a non-empty text is empty, and a text
    within the limit comes back as its single part. *)
Theorem X1_splitMessage_parts (text : jsstring) (maxLength : nat) :
  (1 <= maxLength)%nat ->
  exists parts,
    (forall fuel, (length text < fuel)%nat ->
       splitMessage fuel text maxLength = Some parts)
    /\ Forall (λ p, (length p <= maxLength)%nat) parts
    /\ (text <> [] -> Forall (λ p, p <> []) parts)
    /\ ((length text <= maxLength)%nat -> parts = [text]).
Proof.
  intros Hm. unfold splitMessage.
  destruct (Nat.leb_spec (length text) maxLength) as [Hshort|Hlong].
  - exists [text]. split; [done|]. split; [by repeat constructor|].
    split; [by repeat constructor|done].
  - destruct (splitLoop_total (S (length text)) maxLength text Hm
                ltac:(lia)) as [parts Hparts].
    exists parts. destruct (splitLoop_parts _ _ _ _ Hparts) as (A & B & _).
    split; [|split; [exact A|split; [intros _; by apply B|lia]]].
    intros fuel Hfuel.
    apply (splitLoop_more_fuel (S (length text))); [exact Hparts|lia].
Qed.

(** X2: the parts, put end to end, hold the code units of the text that
    are not white space, all of them and in order: splitting loses
    white space only. *)
Theorem X2_splitMessage_keeps_text (fuel : nat) (text : jsstring)
    (maxLength : nat) (parts : list jsstring) :
  splitMessage fuel text maxLength = Some parts ->
  inked (concat parts) = inked text.
Proof.
  unfold splitMessage.
  destruct (length text <=? maxLength)%nat.
  - intros [= <-]. simpl. by rewrite app_nil_r.
  - intros H. by destruct (splitLoop_parts _ _ _ _ H) as (_ & _ & ?).
Qed.

Lemma splitMessage_default (text : jsstring) :
  exists parts,
    splitMessage (S (length text)) text 4000 = Some parts
    /\ Forall (λ p, (length p <= 4000)%nat) parts
    /\ inked (concat parts) = inked text.
Proof.
  unfold splitMessage.
  destruct (Nat.leb_spec (length text) 4000) as [Hshort|Hlong].
  - exists [text]. split; [done|].
    split; [constructor; [exact Hshort|constructor]|].
    simpl. by rewrite app_nil_r.
  - destruct (splitLoop_total (S (length text)) 4000 text ltac:(lia)
                ltac:(lia)) as [parts Hparts].
    exists parts. by destruct (splitLoop_parts _ _ _ _ Hparts) as (A & _ & B).
Qed.

Lemma trim_inked_id (s : jsstring) :
  Forall (λ c, isWhiteSpace c = false) s -> trim s = s.
Proof.
  intros H. unfold trim, trimEnd.
  assert (Hs : forall u, Forall (λ c, isWhiteSpace c = false) u ->
                         trimStart u = u).
  { intros u Hu. destruct Hu as [|c u Hc _]; [done|]. simpl. by rewrite Hc. }
  rewrite (Hs s H), Hs, rev_involutive; [done|].
  apply Forall_forall. intros c Hc. apply list_elem_of_In in Hc.
  apply in_rev in Hc. rewrite Forall_forall in H. apply H.
  by apply list_elem_of_In.
Qed.

Lemma lastIndexScan_absent (c : N) (s : jsstring) (pos from found : Z) :
  c ∉ s -> lastIndexScan c s pos from found = found.
Proof.
  revert pos found. induction s as [|x s IH]; intros pos found Hc; [done|].
  simpl. destruct (from <? pos)%Z; [done|].
  rewrite not_elem_of_cons in Hc. destruct Hc as [Hx Hs].
  rewrite (proj2 (N.eqb_neq x c)) by done. by apply IH.
Qed.

(** X3: with the limit 0 the loop does not end on a non-empty text
    without white space: every round pushes an empty part and leaves
    the text as it is. *)
Theorem X3_splitMessage_limit_zero (fuel : nat) (text : jsstring) :
  text <> [] -> Forall (λ c, isWhiteSpace c = false) text ->
  splitMessage fuel text 0 = None.
Proof.
  intros Hne Hink. unfold splitMessage.
  destruct text as [|c r]; [done|]. cbn [length Nat.leb].
  induction fuel as [|fuel IH]; [done|]. cbn [splitLoop length Nat.leb].
  assert (Hnl : forall w, isWhiteSpace w = true -> w ∉ c :: r).
  { intros w Hw Hin. rewrite Forall_forall in Hink.
    specialize (Hink w Hin). congruence. }
  assert (Hi : splitIndex (c :: r) 0 = 0%Z).
  { unfold splitIndex, lastIndexOf.
    rewrite !lastIndexScan_absent by (apply Hnl; reflexivity).
    reflexivity. }
  rewrite Hi. simpl Z.to_nat. rewrite drop_0, (trim_inked_id _ Hink), IH.
  reflexivity.
Qed.

End Split.

(** ** Sending the parts *)

Section Send.
Import Messages.

Lemma delivered_ok (p : jsstring) (m : bool) (log : list Attempt) :
  delivered ({| sent := p; markdown := m; failure := None |} :: log)
  = p :: delivered log.
Proof. reflexivity. Qed.

Lemma delivered_failed (p e : jsstring) (m : bool) (log : list Attempt) :
  delivered ({| sent := p; markdown := m; failure := Some e |} :: log)
  = delivered log.
Proof. reflexivity. Qed.

Lemma sendParts_log (reply : Telegram) (n : nat) (parts : list jsstring) :
  let log := (sendParts reply n parts).1 in
  let c := (sendParts reply n parts).2 in
  (c = Return tt -> delivered log = parts)
  /\ (forall e, c = Throw e ->
        exists sentParts part rest,
          parts = sentParts ++ part :: rest /\ delivered log = sentParts)
  /\ ((forall k p, reply k p false = None) -> c = Return tt).
Proof.
  revert n. induction parts as [|part rest IH]; intros n.
  - simpl. split; [done|]. split; [discriminate|done].
  - cbn [sendParts]. destruct (reply n part true) as [e|] eqn:E1.
    + destruct (reply (S n) part false) as [e'|] eqn:E2.
      * cbn [fst snd]. split; [discriminate|]. split.
        -- intros _ _. by exists [], part, rest.
        -- intros H. by rewrite H in E2.
      * destruct (IH (S (S n))) as (A & B & C).
        destruct (sendParts reply (S (S n)) rest) as [log c].
        cbn [fst snd] in *. rewrite delivered_failed, delivered_ok.
        split; [intros Hc; by rewrite (A Hc)|]. split; [|exact C].
        intros e0 He. destruct (B e0 He) as (sp & p & r' & -> & Hd).
        exists (part :: sp), p, r'. by rewrite <- Hd.
    + destruct (IH (S n)) as (A & B & C).
      destruct (sendParts reply (S n) rest) as [log c].
      cbn [fst snd] in *. rewrite delivered_ok.
      split; [intros Hc; by rewrite (A Hc)|]. split; [|exact C].
      intros e0 He. destruct (B e0 He) as (sp & p & r' & -> & Hd).
      exists (part :: sp), p, r'. by rewrite <- Hd.
Qed.

(** X4: [sendResponse] always gets through the splitting; when it
    returns normally the chat has received exactly the parts, once
    each and in order, each within 4000 code units and together
    holding every code unit of the text that is not white space; when
    it throws, the chat has received the parts before the one that
    failed both as Markdown and as plain text; and it cannot throw
    while plain replies go through. *)
Theorem X4_sendResponse_delivery (reply : Telegram) (text : jsstring) :
  exists log c,
    sendResponse (S (length text)) reply text = Some (log, c)
    /\ Forall (λ p, (length p <= 4000)%nat) (delivered log)
    /\ (c = Return tt -> inked (concat (delivered log)) = inked text)
    /\ (forall e, c = Throw e ->
          exists rest, splitMessage (S (length text)) text 4000
                       = Some (delivered log ++ rest) /\ rest <> [])
    /\ ((forall k p, reply k p false = None) -> c = Return tt).
Proof.
  destruct (splitMessage_default text) as (parts & Hsplit & Hlen & Hink).
  unfold sendResponse. rewrite Hsplit. simpl.
  destruct (sendParts_log reply 0 parts) as (A & B & C).
  destruct (sendParts reply 0 parts) as [log c]. simpl in *.
  exists log, c. split; [done|].
  assert (Hpre : exists rest, parts = delivered log ++ rest
                              /\ (forall e, c = Throw e -> rest <> [])).
  { destruct c as [[]|e].
    - exists []. rewrite (A eq_refl), app_nil_r. by split.
    - destruct (B e eq_refl) as (sp & p & r & -> & ->).
      exists (p :: r). by split. }
  destruct Hpre as (rest & Hparts & Hrest).
  split; [|split; [|split; [|exact C]]].
  - rewrite Hparts in Hlen. by apply Forall_app in Hlen as [? _].
  - intros Hc. by rewrite (A Hc).
  - intros e He. exists rest. split; [by rewrite <- Hparts|by eapply Hrest].
Qed.

End Send.

(** ** The query on the command line *)

Section Escape.
Import Regex Claude.

(** Replacing one code unit everywhere. *)
Lemma replaceAll_unit (x : N) (by_ s : jsstring) :
  replaceAll [One (code x)] by_ s
  = flat_map (λ c, if c =? x then by_ else [c]) s.
Proof.
  unfold replaceAll. generalize (@None N).
  induction s as [|c s IH]; intros p; [done|].
  simpl. unfold code. destruct (c =? x); simpl; by rewrite IH.
Qed.

(** The four replacements together escape each code unit on its own. *)
Lemma escapeQuery_units (query : jsstring) :
  escapeQuery query = flat_map escapeUnit query.
Proof.
  unfold escapeQuery. rewrite !replaceAll_unit.
  induction query as [|c q IH]; [done|].
  cbn [flat_map]. rewrite !flat_map_app, IH. f_equal.
  unfold escapeUnit, isShellSpecial.
  destruct (N.eqb_spec c 0x5C) as [->|H1]; [done|].
  destruct (N.eqb_spec c 0x22) as [->|H2]; [done|].
  destruct (N.eqb_spec c 0x24) as [->|H3]; [done|].
  destruct (N.eqb_spec c 0x60) as [->|H4]; [done|].
  simpl.
  rewrite (proj2 (N.eqb_neq c 0x22) H2). simpl.
  rewrite (proj2 (N.eqb_neq c 0x24) H3). simpl.
  by rewrite (proj2 (N.eqb_neq c 0x60) H4).
Qed.

(** X5: a POSIX shell reads the escaped query, between the double
    quotes the command puts around it, as one word that is the query
    itself, whatever the query holds. *)
Theorem X5_escapeQuery_round_trip (query : jsstring) :
  dequote (escapeQuery query) = Some query.
Proof.
  rewrite escapeQuery_units.
  induction query as [|c q IH]; [done|].
  cbn [flat_map]. unfold escapeUnit at 1.
  destruct (isShellSpecial c) eqn:E.
  - cbn [app dequote]. rewrite N.eqb_refl, E, IH. done.
  - cbn [app dequote]. rewrite E.
    assert (Hc : (c =? 0x5C) = false).
    { unfold isShellSpecial in E. by destruct (c =? 0x5C). }
    by rewrite Hc, IH.
Qed.

End Escape.

(** ** Command arguments *)

Section Arguments.
Import Commands.

Lemma split_nonempty (sep : N) (s : jsstring) : split sep s <> [].
Proof.
  destruct s as [|c s]; [done|]. simpl.
  destruct (c =? sep); [done|]. by destruct (split sep s).
Qed.

Lemma join_cons (sep : N) (w : jsstring) (ws : list jsstring) :
  ws <> [] -> join sep (w :: ws) = w ++ sep :: join sep ws.
Proof. by destruct ws. Qed.

(** [split] and [join] with the same separator undo each other. *)
Lemma join_split (sep : N) (s : jsstring) : join sep (split sep s) = s.
Proof.
  induction s as [|c s IH]; [done|]. cbn [split].
  destruct (N.eqb_spec c sep) as [->|Hc].
  - rewrite join_cons by apply split_nonempty. by rewrite IH.
  - pose proof (split_nonempty sep s) as Hne.
    destruct (split sep s) as [|w ws]; [done|].
    destruct ws as [|w' ws]; simpl in *; by rewrite <- IH.
Qed.

Lemma split_first (sep : N) (cmd rest : jsstring) :
  sep ∉ cmd -> split sep (cmd ++ sep :: rest) = cmd :: split sep rest.
Proof.
  induction cmd as [|c cmd IH]; intros H.
  - simpl. by rewrite N.eqb_refl.
  - rewrite not_elem_of_cons in H. destruct H as [Hc Hcmd].
    cbn [app split]. rewrite (proj2 (N.eqb_neq c sep)) by done.
    by rewrite (IH Hcmd).
Qed.

Lemma split_none (sep : N) (cmd : jsstring) :
  sep ∉ cmd -> split sep cmd = [cmd].
Proof.
  induction cmd as [|c cmd IH]; intros H; [done|].
  rewrite not_elem_of_cons in H. destruct H as [Hc Hcmd].
  cbn [split]. rewrite (proj2 (N.eqb_neq c sep)) by done.
  by rewrite (IH Hcmd).
Qed.

(** X6: the argument of a command is what follows the first space of
    the message, spaces inside it included, without the white space
    at its ends; a message without a space has the empty argument. *)
Theorem X6_commandArgs (cmd rest : jsstring) :
  0x20 ∉ cmd ->
  commandArgs (cmd ++ 0x20 :: rest) = trim rest
  /\ commandArgs cmd = [].
Proof.
  intros H. unfold commandArgs. split.
  - rewrite (split_first _ _ _ H).
    change (drop 1 (cmd :: split 0x20 rest)) with (split 0x20 rest).
    by rewrite join_split.
  - by rewrite (split_none _ _ H).
Qed.

(** X7: /setrepo changes the workspace store exactly when the user
    is allowed and the argument is an existing directory, and then the
    chat resolves to that directory, however the replies go.  It
    attempts the answer that the repository is set in that case and
    in no other, and first.  When that answer cannot be sent the
    handler sends the failure text with the error of the reply, the
    store being changed all the same.  In every other case one reply
    is attempted and the store is left as it was.  The handler throws
    only with the error of the last reply it attempted. *)
Theorem X7_setrepo (cfg : Config) (fs : Repos.FileSystem) (o : Outside)
    (reply : SetrepoChannel) (ctx : Context) (text : jsstring)
    (repos : Repos.State) (d : jsstring) :
  let '(replies, c, repos') := onSetrepo cfg fs o reply ctx text repos in
  let args := commandArgs text in
  let accepted :=
    Bot.isUserAllowed cfg (from_id ctx) = true
    /\ Repos.statSync fs args = inr true in
  (accepted ->
     repos' = (Repos.setRepoForChat fs o (chatId_of ctx) args repos).2
     /\ Repos.getRepoForChat repos' (chatId_of ctx) d = args
     /\ head replies = Some (SetrepoDone args)
     /\ (reply (SetrepoDone args) = None -> replies = [SetrepoDone args])
     /\ (forall e, reply (SetrepoDone args) = Some e ->
           replies = [SetrepoDone args; SetrepoFailed e]))
  /\ (~ accepted ->
      repos' = repos
      /\ (forall p, SetrepoDone p ∉ replies)
      /\ length replies = 1%nat)
  /\ (forall e, c = Throw e ->
        exists r, last replies = Some r /\ reply r = Some e)
  /\ (c = Return tt ->
        exists r, last replies = Some r /\ reply r = None).
Proof.
  unfold onSetrepo, sendSetrepo.
  destruct (Bot.isUserAllowed cfg (from_id ctx)) eqn:Hallowed; cbn [negb].
  2:{ split; [by intros [? _]|]. split.
      - intros _. split; [done|]. split; [|done].
        intros p H. apply list_elem_of_singleton in H. discriminate H.
      - split.
        + intros e H. exists SetrepoRefused. split; [done|].
          by destruct (reply SetrepoRefused); [injection H as ->|].
        + intros H. exists SetrepoRefused. split; [done|].
          by destruct (reply SetrepoRefused). }
  destruct (truthy (commandArgs text)) eqn:Hargs; cbn [negb].
  2:{ split.
      - intros [_ H]. destruct (commandArgs text); [|done].
        discriminate H.
      - split.
        + intros _. split; [done|]. split; [|done].
          intros p H. apply list_elem_of_singleton in H. discriminate H.
        + split.
          * intros e H. exists SetrepoUsage. split; [done|].
            by destruct (reply SetrepoUsage); [injection H as ->|].
          * intros H. exists SetrepoUsage. split; [done|].
            by destruct (reply SetrepoUsage). }
  destruct (Repos.setRepoForChat fs o (chatId_of ctx) (commandArgs text)
              repos) as [[b|message] st] eqn:E.
  - pose proof E as E'. unfold Repos.setRepoForChat in E'.
    destruct (Repos.validate fs (commandArgs text)) eqn:V; [discriminate|].
    assert (Hdir : Repos.statSync fs (commandArgs text) = inr true).
    { unfold Repos.validate in V.
      by destruct (Repos.statSync fs (commandArgs text)) as [m|[]]. }
    assert (Hget : Repos.getRepoForChat st (chatId_of ctx) d
                   = commandArgs text).
    { apply (getRepoForChat_after_set fs o (chatId_of ctx)
               (commandArgs text) repos).
      rewrite E. by injection E' as <- _. }
    destruct (reply (SetrepoDone (commandArgs text))) as [e|] eqn:Hr.
    + cbn. split; [|split; [|split]].
      * intros _. split; [done|]. split; [exact Hget|].
        split; [done|]. split; [done|]. by intros ? [= <-].
      * intros H. by destruct H.
      * intros e' H. exists (SetrepoFailed e). split; [done|].
        by destruct (reply (SetrepoFailed e)); [injection H as ->|].
      * intros H. exists (SetrepoFailed e). split; [done|].
        by destruct (reply (SetrepoFailed e)).
    + split; [|split; [|split]].
      * intros _. split; [done|]. split; [exact Hget|].
        split; [done|]. split; [done|]. done.
      * intros H. by destruct H.
      * done.
      * intros _. by exists (SetrepoDone (commandArgs text)).
  - pose proof E as E'. unfold Repos.setRepoForChat in E'.
    destruct (Repos.validate fs (commandArgs text)) eqn:V; [|discriminate].
    injection E' as <- <-.
    split; [|split; [|split]].
    + intros [_ H]. unfold Repos.validate in V. by rewrite H in V.
    + intros _. split; [done|]. split; [|done].
      intros p H. apply list_elem_of_singleton in H. discriminate H.
    + intros e H. eexists. split; [done|]. cbn in H |- *.
      by destruct (reply _); [injection H as ->|].
    + intros H. eexists. split; [done|]. cbn in H |- *.
      by destruct (reply _).
Qed.

End Arguments.

(** ** Session names of different chats *)

Lemma lit_cons (a : ascii) (s : string) :
  lit (String a s) = N_of_ascii a :: lit s.
Proof. reflexivity. Qed.

Lemma uint_head (d : Decimal.uint) :
  exists c r, lit (NilZero.string_of_uint d) = c :: r /\ c <> 0x67.
Proof. destruct d; simpl; eexists _, _; (split; [apply lit_cons|discriminate]). Qed.

(** A printed integer starts with a digit or a minus sign. *)
Lemma js_String_num_head (z : Z) :
  exists c r, js_String (IdNum z) = c :: r /\ c <> 0x67.
Proof.
  unfold js_String. destruct z as [|p|p]; simpl.
  - eexists _, _. split; [apply lit_cons|discriminate].
  - apply uint_head.
  - eexists _, _. split; [apply lit_cons|discriminate].
Qed.

Lemma keyHead_of_split (cfg : Config) (repos : Repos.State)
    (ctx1 ctx2 : Context) :
  getSessionId cfg repos ctx1 = getSessionId cfg repos ctx2 ->
  keyHead cfg ctx1 = keyHead cfg ctx2.
Proof.
  rewrite !getSessionId_split. intros H.
  apply app_inj_2 in H as [H _]; [exact H|].
  by rewrite !hashRepoPath_length.
Qed.

(** X8: two chats with integer ids get the same session name only when
    they are of the same kind (private or not) and have the same id
    (the sender's for a private chat, the chat's otherwise): a private
    chat never shares a session with a group, nor two users or two
    groups with each other. *)
Theorem X8_session_names_apart (cfg : Config) (repos : Repos.State)
    (u1 c1 u2 c2 : Z) (t1 t2 : jsstring) :
  getSessionId cfg repos (telegramContext u1 c1 t1)
  = getSessionId cfg repos (telegramContext u2 c2 t2) ->
  (t1 = lit "private" <-> t2 = lit "private")
  /\ (t1 = lit "private" -> u1 = u2)
  /\ (t1 <> lit "private" -> c1 = c2).
Proof.
  intros H%keyHead_of_split. unfold keyHead, chatType_of in H. simpl in H.
  destruct (decide (Some t1 = Some (lit "private"))) as [E1|E1],
           (decide (Some t2 = Some (lit "private"))) as [E2|E2].
  - injection E1 as ->. injection E2 as ->.
    apply app_inv_head in H. injection H as H.
    apply app_inj_2 in H as [H _]; [|done].
    apply js_String_num_inj in H. by repeat split.
  - exfalso. apply app_inv_head in H. injection H as H.
    destruct (js_String_num_head u1) as (c & r & Hu & Hc).
    unfold js_String in Hu. rewrite Hu in H. injection H as H _. by apply Hc.
  - exfalso. apply app_inv_head in H. injection H as H.
    destruct (js_String_num_head u2) as (c & r & Hu & Hc).
    unfold js_String in Hu. rewrite Hu in H. injection H as H _.
    by apply Hc.
  - apply app_inv_head in H.
    apply (app_inv_head (lit "-group-")) in H.
    apply app_inj_2 in H as [H _]; [|done].
    apply js_String_num_inj in H.
    split; [split; intros ->; [by destruct E1|by destruct E2]|].
    split; [intros ->; by destruct E1|done].
Qed.

(** X9: [createSessionId] gives different users different session
    names, and the session name of a private chat is that name followed
    by a hyphen and the fingerprint of the workspace. *)
Theorem X9_createSessionId (cfg : Config) (repos : Repos.State) (a b c : Z) :
  (createSessionId cfg (IdNum a) = createSessionId cfg (IdNum b) -> a = b)
  /\ getSessionId cfg repos (telegramContext a c (lit "private"))
     = createSessionId cfg (IdNum a) ++ lit "-"
         ++ Repos.hashRepoPath
              (Repos.getRepoForChat repos (IdNum c) (workingDirectory cfg)).
Proof.
  split.
  - unfold createSessionId. intros H.
    apply app_inv_head in H. apply (app_inv_head (lit "-")) in H.
    by apply js_String_num_inj.
  - unfold getSessionId, createSessionId, chatType_of. simpl.
    by rewrite <- !app_assoc.
Qed.

(** ** The workspace store, chat by chat *)

Lemma js_String_num_ne (a b : Z) :
  a <> b -> js_String (IdNum a) <> js_String (IdNum b).
Proof. intros H E. by apply js_String_num_inj in E. Qed.

(** X10: setting or removing the workspace of one chat, whether it
    succeeds or not, leaves the entry of every other chat as it was;
    removing twice is removing once, and removing a mapping that is not
    there leaves the mappings as they were. *)
Theorem X10_workspace_store_frame (fs : Repos.FileSystem) (o o' : Outside)
    (a b : Z) (p : jsstring) (st : Repos.State) :
  a <> b ->
  Repos.getRepoInfo (Repos.setRepoForChat fs o (IdNum a) p st).2 (IdNum b)
  = Repos.getRepoInfo st (IdNum b)
  /\ Repos.getRepoInfo (Repos.removeRepoForChat o (IdNum a) st) (IdNum b)
     = Repos.getRepoInfo st (IdNum b)
  /\ Repos.repoMappings
       (Repos.removeRepoForChat o' (IdNum a)
          (Repos.removeRepoForChat o (IdNum a) st))
     = Repos.repoMappings (Repos.removeRepoForChat o (IdNum a) st)
  /\ (Repos.getRepoInfo st (IdNum a) = None ->
      Repos.repoMappings (Repos.removeRepoForChat o (IdNum a) st)
      = Repos.repoMappings st).
Proof.
  intros Hab%js_String_num_ne. unfold Repos.getRepoInfo.
  split; [|split; [|split]].
  - unfold Repos.setRepoForChat. destruct (Repos.validate fs p); [done|].
    cbn [snd]. rewrite save_repoMappings. simpl.
    by apply lookup_insert_ne.
  - unfold Repos.removeRepoForChat. rewrite save_repoMappings. simpl.
    by apply lookup_delete_ne.
  - unfold Repos.removeRepoForChat. rewrite !save_repoMappings. simpl.
    apply delete_delete_eq.
  - intros H. unfold Repos.removeRepoForChat. rewrite save_repoMappings.
    simpl. by apply delete_id.
Qed.

(** X11: a successful [setRepoForChat] and a [removeRepoForChat] leave the
    file equal to the memory when the write goes through; when it does
    not, the memory is updated all the same and the file keeps what it
    had.  A rejected [setRepoForChat] writes nothing. *)
Theorem X11_workspace_store_write_through (fs : Repos.FileSystem)
    (o : Outside) (c : JsId) (p : jsstring) (st : Repos.State) :
  let set := Repos.setRepoForChat fs o c p st in
  let removed := Repos.removeRepoForChat o c st in
  (writable o = true ->
     (set.1 = Return true -> reposSynced set.2) /\ reposSynced removed)
  /\ (writable o = false ->
      Repos.reposFile set.2 = Repos.reposFile st
      /\ Repos.reposFile removed = Repos.reposFile st
      /\ (set.1 = Return true ->
          Repos.repoMappings set.2 !! js_String c
          = Some {| Repos.path := p; Repos.setAt := now o |})
      /\ Repos.repoMappings removed !! js_String c = None)
  /\ (set.1 <> Return true -> set.2 = st).
Proof.
  intros set removed. subst set removed.
  unfold Repos.setRepoForChat, Repos.removeRepoForChat, reposSynced,
    Repos.saveRepoMappings.
  destruct (Repos.validate fs p) eqn:V; cbn [fst snd];
    (split; [intros ->|split; [intros ->|]]); simpl; try done.
  - repeat split; try done. apply lookup_delete_eq.
  - repeat split; try done.
    + intros _. apply lookup_insert_eq.
    + apply lookup_delete_eq.
Qed.

(** ** The session store, name by name *)

Section SessionNames.
Import Sessions.

Variable randomUUID : nat -> jsstring.

Hypothesis randomUUID_fresh :
  forall i j, randomUUID i = randomUUID j -> i = j.

Lemma insert_distinct (st : State) (k : jsstring) (info : Info) :
  Sessions.unseen randomUUID st -> distinctHandles st ->
  uuid info = randomUUID (draws st) ->
  forall k1 k2 i1 i2,
    <[k := info]> (sessionMappings st) !! k1 = Some i1 ->
    <[k := info]> (sessionMappings st) !! k2 = Some i2 ->
    uuid i1 = uuid i2 -> k1 = k2.
Proof.
  intros Hun Hd Hu k1 k2 i1 i2 H1 H2 E.
  destruct (decide (k = k1)) as [E1|N1], (decide (k = k2)) as [E2|N2];
    [congruence|subst k1|subst k2|].
  - rewrite lookup_insert_eq in H1. injection H1 as <-.
    rewrite lookup_insert_ne in H2 by done.
    exfalso. apply (Hun k2 i2 (draws st) H2); [lia|]. by rewrite <- E.
  - rewrite lookup_insert_eq in H2. injection H2 as <-.
    rewrite lookup_insert_ne in H1 by done.
    exfalso. apply (Hun k1 i1 (draws st) H1); [lia|]. by rewrite E.
  - rewrite lookup_insert_ne in H1, H2 by done. by apply (Hd k1 k2 i1 i2).
Qed.

Lemma perform_distinct (c : Call) (st : State) :
  Sessions.unseen randomUUID st -> distinctHandles st ->
  distinctHandles (perform randomUUID c st).2.
Proof.
  intros Hun Hd. destruct c as [o k|o k]; simpl.
  - unfold getSessionUUID. destruct (sessionMappings st !! k); [exact Hd|].
    cbn [snd]. unfold distinctHandles. rewrite save_sessionMappings.
    by apply insert_distinct.
  - unfold resetSession. cbn [snd]. unfold distinctHandles.
    rewrite save_sessionMappings. by apply insert_distinct.
Qed.

(** X12: as long as the random source does not repeat itself, no two
    session names ever hold the same handle, whatever calls are made:
    two conversations never resume each other's session. *)
Theorem X12_handles_apart (calls : list Call) (st0 : State) :
  Sessions.unseen randomUUID st0 -> distinctHandles st0 ->
  distinctHandles (performAll randomUUID calls st0).2.
Proof.
  revert st0. induction calls as [|c calls IH]; intros st0 Hun Hd;
    [exact Hd|].
  cbn [performAll].
  pose proof (perform_unseen randomUUID randomUUID_fresh c st0 Hun) as Hun1.
  pose proof (perform_distinct c st0 Hun Hd) as Hd1.
  destruct (perform randomUUID c st0) as [h st1]. cbn [snd] in *.
  specialize (IH st1 Hun1 Hd1).
  by destruct (performAll randomUUID calls st1) as [issued st2].
Qed.

Lemma perform_frame (c : Call) (st : State) (k : jsstring) :
  k <> callName c ->
  sessionMappings (perform randomUUID c st).2 !! k = sessionMappings st !! k.
Proof.
  intros Hk. destruct c as [o k'|o k']; simpl in *.
  - unfold getSessionUUID. destruct (sessionMappings st !! k'); [done|].
    cbn [snd]. rewrite save_sessionMappings. simpl.
    by apply lookup_insert_ne.
  - unfold resetSession. cbn [snd]. rewrite save_sessionMappings. simpl.
    by apply lookup_insert_ne.
Qed.

(** X13: /reset by a user who is not allowed changes nothing and sends
    nothing; by an allowed user it replaces the handle of the chat's
    current session name only, leaving every other session as it was,
    reports the first eight code units of the new handle, and that
    handle is what the next call of the CLI for this chat gets. *)
Theorem X13_reset_command (cfg : Config) (o o' : Outside) (ctx : Context)
    (repos : Repos.State) (sessions : State) :
  let r := Commands.onReset randomUUID cfg o ctx repos sessions in
  let name := getSessionId cfg repos ctx in
  (Bot.isUserAllowed cfg (from_id ctx) = false -> r = (None, sessions))
  /\ (forall k, k <> name ->
        sessionMappings r.2 !! k = sessionMappings sessions !! k)
  /\ (Bot.isUserAllowed cfg (from_id ctx) = true ->
      exists h,
        r.1 = Some (name, substring0 8 h)
        /\ (getSessionUUID randomUUID o' name r.2).1 = h
        /\ sessionMappings r.2 !! name
           = Some {| uuid := h; createdAt := now o;
                     previousUUID :=
                       uuid <$> sessionMappings sessions !! name |}).
Proof.
  intros r name. subst r. unfold Commands.onReset. fold name.
  destruct (Bot.isUserAllowed cfg (from_id ctx)); cbn [negb].
  - split; [discriminate|].
    pose proof (resetSession_lookup randomUUID o name sessions) as Hl.
    pose proof (perform_frame (CallReset o name) sessions) as Hf.
    cbn [perform callName] in Hf.
    destruct (resetSession randomUUID o name sessions) as [h st'] eqn:E.
    assert (Hh : h = randomUUID (draws sessions)).
    { unfold resetSession in E. by injection E as <- _. }
    cbn [fst snd] in *. split; [exact Hf|]. intros _. exists h.
    split; [done|]. rewrite Hh.
    split; [by rewrite (getSessionUUID_present _ _ _ _ _ Hl)|exact Hl].
  - split; [done|]. split; [done|discriminate].
Qed.

End SessionNames.

(** ** One call of the CLI under any behaviour of the child *)

Section AnyChild.
Import Claude.

Lemma settle_not_pending (p new : Settled) :
  new <> Pending -> settle p new <> Pending.
Proof. by destruct p. Qed.

Lemma onTimeout_done (r : Run) :
  promise (onTimeout r) <> Pending /\ timeout (onTimeout r) = None.
Proof. split; [|done]. by apply settle_not_pending. Qed.

(** The timer is armed with its original delay, or it is gone and the
    promise is settled. *)
Local Abbreviation armedOrDone r :=
  (timeout r = Some timeoutMs
   \/ (timeout r = None /\ promise r <> Pending)).

Lemma expire_armedOrDone (t : N) (r : Run) :
  armedOrDone r -> armedOrDone (expire t r).
Proof.
  intros [A|[A B]]; unfold expire; rewrite A.
  - destruct (_ <=? _); [right|by left].
    destruct (onTimeout_done r) as [H1 H2]. by split.
  - by right.
Qed.

Lemma dispatch_armedOrDone (r : Run) (e : ChildEvent) :
  armedOrDone r -> armedOrDone (dispatch r e).
Proof.
  intros [A|[A B]].
  - destruct e; simpl; [by left|by left| |by left].
    right. split; [done|]. by case_decide; apply settle_not_pending.
  - right. destruct (dispatch_cleared r e A) as [H _].
    split; [done|]. by rewrite dispatch_settled.
Qed.

Lemma expire_late (t : N) (r : Run) :
  timeoutMs <= t -> armedOrDone r ->
  promise (expire t r) <> Pending /\ timeout (expire t r) = None.
Proof.
  intros Ht [A|[A B]]; unfold expire; rewrite A.
  - destruct (N.leb_spec timeoutMs t); [|lia]. apply onTimeout_done.
  - done.
Qed.

Lemma runUntil_done (h : N) (sched : list (N * ChildEvent)) (r : Run) :
  timeoutMs <= h -> armedOrDone r ->
  promise (runUntil h sched r) <> Pending
  /\ timeout (runUntil h sched r) = None.
Proof.
  intros Hh. revert r.
  induction sched as [|[t e] sched IH]; intros r Hr; simpl.
  - by apply expire_late.
  - destruct (h <? t); [by apply expire_late|].
    apply IH. by apply dispatch_armedOrDone, expire_armedOrDone.
Qed.

Lemma expire_spawned (t : N) (r : Run) : spawned (expire t r) = spawned r.
Proof. unfold expire. destruct (timeout r); [|done]. by destruct (_ <=? _). Qed.

Lemma dispatch_spawned (r : Run) (e : ChildEvent) :
  spawned (dispatch r e) = spawned r.
Proof. by destruct e. Qed.

Lemma runUntil_spawned (h : N) (sched : list (N * ChildEvent)) (r : Run) :
  spawned (runUntil h sched r) = spawned r.
Proof.
  revert r. induction sched as [|[t e] sched IH]; intros r; simpl.
  - apply expire_spawned.
  - destruct (h <? t); [apply expire_spawned|].
    by rewrite IH, dispatch_spawned, expire_spawned.
Qed.

Lemma expire_fired (t : N) (r : Run) :
  timeout r = Some timeoutMs -> timeoutMs <= t -> expire t r = onTimeout r.
Proof.
  intros A Ht. unfold expire. rewrite A.
  by destruct (N.leb_spec timeoutMs t); [|lia].
Qed.

Lemma runUntil_kills (h : N) (sched : list (N * ChildEvent)) (r : Run) :
  timeoutMs <= h -> timeout r = Some timeoutMs -> kills r = [] ->
  kills (runUntil h sched r)
  = if closedBefore timeoutMs sched then [] else [lit "SIGKILL"].
Proof.
  intros Hh. revert r.
  induction sched as [|[t e] sched IH]; intros r A K; simpl.
  - rewrite expire_fired by done. simpl. by rewrite K.
  - destruct (N.ltb_spec h t) as [Hcut|Hcut].
    + destruct (N.ltb_spec t timeoutMs); [lia|].
      rewrite expire_fired by done. simpl. by rewrite K.
    + destruct (N.ltb_spec t timeoutMs) as [Hlt|Hge].
      * rewrite expire_early by done.
        destruct e as [chunk|chunk|code|message];
          [by apply IH|by apply IH| |by apply IH].
        by destruct (runUntil_cleared h sched (dispatch r (Close code))
                       eq_refl) as [_ ->].
      * rewrite expire_fired by done.
        destruct (dispatch_cleared (onTimeout r) e eq_refl) as [H1 H2].
        destruct (runUntil_cleared h sched _ H1) as [_ ->].
        rewrite H2. simpl. by rewrite K.
Qed.

Lemma expire_mono (t t' : N) (r : Run) :
  t <= t' -> promise (expire t r) <> Pending ->
  promise (expire t' r) = promise (expire t r).
Proof.
  intros Ht H.
  destruct (promise r) eqn:P;
    [|by rewrite !expire_settled by (by rewrite P)..].
  revert H. unfold expire. destruct (timeout r) as [d|]; [|done].
  destruct (N.leb_spec d t); [|done].
  by destruct (N.leb_spec d t'); [|lia].
Qed.

Variables (cfg : Config) (processEnv : environ).
Variables (sessionId query : jsstring) (wd : option jsstring).

Let r0 : Run := executeClaudeCode cfg processEnv sessionId query wd.

(** X14: whatever the child does and whenever it does it, from the
    deadline on the promise of the call is settled and the timer is
    gone; the spawn request is never touched by the events. *)
Theorem X14_call_settles_by_deadline (h : N)
    (sched : list (N * ChildEvent)) :
  let r := runUntil h sched r0 in
  spawned r = spawned r0
  /\ (timeoutMs <= h -> promise r <> Pending /\ timeout r = None).
Proof.
  split; [apply runUntil_spawned|].
  intros Hh. apply runUntil_done; [done|by left].
Qed.

(** X15: the child is killed at the deadline exactly when no close
    event has been delivered before it, and then once, with SIGKILL;
    an error event alone, which settles the promise, does not stop
    the timer. *)
Theorem X15_killed_unless_closed (h : N) (sched : list (N * ChildEvent)) :
  timeoutMs <= h ->
  kills (runUntil h sched r0)
  = if closedBefore timeoutMs sched then [] else [lit "SIGKILL"].
Proof. intros Hh. by apply runUntil_kills. Qed.

(** X16: a promise settles once: the outcome seen at some time is the
    outcome seen at any later time, whatever else the child emits. *)
Theorem X16_outcome_is_final (h h' : N) (sched : list (N * ChildEvent))
    (r : Run) :
  h <= h' -> promise (runUntil h sched r) <> Pending ->
  promise (runUntil h' sched r) = promise (runUntil h sched r).
Proof.
  intros Hh. revert r.
  induction sched as [|[t e] sched IH]; intros r H; simpl in *.
  - by apply expire_mono.
  - destruct (N.ltb_spec h t) as [Hcut|Hcut].
    + destruct (N.ltb_spec h' t) as [Hcut'|Hcut'];
        [by apply expire_mono|].
      rewrite runUntil_settled, dispatch_settled;
        rewrite ?dispatch_settled; rewrite ?(expire_mono h t) by (done || lia);
        done.
    + destruct (N.ltb_spec h' t); [lia|]. by apply IH.
Qed.

End AnyChild.

(** ** What the sanitiser leaves alone *)

Section Deletions.
Import Regex Claude.

(** A replacement by the empty string only deletes. *)
Lemma replaceFrom_deletes (re : regex) (s : jsstring) (skip : nat)
    (prev : option N) :
  replaceFrom re [] skip prev s `sublist_of` s.
Proof.
  revert skip prev. induction s as [|x s IH]; intros skip prev;
    cbn [replaceFrom].
  - destruct skip, (matchHere re prev []); constructor.
  - destruct skip as [|k]; [|by apply sublist_cons].
    destruct (matchHere re prev (x :: s)) as [[|k]|]; simpl.
    + by apply sublist_skip.
    + by apply sublist_cons.
    + by apply sublist_skip.
Qed.

Lemma repeat_sublist (x : N) (m n : nat) :
  (m <= n)%nat -> repeat x m `sublist_of` repeat x n.
Proof.
  intros H. replace n with ((n - m) + m)%nat by lia.
  rewrite repeat_app. by apply sublist_inserts_l.
Qed.

Lemma collapse_deletes (s : jsstring) : collapseBlank s `sublist_of` s.
Proof.
  induction s as [|x s Hx IH|n s Hn Hs IH] using run_ind.
  - rewrite collapse_nil. constructor.
  - rewrite collapse_cons by done. by apply sublist_skip.
  - rewrite collapse_run by done. apply sublist_app; [|done].
    unfold collapsedRun. destruct (Nat.leb_spec 3 n); [|done].
    apply (repeat_sublist LF 2 n). lia.
Qed.

Lemma trim_deletes (s : jsstring) : trim s `sublist_of` s.
Proof.
  destruct (trim_infix s) as (u & v & E). rewrite E at 2.
  by apply sublist_inserts_l, sublist_inserts_r.
Qed.

(** A regular expression that matches nowhere leaves the string as it
    is. *)
Lemma replaceFrom_nowhere (re : regex) (by_ : jsstring) (a b : jsstring) :
  (forall a' b', b = a' ++ b' -> matchHere re (last (a ++ a')) b' = None) ->
  replaceFrom re by_ O (last a) b = b.
Proof.
  revert a. induction b as [|x b IH]; intros a H; cbn [replaceFrom].
  - specialize (H [] [] eq_refl). rewrite app_nil_r in H. by rewrite H.
  - pose proof (H [] (x :: b) eq_refl) as H0. rewrite app_nil_r in H0.
    rewrite H0. f_equal.
    replace (Some x) with (last (a ++ [x])) by apply last_snoc.
    apply IH. intros a' b' ->.
    rewrite <- app_assoc. by apply (H (x :: a') b').
Qed.

Lemma replaceAll_nowhere (re : regex) (by_ : jsstring) (s : jsstring) :
  (forall a b, s = a ++ b -> matchHere re (last a) b = None) ->
  replaceAll re by_ s = s.
Proof. intros H. by apply (replaceFrom_nowhere re by_ []). Qed.

Lemma stripAnsi_clean (s : jsstring) : ESC ∉ s -> stripAnsi s = s.
Proof.
  intros H. apply replaceAll_nowhere. intros a [|x b] ->; [done|].
  cbn [ansiRe matchHere]. unfold code at 1.
  destruct (N.eqb_spec x ESC) as [->|]; [|done].
  exfalso. apply H. rewrite elem_of_app. right. apply list_elem_of_here.
Qed.

Lemma dropCR_clean (s : jsstring) : CR ∉ s -> dropCR s = s.
Proof.
  intros H. apply replaceAll_nowhere. intros a [|x b] ->; [done|].
  cbn [crRe matchHere]. unfold code at 1.
  destruct (N.eqb_spec x CR) as [->|]; [|done].
  exfalso. apply H. rewrite elem_of_app. right. apply list_elem_of_here.
Qed.

Lemma stripSpinner_clean (s : jsstring) :
  (forall a g b, s = a ++ g :: b -> isSpinner g = true ->
     atLineStart (last a) = false) ->
  stripSpinner s = s.
Proof.
  intros H. apply replaceAll_nowhere. intros a [|x b] ->;
    cbn [spinnerRe matchHere]; [by destruct (atLineStart _)|].
  destruct (isSpinner x) eqn:Hx.
  - by rewrite (H a x b eq_refl Hx).
  - by destruct (atLineStart _).
Qed.

Lemma collapse_clean (s : jsstring) : lfBounded s -> collapseBlank s = s.
Proof.
  induction s as [|x s Hx IH|n s Hn Hs IH] using run_ind; intros Hb.
  - apply collapse_nil.
  - rewrite collapse_cons by done. f_equal. apply IH.
    intros a b ->. by apply (Hb (x :: a) b).
  - rewrite collapse_run by done.
    pose proof (Hb [] _ eq_refl) as Hshort.
    rewrite lfRun_repeat, Hs in Hshort. f_equal.
    + unfold collapsedRun. destruct (Nat.leb_spec 3 n); [lia|done].
    + apply IH. intros a b ->. apply (Hb (repeat LF n ++ a) b).
      by rewrite <- app_assoc.
Qed.

(** X17: sanitising only deletes: the sanitised text is the input with
    some code units left out, the others in their order; in particular
    it is never longer, and no character is made up. *)
Theorem X17_clean_only_deletes (response : jsstring) :
  cleanClaudeResponse response `sublist_of` response
  /\ (length (cleanClaudeResponse response) <= length response)%nat
  /\ forall c, c ∈ cleanClaudeResponse response -> c ∈ response.
Proof.
  assert (H : cleanClaudeResponse response `sublist_of` response).
  { unfold cleanClaudeResponse.
    etrans; [apply trim_deletes|].
    etrans; [apply collapse_deletes|].
    etrans; [apply replaceFrom_deletes|].
    etrans; [apply replaceFrom_deletes|].
    apply replaceFrom_deletes. }
  split; [exact H|]. split; [by apply sublist_length|].
  intros c Hc. by apply (elem_of_sublist _ _ _ Hc H).
Qed.

(** X18: a text with no escape character, no carriage return, no
    line that starts with a spinner glyph, no three line feeds in a
    row and no white space at either end comes out of the sanitiser
    unchanged. *)
Theorem X18_clean_keeps_plain_text (response : jsstring) :
  (ESC ∉ response) -> (CR ∉ response) ->
  (forall a g b, response = a ++ g :: b -> isSpinner g = true ->
     atLineStart (last a) = false) ->
  lfBounded response -> trim response = response ->
  cleanClaudeResponse response = response.
Proof.
  intros Hesc Hcr Hsp Hlf Htrim. unfold cleanClaudeResponse.
  rewrite (stripAnsi_clean _ Hesc), (dropCR_clean _ Hcr),
    (stripSpinner_clean _ Hsp), (collapse_clean _ Hlf).
  exact Htrim.
Qed.

End Deletions.

(** ** The text handler from its gate to its [finally] block *)

Section TextHandler.
Import Claude Bot.

Lemma release_acquired (c : JsId) (pu : gset jsstring) :
  lockKey c ∉ pu -> release c ({[lockKey c]} ∪ pu) = pu.
Proof.
  intros H. unfold release. apply set_eq. intros k.
  rewrite elem_of_difference, elem_of_union, elem_of_singleton.
  split; [intros [[->|Hk] Hne]; done|].
  intros Hk. split; [by right|]. by intros ->.
Qed.

(** X19: a text message takes the lock of its chat only when it is not
    a command, its sender is allowed and the lock is free; the session
    and the directory it then runs in are those of the chat; and when
    the handler is through, however the call and the replies went,
    the lock set is what it was before the message.  A message that
    does not start a call leaves the lock set alone. *)
Theorem X19_text_handler_lock (cfg : Config) (repos : Repos.State)
    (ctx : Context) (text : jsstring) (pu : gset jsstring)
    (aw : Completion jsstring) (sf rf : option jsstring) :
  match onText_enter cfg repos ctx text pu with
  | (Started sessionId workingDir, locked) =>
      startsWithSlash text = false
      /\ isUserAllowed cfg (from_id ctx) = true
      /\ (lockKey (chatId_of ctx) ∉ pu)
      /\ sessionId = getSessionId cfg repos ctx
      /\ workingDir
         = Repos.getRepoForChat repos (chatId_of ctx) (workingDirectory cfg)
      /\ (lockKey (chatId_of ctx) ∈ locked)
      /\ (onText_settle (chatId_of ctx) aw sf rf locked).2 = pu
  | (Busy, locked) => locked = pu /\ (lockKey (chatId_of ctx) ∈ pu)
  | (_, locked) => locked = pu
  end.
Proof.
  unfold onText_enter.
  destruct (startsWithSlash text); [done|].
  destruct (isUserAllowed cfg (from_id ctx)); [|done]. cbn [negb].
  unfold tryAcquire. case_decide as Hk; [done|].
  repeat (split; [done|]).
  split; [apply elem_of_union; left; by apply elem_of_singleton|].
  unfold onText_settle. destruct (tryBlock aw sf rf) as [effects c].
  cbn [snd]. by apply release_acquired.
Qed.

Variables (cfg : Config) (processEnv : environ).
Variables (sessionId query : jsstring) (wd : option jsstring).

Let r0 : Run := executeClaudeCode cfg processEnv sessionId query wd.

(** X20: whatever the child does, five minutes after the call started
    the awaited promise has settled, and the handler that resumes then
    first sends the answer or, on a failure, the error message, then
    stops the typing indicator and frees the lock of the chat; it
    throws only when the error message itself could not be sent. *)
Theorem X20_answer_by_deadline (h : N) (sched : list (N * ChildEvent))
    (chatId : JsId) (sf rf : option jsstring) (pu : gset jsstring) :
  timeoutMs <= h ->
  exists aw,
    awaited (promise (runUntil h sched r0)) = Some aw
    /\ let '(effects, c, pu') := onText_settle chatId aw sf rf pu in
       (lockKey chatId ∉ pu')
       /\ (exists body,
             effects = body ++ [StopTyping; Delete (lockKey chatId)]
             /\ match aw with
                | Return response =>
                    head body = Some (SendResponse response)
                    /\ forall e, sf = Some e ->
                         body = [SendResponse response;
                                 Reply (errorReply e)]
                | Throw message => body = [Reply (errorReply message)]
                end)
       /\ (forall e, c = Throw e ->
             rf = Some e /\ (sf <> None \/ exists m, aw = Throw m)).
Proof.
  intros Hh.
  assert (Hset : promise (runUntil h sched r0) <> Pending).
  { apply runUntil_done; [done|by left]. }
  assert (Haw : exists aw,
    awaited (promise (runUntil h sched r0)) = Some aw).
  { destruct (promise (runUntil h sched r0)); [done|by eexists..]. }
  destruct Haw as [aw Haw]. exists aw. split; [exact Haw|].
  unfold onText_settle.
  destruct (tryBlock aw sf rf) as [body c] eqn:E.
  split; [unfold release; rewrite elem_of_difference, elem_of_singleton;
          tauto|].
  split.
  - exists body. split; [done|].
    destruct aw as [v|m], sf as [e|], rf as [e'|];
      cbn [tryBlock catchBlock] in E; injection E as <- <-;
      try done; (split; [done|]); by intros ? [= <-].
  - intros e0 ->.
    destruct aw as [v|m], sf as [e|], rf as [e'|];
      cbn [tryBlock catchBlock] in E; injection E as _ E;
      try discriminate E; subst;
      (split; [done|]); (by left) || (right; by eexists).
Qed.

End TextHandler.

(** ** The voice pipeline *)

Section Voice.
Import Whisper.

(** X21: the temporary file of a voice message is removed once, as the
    last step, whether transcription and refinement succeed or throw;
    nothing is transcribed or removed when the download itself fails;
    and the chat completion is requested only when refinement is
    switched on and the transcription came back. *)
Theorem X21_voice_file_removed (refineTranscripts : bool) (w : Outside) :
  let '(effects, result) := processVoiceMessage refineTranscripts w in
  match download w with
  | Throw e => effects = [] /\ result = Throw e
  | Return tempPath =>
      exists middle,
        effects
        = Transcribe tempPath :: middle
            ++ (if truthy tempPath then [Unlink tempPath] else [])
        /\ match transcription w with
           | Return raw =>
               middle
               = if refineTranscripts then [ChatCompletion raw] else []
           | Throw e => middle = [] /\ result = Throw e
           end
  end.
Proof.
  unfold processVoiceMessage, transcribeAndRefine, refineTranscript.
  destruct (download w) as [p|e]; [|done].
  destruct (transcription w) as [raw|e].
  - destruct refineTranscripts; cbn [negb];
      [destruct (completion w) as [content|e]|];
      (eexists; split; [reflexivity|done]).
  - by exists [].
Qed.

(** X22: when the pipeline returns, the raw text is what the
    transcription gave; the refined text is the raw text unless
    refinement is on and the completion has a non-empty content,
    which it then is; so the refined text is empty only when the raw
    text is.  When it throws, the error is that of the first step
    that failed. *)
Theorem X22_voice_transcripts (refineTranscripts : bool) (w : Outside) :
  match (processVoiceMessage refineTranscripts w).2 with
  | Return (raw, refined) =>
      transcription w = Return raw
      /\ (refined = [] -> raw = [])
      /\ (refined <> raw ->
            refineTranscripts = true
            /\ completion w = Return (Some refined))
      /\ (refineTranscripts = false -> refined = raw)
  | Throw e =>
      download w = Throw e
      \/ (exists p, download w = Return p /\ transcription w = Throw e)
      \/ (exists p raw, download w = Return p
            /\ transcription w = Return raw
            /\ refineTranscripts = true /\ completion w = Throw e)
  end.
Proof.
  unfold processVoiceMessage, transcribeAndRefine, refineTranscript.
  destruct (download w) as [p|e]; [|by left].
  destruct (transcription w) as [raw|e]; [|right; left; by eexists].
  destruct refineTranscripts; cbn.
  - destruct (completion w) as [[content|]|e]; cbn.
    + unfold js_or. destruct content as [|c content]; cbn.
      * repeat split; done.
      * split; [done|]. split; [done|]. split; [|done].
        by intros _.
    + repeat split; done.
    + right. right. by exists p, raw.
  - repeat split; done.
Qed.

End Voice.

(** ** Instances of the further properties *)

Lemma absent_units (c : N) (s : jsstring) :
  forallb (fun x => negb (x =? c)) s = true -> c ∉ s.
Proof.
  induction s as [|x s IH]; simpl; [intros _; apply not_elem_of_nil|].
  intros [Hx Hs]%andb_prop. apply not_elem_of_cons. split; [|by apply IH].
  intros ->. by rewrite N.eqb_refl in Hx.
Qed.

Lemma no_spinner_line (s : jsstring) :
  Forall (λ c, Claude.isSpinner c = false) s ->
  forall a g b, s = a ++ g :: b -> Claude.isSpinner g = true ->
    Regex.atLineStart (last a) = false.
Proof.
  intros H a g b -> Hg. apply Forall_app in H as [_ H].
  apply Forall_cons in H as [H _]. congruence.
Qed.

Lemma X1_splitMessage_parts_witness :
  exists parts,
    Messages.splitMessage 12 (lit "hello world") 5 = Some parts
    /\ Forall (λ p, (length p <= 5)%nat) parts.
Proof.
  destruct (X1_splitMessage_parts (lit "hello world") 5 ltac:(lia))
    as (parts & Hrun & Hlen & _).
  exists parts. split; [apply Hrun; vm_compute; lia|exact Hlen].
Defined.

Lemma X2_splitMessage_keeps_text_witness :
  inked (concat [lit "hello"; lit "world"]) = inked (lit "hello world").
Proof.
  apply (X2_splitMessage_keeps_text 12 (lit "hello world") 5).
  vm_compute. reflexivity.
Defined.

Lemma X3_splitMessage_limit_zero_witness :
  Messages.splitMessage 1000 (lit "abc") 0 = None.
Proof.
  apply X3_splitMessage_limit_zero; [discriminate|].
  repeat constructor.
Defined.

Lemma X4_sendResponse_delivery_witness :
  exists log,
    Messages.sendResponse 3 (fun _ _ _ => None) (lit "hi")
    = Some (log, Return tt).
Proof.
  destruct (X4_sendResponse_delivery (fun _ _ _ => None) (lit "hi"))
    as (log & c & Hrun & _ & _ & _ & Hc).
  exists log. rewrite (Hc (fun _ _ => eq_refl)) in Hrun. exact Hrun.
Defined.

Lemma X6_commandArgs_witness :
  Commands.commandArgs (lit "/setrepo  /srv/my repo ") = lit "/srv/my repo"
  /\ Commands.commandArgs (lit "/setrepo") = [].
Proof.
  destruct (X6_commandArgs (lit "/setrepo") (lit " /srv/my repo "))
    as [H1 H2]; [by apply absent_units|].
  split; [exact H1|exact H2].
Defined.

Lemma X7_setrepo_witness :
  let reply : Commands.SetrepoChannel :=
    fun r =>
      match r with
      | Commands.SetrepoDone _ => Some (lit "ETELEGRAM")
      | _ => None
      end in
  let '(replies, c, repos') :=
    Commands.onSetrepo defaultConfig anyDirectory noon reply chat42
      (lit "/setrepo /srv/my repo") noRepos in
  replies = [Commands.SetrepoDone (lit "/srv/my repo");
             Commands.SetrepoFailed (lit "ETELEGRAM")]
  /\ c = Return tt
  /\ Repos.getRepoForChat repos' (IdNum 42) [] = lit "/srv/my repo".
Proof.
  intros reply.
  pose proof (X7_setrepo defaultConfig anyDirectory noon reply chat42
                (lit "/setrepo /srv/my repo") noRepos []) as H.
  destruct (Commands.onSetrepo defaultConfig anyDirectory noon reply chat42
              (lit "/setrepo /srv/my repo") noRepos)
    as [[replies c] repos'].
  destruct H as (Hacc & _ & Hthrow & _).
  destruct (Hacc (conj eq_refl eq_refl)) as (_ & Hget & _ & _ & Hfail).
  pose proof (Hfail (lit "ETELEGRAM") eq_refl) as Hreplies.
  split; [exact Hreplies|]. split; [|exact Hget].
  destruct c as [[]|e]; [done|].
  destruct (Hthrow e eq_refl) as (r & Hlast & Hr).
  rewrite Hreplies in Hlast. injection Hlast as <-. discriminate Hr.
Defined.

Lemma X8_session_names_apart_witness :
  (lit "private" = lit "private" -> (42 = 42)%Z)
  /\ getSessionId defaultConfig noRepos (telegramContext 42 7 (lit "private"))
     = getSessionId defaultConfig noRepos
         (telegramContext 42 8 (lit "private")).
Proof.
  assert (H : getSessionId defaultConfig noRepos
                (telegramContext 42 7 (lit "private"))
              = getSessionId defaultConfig noRepos
                  (telegramContext 42 8 (lit "private")))
    by (vm_compute; reflexivity).
  destruct (X8_session_names_apart defaultConfig noRepos 42 7 42 8
              (lit "private") (lit "private") H) as (_ & Hu & _).
  split; [exact Hu|exact H].
Defined.

Lemma X9_createSessionId_witness :
  createSessionId defaultConfig (IdNum 1)
  <> createSessionId defaultConfig (IdNum 2).
Proof.
  intros H.
  apply (proj1 (X9_createSessionId defaultConfig noRepos 1 2 0)) in H.
  discriminate H.
Defined.

Lemma X10_workspace_store_frame_witness :
  Repos.getRepoInfo
    (Repos.setRepoForChat anyDirectory noon (IdNum 1) (lit "/a")
       (reposWith (IdNum 2) (lit "/b"))).2 (IdNum 2)
  = Repos.getRepoInfo (reposWith (IdNum 2) (lit "/b")) (IdNum 2).
Proof.
  destruct (X10_workspace_store_frame anyDirectory noon noon 1 2 (lit "/a")
              (reposWith (IdNum 2) (lit "/b")) ltac:(lia)) as (H & _).
  exact H.
Defined.

Lemma X11_workspace_store_write_through_witness :
  reposSynced
    (Repos.setRepoForChat anyDirectory noon (IdNum 42) (lit "/a") noRepos).2
  /\ reposSynced (Repos.removeRepoForChat noon (IdNum 42) noRepos).
Proof.
  destruct (X11_workspace_store_write_through anyDirectory noon (IdNum 42)
              (lit "/a") noRepos) as (Hw & _ & _).
  destruct (Hw eq_refl) as [Hset Hrem].
  split; [apply Hset; reflexivity|exact Hrem].
Defined.

Lemma X12_handles_apart_witness :
  distinctHandles
    (Sessions.performAll countingUUID
       [Sessions.CallGet noon (lit "a"); Sessions.CallReset noon (lit "b");
        Sessions.CallGet noon (lit "b")] noSessions).2.
Proof.
  apply (X12_handles_apart countingUUID countingUUID_fresh);
    [exact noSessions_unseen|].
  intros k1 k2 i1 i2 H.
  change ((∅ : gmap jsstring Sessions.Info) !! k1 = Some i1) in H.
  by rewrite lookup_empty in H.
Defined.

Lemma X13_reset_command_witness :
  exists h,
    (Commands.onReset countingUUID defaultConfig noon chat42 noRepos
       noSessions).1
    = Some (getSessionId defaultConfig noRepos chat42, substring0 8 h).
Proof.
  destruct (X13_reset_command countingUUID defaultConfig noon noon chat42
              noRepos noSessions) as (_ & _ & H).
  destruct (H eq_refl) as (h & Hreply & _). by exists h.
Defined.

Lemma X14_call_settles_by_deadline_witness :
  Claude.promise
    (Claude.runUntil 300000 [(10, Claude.StdoutData (lit "hi"))]
       (Claude.executeClaudeCode defaultConfig ∅ [] (lit "hi") None))
  <> Claude.Pending.
Proof.
  destruct (X14_call_settles_by_deadline defaultConfig ∅ [] (lit "hi") None
              300000 [(10, Claude.StdoutData (lit "hi"))]) as [_ H].
  apply H. vm_compute. discriminate.
Defined.

Lemma X15_killed_unless_closed_witness :
  Claude.kills
    (Claude.runUntil 300000 [(5, Claude.Error (lit "ENOENT"))]
       (Claude.executeClaudeCode defaultConfig ∅ [] (lit "hi") None))
  = [lit "SIGKILL"].
Proof.
  apply (X15_killed_unless_closed defaultConfig ∅ [] (lit "hi") None
           300000 [(5, Claude.Error (lit "ENOENT"))]).
  vm_compute. discriminate.
Defined.

Lemma X16_outcome_is_final_witness :
  let r0 := Claude.executeClaudeCode defaultConfig ∅ [] (lit "hi") None in
  let sched := [(5, Claude.Close (Some 0%Z));
                (15, Claude.Error (lit "late"))] in
  Claude.promise (Claude.runUntil 20 sched r0)
  = Claude.promise (Claude.runUntil 10 sched r0).
Proof.
  intros r0 sched. apply X16_outcome_is_final; [lia|].
  vm_compute. discriminate.
Defined.

Lemma X17_clean_only_deletes_witness :
  (length (Claude.cleanClaudeResponse (lit " ab ")) <= 4)%nat.
Proof.
  destruct (X17_clean_only_deletes (lit " ab ")) as (_ & H & _). exact H.
Defined.

Lemma X18_clean_keeps_plain_text_witness :
  Claude.cleanClaudeResponse (lit "see" ++ [Claude.LF; Claude.LF] ++ lit "below")
  = lit "see" ++ [Claude.LF; Claude.LF] ++ lit "below".
Proof.
  apply X18_clean_keeps_plain_text.
  - by apply absent_units.
  - by apply absent_units.
  - apply no_spinner_line. repeat constructor.
  - change (lit "see" ++ [Claude.LF; Claude.LF] ++ lit "below")
      with (Claude.collapseBlank
              (lit "see" ++ [Claude.LF; Claude.LF] ++ lit "below")).
    apply collapse_bounded.
  - reflexivity.
Defined.

Lemma X20_answer_by_deadline_witness :
  exists aw,
    Bot.awaited
      (Claude.promise
         (Claude.runUntil 300000 [(10, Claude.StdoutData (lit "hi"))]
            (Claude.executeClaudeCode defaultConfig ∅ [] (lit "hi") None)))
    = Some aw.
Proof.
  destruct (X20_answer_by_deadline defaultConfig ∅ [] (lit "hi") None
              300000 [(10, Claude.StdoutData (lit "hi"))] (IdNum 42)
              None None ∅) as (aw & H & _).
  - vm_compute. discriminate.
  - by exists aw.
Defined.

Lemma X22_voice_transcripts_witness :
  let w := {| Whisper.download := Return (lit "/tmp/voice.ogg");
              Whisper.transcription := Return (lit "aehm hallo");
              Whisper.completion := Return (Some []) |} in
  (Whisper.processVoiceMessage true w).2
  = Return (lit "aehm hallo", lit "aehm hallo").
Proof.
  intros w. pose proof (X22_voice_transcripts true w) as H.
  destruct (Whisper.processVoiceMessage true w).2 as [[raw refined]|e].
  - destruct H as (Hraw & Hempty & Hne & _).
    injection Hraw as <-.
    destruct (decide (refined = lit "aehm hallo")) as [->|Hd]; [done|].
    destruct (Hne Hd) as [_ Hc]. injection Hc as <-.
    discriminate (Hempty eq_refl).
  - by destruct H as [H|[(p & _ & H)|(p & raw & _ & _ & _ & H)]].
Defined.

(** ** The list of allowed users *)

Section AllowedUsers.
Import Commands.

Lemma digits_numeral (d : Decimal.uint) (a : Z) :
  digits 10 (lit (NilEmpty.string_of_uint d)) (Some a)
  = Some (numeralValue d a).
Proof.
  revert a. induction d as [|d IH|d IH|d IH|d IH|d IH|d IH|d IH|d IH|d IH|d IH];
    intros a; [done|..];
    cbn [NilEmpty.string_of_uint numeralValue]; rewrite lit_cons;
    cbn [digits]; apply IH.
Qed.

Lemma digits_numeral_first (d : Decimal.uint) :
  d <> Decimal.Nil ->
  digits 10 (lit (NilEmpty.string_of_uint d)) None
  = Some (numeralValue d 0).
Proof.
  destruct d; [done|..]; intros _;
    cbn [NilEmpty.string_of_uint numeralValue]; rewrite lit_cons;
    cbn [digits]; apply digits_numeral.
Qed.

Lemma numeralValue_acc (d : Decimal.uint) (acc : positive) :
  Z.pos (Pos.of_uint_acc d acc) = numeralValue d (Z.pos acc).
Proof.
  revert acc. induction d as [|d IH|d IH|d IH|d IH|d IH|d IH|d IH|d IH|d IH|d IH];
    intros acc; [done|..];
    cbn [Pos.of_uint_acc numeralValue]; rewrite IH; f_equal; lia.
Qed.

Lemma numeralValue_of_uint (d : Decimal.uint) :
  Z.of_N (Pos.of_uint d) = numeralValue d 0.
Proof.
  induction d as [|d IH|d IH|d IH|d IH|d IH|d IH|d IH|d IH|d IH|d IH];
    [done|exact IH|..];
    cbn [Pos.of_uint numeralValue Z.of_N]; by rewrite numeralValue_acc.
Qed.

Lemma numeral_units (d : Decimal.uint) :
  Forall (λ c, Regex.between 0x30 0x39 c = true)
    (lit (NilEmpty.string_of_uint d)).
Proof.
  induction d; [constructor|..];
    cbn [NilEmpty.string_of_uint]; rewrite lit_cons; by constructor.
Qed.

Lemma hexPrefixed_numeral (s : jsstring) :
  Forall (λ c, Regex.between 0x30 0x39 c = true) s -> hexPrefixed s = false.
Proof.
  intros H. destruct s as [|z [|x s]]; [done..|].
  apply Forall_cons in H as [_ H]. apply Forall_cons in H as [H _].
  simpl. destruct (N.eqb_spec x 0x78) as [->|]; [done|].
  destruct (N.eqb_spec x 0x58) as [->|]; [done|].
  apply andb_false_r.
Qed.

Lemma toDouble_safe (n : N) : n < 2 ^ 53 -> toDouble n = Some n.
Proof.
  intros H. unfold toDouble. by destruct (N.ltb_spec n (2 ^ 53)); [|lia].
Qed.

Lemma parseInt_numeral (negative : bool) (p : positive) :
  N.pos p < 2 ^ 53 ->
  parseInt
    ((if negative then [0x2D] else [])
       ++ lit (NilEmpty.string_of_uint (Pos.to_uint p)))
  = Finite (if negative then Z.neg p else Z.pos p).
Proof.
  intros Hsafe.
  pose proof (Unsigned.to_uint_nonnil p) as Hnil.
  pose proof (numeral_units (Pos.to_uint p)) as Hunits.
  pose proof (digits_numeral_first _ Hnil) as Hd.
  rewrite <- numeralValue_of_uint, DecimalPos.Unsigned.of_to in Hd.
  pose proof (hexPrefixed_numeral _ Hunits) as Hx.
  destruct (lit (NilEmpty.string_of_uint (Pos.to_uint p)))
    as [|c r] eqn:E; [done|].
  apply Forall_cons in Hunits as [Hc _].
  assert (Hws : isWhiteSpace c = false).
  { unfold Regex.between in Hc. apply andb_prop in Hc as [H1 H2].
    apply N.leb_le in H1, H2. unfold isWhiteSpace.
    repeat (apply orb_false_intro);
      try (apply N.eqb_neq; lia).
    apply andb_false_intro1. apply N.leb_gt. lia. }
  assert (Hsign : (c =? 0x2D) || (c =? 0x2B) = false).
  { unfold Regex.between in Hc. apply andb_prop in Hc as [H1 H2].
    apply N.leb_le in H1, H2.
    apply orb_false_intro; apply N.eqb_neq; lia. }
  assert (Hround : toDouble (Z.to_N (Z.of_N (N.pos p))) = Some (N.pos p)).
  { rewrite N2Z.id. by apply toDouble_safe. }
  destruct negative; unfold parseInt; cbn [app trimStart].
  - change (isWhiteSpace 0x2D) with false. cbn iota.
    change (0x2D =? 0x2D) with true. cbn [orb].
    by rewrite Hx, Hd, Hround.
  - rewrite Hws, Hsign.
    apply orb_false_elim in Hsign as [-> _].
    by rewrite Hx, Hd, Hround.
Qed.

(** Reading back a printed integer gives the integer, as long as a
    Number can hold it. *)
Lemma parseInt_String (z : Z) :
  (Z.abs z < 2 ^ 53)%Z -> parseInt (js_String (IdNum z)) = Finite z.
Proof.
  intros Hsafe. destruct z as [|p|p].
  - reflexivity.
  - pose proof (parseInt_numeral false p ltac:(lia)) as H. cbn [app] in H.
    unfold js_String. cbn [Z.to_int Z.to_int NilZero.string_of_int].
    unfold NilZero.string_of_uint.
    pose proof (Unsigned.to_uint_nonnil p) as Hnil.
    by destruct (Pos.to_uint p).
  - pose proof (parseInt_numeral true p ltac:(lia)) as H. cbn [app] in H.
    unfold js_String. cbn [Z.to_int NilZero.string_of_int].
    rewrite lit_cons. unfold NilZero.string_of_uint.
    pose proof (Unsigned.to_uint_nonnil p) as Hnil.
    by destruct (Pos.to_uint p).
Qed.

(** Beyond that a numeral is read as the nearest Number. *)
Lemma parseInt_rounds :
  parseInt (lit "9007199254740993") = Finite 9007199254740992
  /\ parseInt (lit "9007199254740995") = Finite 9007199254740996.
Proof. split; vm_compute; reflexivity. Qed.

Lemma split_join (sep : N) (entries : list jsstring) :
  entries <> [] -> Forall (λ e, sep ∉ e) entries ->
  split sep (join sep entries) = entries.
Proof.
  intros Hne H. induction H as [|e entries He _ IH]; [done|].
  destruct entries as [|e' entries]; [by apply split_none|].
  rewrite join_cons by done. rewrite split_first by done.
  by rewrite IH.
Qed.

Lemma isUserAllowed_listed (cfg : Config) (u : JsId) :
  allowedUsers cfg <> [] ->
  Bot.isUserAllowed cfg u = true
  <-> exists z, u = IdNum z /\ Some z ∈ allowedUsers cfg.
Proof.
  intros Hne. unfold Bot.isUserAllowed.
  destruct (allowedUsers cfg) as [|a l]; [done|].
  destruct u as [z|s|].
  - rewrite bool_decide_eq_true. split; [by exists z|].
    by intros (z' & [= <-] & H).
  - split; [done|]. by intros (z' & [=] & _).
  - split; [done|]. by intros (z' & [=] & _).
Qed.

Variables (env : environ) (cwd : jsstring).

Let cfg : Config := config env cwd (parseAllowedUsers env).

Lemma parseAllowedUsers_entries (v : jsstring) :
  env !! lit "ALLOWED_USERS" = Some v -> v <> [] ->
  allowedUsers cfg
  = map (fun id => allowedEntry (parseInt (trim id))) (split 0x2C v).
Proof.
  intros Hv Hne. subst cfg. cbn [allowedUsers config].
  unfold parseAllowedUsers. rewrite Hv. by destruct v.
Qed.

Lemma allowedEntry_Some (x : JsNumber) (z : Z) :
  allowedEntry x = Some z <-> x = Finite z.
Proof. destruct x; simpl; split; congruence. Qed.

(** X23: without ALLOWED_USERS, or with an empty one, everybody is
    allowed, a sender without an id included.  With a non-empty one
    the list is never empty: a sender without an id is refused, and
    an integer id is allowed exactly when one of the comma-separated
    entries, trimmed, is read by [parseInt] as that integer, rounded
    to a Number as [parseInt] does; when no entry reads as an integer,
    nobody is allowed. *)
Theorem X23_allowed_users :
  (opt_or (env !! lit "ALLOWED_USERS") [] = [] ->
     forall u, Bot.isUserAllowed cfg u = true)
  /\ (forall v, env !! lit "ALLOWED_USERS" = Some v -> v <> [] ->
        Bot.isUserAllowed cfg IdUndefined = false
        /\ (forall s, Bot.isUserAllowed cfg (IdStr s) = false)
        /\ (forall z, Bot.isUserAllowed cfg (IdNum z) = true
              <-> exists entry, entry ∈ split 0x2C v
                                /\ parseInt (trim entry) = Finite z)
        /\ ((forall entry z, entry ∈ split 0x2C v ->
               parseInt (trim entry) <> Finite z) ->
            forall u, Bot.isUserAllowed cfg u = false)).
Proof.
  split.
  - intros H u. unfold Bot.isUserAllowed. subst cfg. cbn [allowedUsers config].
    unfold parseAllowedUsers.
    destruct (env !! lit "ALLOWED_USERS") as [v|]; [|done].
    simpl in H. unfold js_or in H. by destruct v.
  - intros v Hv Hne.
    pose proof (parseAllowedUsers_entries v Hv Hne) as Hl.
    assert (Hne' : allowedUsers cfg <> []).
    { rewrite Hl. pose proof (split_nonempty 0x2C v).
      by destruct (split 0x2C v). }
    assert (Hz : forall z, Bot.isUserAllowed cfg (IdNum z) = true
              <-> exists entry, entry ∈ split 0x2C v
                                /\ parseInt (trim entry) = Finite z).
    { intros z. rewrite (isUserAllowed_listed cfg (IdNum z) Hne'), Hl.
      split.
      - intros (z' & [= <-] & H). apply list_elem_of_fmap in H
          as (entry & H1 & H2). exists entry. split; [done|].
          by apply allowedEntry_Some.
      - intros (entry & H1 & H2). exists z. split; [done|].
        apply list_elem_of_fmap. exists entry. split; [|done].
        symmetry. by apply allowedEntry_Some. }
    split; [|split; [|split]].
    + apply not_true_is_false. rewrite (isUserAllowed_listed _ _ Hne').
      by intros (z & [=] & _).
    + intros s. apply not_true_is_false.
      rewrite (isUserAllowed_listed _ _ Hne'). by intros (z & [=] & _).
    + exact Hz.
    + intros Hnone u. apply not_true_is_false.
      rewrite (isUserAllowed_listed _ _ Hne').
      intros (z & -> & Hin). rewrite Hl in Hin.
      apply list_elem_of_fmap in Hin as (entry & H1 & H2).
      symmetry in H1. apply allowedEntry_Some in H1.
      by apply (Hnone entry z H2).
Qed.

(** X24: an ALLOWED_USERS that lists integers a Number holds exactly
    (below 2^53 in absolute value), in decimal, separated by commas,
    with or without white space around them, allows exactly the users
    listed. *)
Theorem X24_allowed_users_listing (entries : list jsstring)
    (ids : list Z) :
  Forall2 (λ e z, trim e = js_String (IdNum z) /\ 0x2C ∉ e) entries ids ->
  Forall (λ z, (Z.abs z < 2 ^ 53)%Z) ids ->
  entries <> [] ->
  env !! lit "ALLOWED_USERS" = Some (join 0x2C entries) ->
  parseAllowedUsers env = map Some ids
  /\ forall z, Bot.isUserAllowed cfg (IdNum z) = true <-> z ∈ ids.
Proof.
  intros H Hsafe Hne Henv.
  assert (Hsep : Forall (λ e, 0x2C ∉ e) entries).
  { clear Hne Henv Hsafe. induction H as [|e z es zs [_ He] _ IH];
      by constructor. }
  assert (Hv : join 0x2C entries <> []).
  { destruct H as [|e z es zs [He _] _]; [done|].
    destruct (js_String_num_head z) as (c & r & Hz & _).
    rewrite Hz in He. destruct e as [|x e]; [done|].
    by destruct es. }
  assert (Hl : parseAllowedUsers env = map Some ids).
  { unfold parseAllowedUsers. rewrite Henv.
    destruct (join 0x2C entries) as [|x v] eqn:E; [done|].
    cbn [truthy]. rewrite <- E, split_join by done.
    clear Hne Henv Hsep Hv E.
    induction H as [|e z es zs [He _] _ IH]; [done|].
    apply Forall_cons in Hsafe as [Hz Hzs].
    cbn [map]. by rewrite He, (parseInt_String z Hz), (IH Hzs). }
  split; [exact Hl|]. intros z.
  assert (Hne' : allowedUsers cfg <> []).
  { subst cfg. cbn [allowedUsers config]. rewrite Hl.
    destruct H; [done|discriminate]. }
  rewrite (isUserAllowed_listed cfg (IdNum z) Hne').
  subst cfg. cbn [allowedUsers config]. rewrite Hl. split.
  - intros (z' & [= <-] & Hin). apply list_elem_of_fmap in Hin
      as (y & [= <-] & Hy). exact Hy.
  - intros Hin. exists z. split; [done|].
    apply list_elem_of_fmap. by exists z.
Qed.

End AllowedUsers.

Lemma X23_allowed_users_witness :
  let env : environ := {[ lit "ALLOWED_USERS" := lit "abc" ]} in
  let env' : environ := {[ lit "ALLOWED_USERS" := lit "9007199254740993" ]} in
  Bot.isUserAllowed (config env (lit "/repo") (parseAllowedUsers env))
    (IdNum 42) = false
  /\ Bot.isUserAllowed (config env' (lit "/repo") (parseAllowedUsers env'))
       (IdNum 9007199254740992) = true.
Proof.
  intros env env'. split.
  - destruct (X23_allowed_users env (lit "/repo")) as [_ H].
    destruct (H (lit "abc")) as (_ & _ & _ & Hnone).
    + apply lookup_singleton_eq.
    + discriminate.
    + apply Hnone. intros entry z Hin.
      change (Commands.split 0x2C (lit "abc")) with [lit "abc"] in Hin.
      apply list_elem_of_singleton in Hin as ->. discriminate.
  - destruct (X23_allowed_users env' (lit "/repo")) as [_ H].
    destruct (H (lit "9007199254740993")) as (_ & _ & Hz & _).
    + apply lookup_singleton_eq.
    + discriminate.
    + apply Hz. exists (lit "9007199254740993").
      split; [apply list_elem_of_here|]. vm_compute. reflexivity.
Defined.

Lemma X24_allowed_users_listing_witness :
  let env : environ := {[ lit "ALLOWED_USERS" := lit "7, 22 " ]} in
  parseAllowedUsers env = [Some 7%Z; Some 22%Z]
  /\ Bot.isUserAllowed (config env (lit "/repo") (parseAllowedUsers env))
       (IdNum 22) = true.
Proof.
  intros env.
  destruct (X24_allowed_users_listing env (lit "/repo")
              [lit "7"; lit " 22 "] [7%Z; 22%Z]) as [Hl Hz].
  - repeat constructor; by apply absent_units.
  - repeat constructor.
  - discriminate.
  - apply lookup_singleton_eq.
  - split; [exact Hl|]. apply Hz.
    apply list_elem_of_further, list_elem_of_here.
Defined.

(** ** The stores across a restart *)

Section Restart.
Import Startup.

Lemma reposSynced_persisted (st : Repos.State) :
  reposSynced st -> reposPersisted st.
Proof.
  unfold reposSynced, reposPersisted, loadRepoMappings, restartRepos.
  simpl. by intros ->.
Qed.

(** X25: a workspace set or removed while the file can be written is
    there again, or gone again, after a restart; a change that could
    not be written is forgotten by the restart.  When the file cannot
    be read at start-up every chat is back on the default directory,
    and the next change that is written replaces the file by that one
    mapping. *)
Theorem X25_workspaces_across_restart (fs : Repos.FileSystem)
    (o : Outside) (c : JsId) (p d : jsstring) (st : Repos.State) :
  let set := Repos.setRepoForChat fs o c p st in
  let removed := Repos.removeRepoForChat o c st in
  let reloaded (s : Repos.State) := loadRepoMappings false (restartRepos s) in
  let unread := loadRepoMappings true (restartRepos st) in
  (writable o = true ->
     (set.1 = Return true ->
        Repos.getRepoForChat (reloaded set.2) c d = p)
     /\ Repos.getRepoForChat (reloaded removed) c d = d)
  /\ (writable o = false ->
        Repos.repoMappings (reloaded set.2)
        = Repos.repoMappings (reloaded st)
        /\ Repos.repoMappings (reloaded removed)
           = Repos.repoMappings (reloaded st))
  /\ (forall chat, Repos.getRepoForChat unread chat d = d)
  /\ (writable o = true ->
      (Repos.setRepoForChat fs o c p unread).1 = Return true ->
      Repos.reposFile (Repos.setRepoForChat fs o c p unread).2
      = Some {[ js_String c
                := {| Repos.path := p; Repos.setAt := now o |} ]}).
Proof.
  intros set removed reloaded unread.
  subst set removed reloaded unread.
  unfold Repos.setRepoForChat, Repos.removeRepoForChat,
    Repos.saveRepoMappings, Repos.getRepoForChat, loadRepoMappings,
    restartRepos.
  split; [|split; [|split]].
  - intros ->. split.
    + destruct (Repos.validate fs p) eqn:E; [done|]. intros _. simpl.
      rewrite lookup_insert_eq. by destruct p.
    + simpl. by rewrite lookup_delete_eq.
  - intros ->. split; [|done].
    by destruct (Repos.validate fs p).
  - intros chat. simpl. destruct (Repos.reposFile st); simpl;
      by rewrite lookup_empty.
  - intros ->. simpl.
    destruct (Repos.reposFile st); simpl;
      (destruct (Repos.validate fs p); [done|]); intros _; simpl;
      by rewrite insert_empty.
Qed.

Variables (randomUUID randomUUID' : nat -> jsstring).

Lemma perform_persisted (c : Sessions.Call) (st : Sessions.State) :
  writable (callOutside c) = true -> sessionsPersisted st ->
  sessionsPersisted (Sessions.perform randomUUID c st).2.
Proof.
  intros Hw Hp. destruct c as [o k|o k]; simpl in *.
  - unfold Sessions.getSessionUUID.
    destruct (Sessions.sessionMappings st !! k); [exact Hp|].
    unfold Sessions.saveSessionMappings. by rewrite Hw.
  - unfold Sessions.resetSession, Sessions.saveSessionMappings.
    by rewrite Hw.
Qed.

Lemma performAll_persisted (calls : list Sessions.Call)
    (st : Sessions.State) :
  Forall (λ c, writable (callOutside c) = true) calls ->
  sessionsPersisted st ->
  sessionsPersisted (Sessions.performAll randomUUID calls st).2.
Proof.
  intros H. revert st. induction H as [|c calls Hc _ IH]; intros st Hp;
    [exact Hp|].
  cbn [Sessions.performAll].
  pose proof (perform_persisted c st Hc Hp) as Hp1.
  destruct (Sessions.perform randomUUID c st) as [h st1]. cbn [snd] in Hp1.
  specialize (IH st1 Hp1).
  by destruct (Sessions.performAll randomUUID calls st1).
Qed.

(** X26: when every write of the session file goes through, a new
    process that loads the file resumes each conversation with the
    handle the old process last gave it, without drawing a new one,
    whatever its own random source is; a session whose write failed
    is not there after the restart; and when the file cannot be read
    the new process starts with no session at all. *)
Theorem X26_sessions_across_restart (calls : list Sessions.Call)
    (st0 : Sessions.State) (o o' : Outside) (k : jsstring) :
  let st := (Sessions.performAll randomUUID calls st0).2 in
  let reloaded (s : Sessions.State) :=
    loadSessionMappings false (restartSessions s) in
  sessionsPersisted st0 ->
  Forall (λ c, writable (callOutside c) = true) calls ->
  (forall info, Sessions.sessionMappings st !! k = Some info ->
     Sessions.getSessionUUID randomUUID' o' k (reloaded st)
     = (Sessions.uuid info, reloaded st))
  /\ (writable o = false -> Sessions.sessionMappings st !! k = None ->
      Sessions.sessionMappings
        (reloaded (Sessions.getSessionUUID randomUUID o k st).2) !! k
      = None)
  /\ Sessions.sessionMappings (loadSessionMappings true (restartSessions st))
     = ∅.
Proof.
  intros st reloaded Hp Hw.
  pose proof (performAll_persisted calls st0 Hw Hp) as Hst.
  fold st in Hst. unfold sessionsPersisted in Hst. fold (reloaded st) in Hst.
  split; [|split].
  - intros info Hk. unfold Sessions.getSessionUUID.
    by rewrite Hst, Hk.
  - intros Ho Hk. unfold Sessions.getSessionUUID. rewrite Hk.
    unfold Sessions.saveSessionMappings. rewrite Ho.
    change (Sessions.sessionMappings (reloaded st) !! k = None).
    by rewrite Hst.
  - unfold loadSessionMappings, restartSessions. simpl.
    by destruct (Sessions.sessionsFile st).
Qed.

End Restart.

Lemma X25_workspaces_across_restart_witness :
  Repos.getRepoForChat
    (Startup.loadRepoMappings false
       (Startup.restartRepos
          (Repos.setRepoForChat anyDirectory noon (IdNum 42) (lit "/a")
             noRepos).2))
    (IdNum 42) (lit "/repo")
  = lit "/a".
Proof.
  destruct (X25_workspaces_across_restart anyDirectory noon (IdNum 42)
              (lit "/a") (lit "/repo") noRepos) as (Hw & _).
  destruct (Hw eq_refl) as [Hset _]. apply Hset. reflexivity.
Defined.

Lemma X26_sessions_across_restart_witness :
  let st :=
    (Sessions.performAll countingUUID [Sessions.CallGet noon (lit "a")]
       noSessions).2 in
  (Sessions.getSessionUUID (fun _ => lit "other") noon (lit "a")
     (Startup.loadSessionMappings false (Startup.restartSessions st))).1
  = countingUUID 0.
Proof.
  intros st.
  destruct (X26_sessions_across_restart countingUUID (fun _ => lit "other")
              [Sessions.CallGet noon (lit "a")] noSessions noon noon
              (lit "a")) as (H & _).
  - reflexivity.
  - by repeat constructor.
  - assert (Hk : Sessions.sessionMappings st !! lit "a"
                 = Some {| Sessions.uuid := countingUUID 0;
                           Sessions.createdAt := now noon;
                           Sessions.previousUUID := None |})
      by apply lookup_insert_eq.
    exact (f_equal fst (H _ Hk)).
Defined.

(** ** The decimal-string form and what [String] prints *)

Section DecimalForm.

Local Abbreviation digit c := (Regex.between 0x30 0x39 c = true).

Lemma digit_cases (c : N) :
  digit c ->
  c = 0x30 \/ c = 0x31 \/ c = 0x32 \/ c = 0x33 \/ c = 0x34
  \/ c = 0x35 \/ c = 0x36 \/ c = 0x37 \/ c = 0x38 \/ c = 0x39.
Proof.
  unfold Regex.between. intros [H1 H2]%andb_prop.
  apply N.leb_le in H1, H2. lia.
Qed.

Lemma digit_offset (d : N) : d < 10 -> digit (0x30 + d).
Proof.
  intros H. unfold Regex.between. apply andb_true_intro.
  split; apply N.leb_le; lia.
Qed.

Lemma numeralOf_string (s : jsstring) :
  Forall (λ c, digit c) s -> lit (NilEmpty.string_of_uint (numeralOf s)) = s.
Proof.
  induction 1 as [|c s Hc _ IH]; [done|].
  destruct (digit_cases c Hc) as [->|[->|[->|[->|[->|[->|[->|[->|[->| ->]]]]]]]]];
    cbn [numeralOf N.eqb Pos.eqb NilEmpty.string_of_uint];
    rewrite lit_cons; by rewrite IH.
Qed.

Lemma numeralValue_cons (c : N) (s : jsstring) (a : Z) :
  digit c ->
  numeralValue (numeralOf (c :: s)) a
  = numeralValue (numeralOf s) (10 * a + (Z.of_N c - 0x30)).
Proof.
  intros Hc.
  destruct (digit_cases c Hc) as [->|[->|[->|[->|[->|[->|[->|[->|[->| ->]]]]]]]]];
    reflexivity.
Qed.

Lemma numeralValue_shift (s : jsstring) (a : Z) :
  Forall (λ c, digit c) s ->
  numeralValue (numeralOf s) a
  = (a * 10 ^ Z.of_nat (length s) + numeralValue (numeralOf s) 0)%Z.
Proof.
  intros H. revert a. induction H as [|c s Hc _ IH]; intros a.
  - simpl. lia.
  - rewrite !(numeralValue_cons c s) by done.
    rewrite (IH (10 * a + (Z.of_N c - 48))%Z), (IH (10 * 0 + (Z.of_N c - 48))%Z).
    cbn [length]. rewrite Nat2Z.inj_succ, Z.pow_succ_r by lia. ring.
Qed.

Lemma decimalDigits_units (fuel : nat) (n : N) (acc : jsstring) :
  Forall (λ c, digit c) acc ->
  Forall (λ c, digit c) (decimalDigits fuel n acc).
Proof.
  revert n acc. induction fuel as [|fuel IH]; intros n acc Hacc; [done|].
  cbn [decimalDigits].
  assert (Hd : Forall (λ c, digit c) ((0x30 + n mod 10) :: acc)).
  { constructor; [|done]. apply digit_offset. by apply N.mod_lt. }
  destruct (n / 10 =? 0); [done|by apply IH].
Qed.

Lemma decimalDigits_value (fuel : nat) (n : N) (acc : jsstring) :
  n < 2 ^ N.of_nat fuel -> Forall (λ c, digit c) acc ->
  numeralValue (numeralOf (decimalDigits fuel n acc)) 0
  = (Z.of_N n * 10 ^ Z.of_nat (length acc)
     + numeralValue (numeralOf acc) 0)%Z.
Proof.
  revert n acc. induction fuel as [|fuel IH]; intros n acc Hn Hacc.
  - simpl in *. assert (n = 0) as -> by lia. simpl. lia.
  - cbn [decimalDigits].
    pose proof (N.div_mod' n 10) as Hdm.
    pose proof (N.mod_lt n 10 ltac:(lia)) as Hm.
    assert (Hd : digit (0x30 + n mod 10)) by by apply digit_offset.
    assert (Hv : (Z.of_N (0x30 + n mod 10) - 0x30 = Z.of_N (n mod 10))%Z)
      by lia.
    destruct (N.eqb_spec (n / 10) 0) as [Hq|Hq].
    + rewrite numeralValue_cons, numeralValue_shift by done.
      rewrite Hv. rewrite Hq in Hdm.
      replace (n mod 10) with n by lia. reflexivity.
    + rewrite IH; [| |by constructor].
      * rewrite numeralValue_cons, (numeralValue_shift acc) by done.
        rewrite Hv. cbn [length].
        rewrite Nat2Z.inj_succ, Z.pow_succ_r by lia.
        rewrite Hdm at 3. rewrite N2Z.inj_add, N2Z.inj_mul. simpl Z.of_N.
        ring.
      * rewrite Nat2N.inj_succ, N.pow_succ_r' in Hn.
        apply N.Div0.div_lt_upper_bound. lia.
Qed.

Lemma decimalDigits_head (fuel : nat) (n : N) (acc : jsstring) :
  0 < n -> n < 2 ^ N.of_nat fuel ->
  exists d rest,
    decimalDigits fuel n acc = (0x30 + d) :: rest /\ 1 <= d <= 9.
Proof.
  revert n acc. induction fuel as [|fuel IH]; intros n acc Hpos Hn.
  - simpl in Hn. lia.
  - cbn [decimalDigits].
    pose proof (N.div_mod' n 10) as Hdm.
    pose proof (N.mod_lt n 10 ltac:(lia)) as Hm.
    destruct (N.eqb_spec (n / 10) 0) as [Hq|Hq].
    + exists (n mod 10), acc. split; [done|]. rewrite Hq in Hdm. lia.
    + apply IH; [lia|].
      rewrite Nat2N.inj_succ, N.pow_succ_r' in Hn.
      apply N.Div0.div_lt_upper_bound. lia.
Qed.

Lemma numeralOf_normal (d : N) (rest : jsstring) :
  1 <= d <= 9 ->
  Decimal.unorm (numeralOf ((0x30 + d) :: rest))
  = numeralOf ((0x30 + d) :: rest)
  /\ numeralOf ((0x30 + d) :: rest) <> Decimal.Nil.
Proof.
  intros H.
  assert (d = 1 \/ d = 2 \/ d = 3 \/ d = 4 \/ d = 5 \/ d = 6 \/ d = 7
          \/ d = 8 \/ d = 9) as
    [->|[->|[->|[->|[->|[->|[->|[->| ->]]]]]]]] by lia;
    by split.
Qed.

Lemma enough_fuel (n : N) : n < 2 ^ N.of_nat (S (N.to_nat (N.log2 n))).
Proof.
  rewrite Nat2N.inj_succ, N2Nat.id.
  destruct n as [|p]; [done|].
  by apply N.log2_spec.
Qed.

(** The digits got by dividing by ten are the digits the Standard
    Library's printer gives. *)
Lemma decimalDigits_to_uint (p : positive) :
  lit (NilZero.string_of_uint (Pos.to_uint p))
  = decimalDigits (S (N.to_nat (N.log2 (N.pos p)))) (N.pos p) [].
Proof.
  set (s := decimalDigits (S (N.to_nat (N.log2 (N.pos p)))) (N.pos p) []).
  pose proof (enough_fuel (N.pos p)) as Hfuel.
  assert (Hunits : Forall (λ c, digit c) s)
    by (by apply decimalDigits_units).
  destruct (decimalDigits_head _ (N.pos p) [] ltac:(lia) Hfuel)
    as (d & rest & Hs & Hd).
  fold s in Hs.
  destruct (numeralOf_normal d rest Hd) as [Hnorm Hnil].
  rewrite <- Hs in Hnorm, Hnil.
  assert (Hval : Pos.of_uint (numeralOf s) = N.pos p).
  { apply N2Z.inj. rewrite numeralValue_of_uint.
    unfold s. rewrite decimalDigits_value by done. simpl. lia. }
  assert (Hto : Pos.to_uint p = numeralOf s).
  { change (Pos.to_uint p) with (N.to_uint (N.pos p)).
    by rewrite <- Hval, DecimalPos.Unsigned.to_of. }
  rewrite Hto. unfold NilZero.string_of_uint.
  rewrite <- (numeralOf_string s Hunits) at 2.
  by destruct (numeralOf s).
Qed.

(** What [String] prints for an integer is its decimal-string form. *)
Lemma js_String_decimal (z : Z) : js_String (IdNum z) = decimalStringForm z.
Proof.
  destruct z as [|p|p].
  - reflexivity.
  - unfold js_String, decimalStringForm.
    cbn [Z.to_int NilZero.string_of_int Z.ltb Z.compare Z.abs_N app].
    apply decimalDigits_to_uint.
  - unfold js_String, decimalStringForm.
    cbn [Z.to_int NilZero.string_of_int Z.ltb Z.compare Z.abs_N].
    rewrite lit_cons. cbn [app]. f_equal. apply decimalDigits_to_uint.
Qed.

End DecimalForm.

(** C10: the entry of a chat is stored under the decimal-string form of
    its id: a minus sign for a negative id, then the digits in base ten
    without leading zeros.  Setting a directory for the number puts the
    entry under that very string and leaves every other key alone, and
    distinct ids have distinct keys.  So the number and its string form
    name the same entry: a directory set under either is what
    [getRepoForChat] returns under the other, and removing under the
    string form deletes what was set under the number and nothing else.
    The ids are those a Number holds exactly. *)
Theorem C10_store_keyed_by_decimal_string (fs : Repos.FileSystem)
    (o o' : Outside) (z : Z) (p d : jsstring) (st : Repos.State) :
  Repos.statSync fs p = inr true ->
  (Z.abs z < 2 ^ 53)%Z ->
  let num := IdNum z in
  let key := decimalStringForm z in
  let txt := IdStr key in
  let byNum := Repos.setRepoForChat fs o num p st in
  let byTxt := Repos.setRepoForChat fs o txt p st in
  byNum.1 = Return true
  /\ Repos.repoMappings byNum.2
     = <[key := {| Repos.path := p; Repos.setAt := now o |}]>
         (Repos.repoMappings st)
  /\ (forall z', z' <> z -> decimalStringForm z' <> key)
  /\ byTxt = byNum
  /\ Repos.getRepoForChat byNum.2 txt d = p
  /\ Repos.getRepoForChat byTxt.2 num d = p
  /\ Repos.repoMappings (Repos.removeRepoForChat o' txt byNum.2)
     = delete key (Repos.repoMappings byNum.2)
  /\ Repos.getRepoInfo (Repos.removeRepoForChat o' txt byNum.2) num = None
  /\ Repos.getRepoForChat (Repos.removeRepoForChat o' txt byNum.2) num d = d.
Proof.
  intros Hdir _ num key txt byNum byTxt.
  assert (Hkey : js_String num = key) by apply js_String_decimal.
  assert (Htxt : js_String txt = key) by reflexivity.
  assert (Hnum : byNum = (Return true, byNum.2)).
  { subst byNum. by rewrite (setRepoForChat_directory fs o num p st Hdir). }
  assert (Hsame : byTxt = byNum).
  { subst byTxt byNum txt num. unfold Repos.setRepoForChat.
    change (js_String (IdStr key)) with key.
    by rewrite (js_String_decimal z). }
  split; [by rewrite Hnum|].
  split.
  { destruct (setRepoForChat_ok _ _ _ _ _ _ Hnum) as [_ ->].
    by rewrite Hkey. }
  split.
  { intros z' Hne E. apply Hne. apply js_String_num_inj.
    by rewrite !js_String_decimal. }
  split; [exact Hsame|].
  split.
  { unfold Repos.getRepoForChat. rewrite Htxt, <- Hkey.
    exact (getRepoForChat_after_set fs o num p st byNum.2 d Hnum). }
  split.
  { rewrite Hsame.
    exact (getRepoForChat_after_set fs o num p st byNum.2 d Hnum). }
  split.
  { unfold Repos.removeRepoForChat. by rewrite save_repoMappings. }
  split.
  { unfold Repos.getRepoInfo, Repos.removeRepoForChat.
    rewrite save_repoMappings. cbn [Repos.repoMappings].
    rewrite Hkey, Htxt. apply lookup_delete_eq. }
  unfold Repos.getRepoForChat, Repos.removeRepoForChat.
  rewrite save_repoMappings. cbn [Repos.repoMappings].
  rewrite Hkey, Htxt. by rewrite lookup_delete_eq.
Qed.

Lemma C10_store_keyed_by_decimal_string_witness :
  let byNum :=
    Repos.setRepoForChat anyDirectory noon (IdNum (-1001234567890))
      (lit "/repo") noRepos in
  Repos.repoMappings byNum.2 !! lit "-1001234567890"
  = Some {| Repos.path := lit "/repo"; Repos.setAt := now noon |}
  /\ Repos.getRepoForChat byNum.2 (IdStr (lit "-1001234567890"))
       (lit "/default")
     = lit "/repo"
  /\ Repos.getRepoInfo
       (Repos.removeRepoForChat noon (IdStr (lit "-1001234567890")) byNum.2)
       (IdNum (-1001234567890))
     = None
  /\ Repos.repoMappings byNum.2 !! lit "42" = None.
Proof.
  intros byNum.
  destruct (C10_store_keyed_by_decimal_string anyDirectory noon noon
              (-1001234567890) (lit "/repo") (lit "/default") noRepos
              eq_refl ltac:(lia))
    as (_ & Hmap & _ & _ & Hget & _ & _ & Hgone & _).
  assert (Hkey : decimalStringForm (-1001234567890) = lit "-1001234567890")
    by (vm_compute; reflexivity).
  rewrite Hkey in Hmap, Hget, Hgone.
  split; [|split; [|split]].
  - fold byNum in Hmap. rewrite Hmap. apply lookup_insert_eq.
  - exact Hget.
  - exact Hgone.
  - fold byNum in Hmap. rewrite Hmap. rewrite lookup_insert_ne.
    + apply lookup_empty.
    + intros E. vm_compute in E. discriminate E.
Defined.
